(** * Minesweeper knowledge engine: a shallow embedding of [minesweeper.py]

    The classes [Minesweeper], [Sentence] and [MinesweeperAI] are embedded
    as records with their methods as functions.  Python sets of cells are
    [gset (Z * Z)], integers are [Z].  The knowledge list is a [list] of
    sentences addressed by index: the list is only ever appended to, so an
    index is a stable reference to a stored sentence object, and the
    in-place updates of the stored objects are updates of the list at their
    index.  The methods of [MinesweeperAI] live in a small state and
    exception monad that also records every mutation of the engine and
    every [Sentence] object that is constructed, so that statements about
    all points of an execution can be made.

    Two things the source leaves open are parameters of the model: the
    order in which a set is enumerated (a function [order] from a set to a
    list of its elements) and the random draws (a list of raw integers).
    The two nested loops over the growing knowledge list take fuel; what
    is proved of every state an execution goes through is proved for every
    amount of fuel, and the calls are shown to return on truthful
    knowledge once the fuel is large enough.

    The last part (further properties of the code) is about what the
    rest of the file does not cover: the board ([Minesweeper.__init__],
    [print], [is_mine], [nearby_mines], [won]), [find_neighbours], the
    exact effect of the marking methods, of [add_safes] and of
    [add_mines], what a call of [add_knowledge] leaves behind whatever its
    outcome, its behaviour on contradictory input, and the two move
    queries over whole sessions of calls. *)

From stdpp Require Import base numbers option list gmap sets fin_sets.
From Stdlib Require Import FunctionalExtensionality Ascii.

Local Open Scope Z_scope.
#[local] Set Warnings "-clear-no-such-hyp,-level-tolerance".

(** ** Cells and sets of cells *)

Abbreviation Cell := (Z * Z)%type.
Abbreviation Cells := (gset Cell).

(** [s.add(x)] *)
Definition add (x : Cell) (s : Cells) : Cells := {[x]} ∪ s.

(** [range(lo, hi)] *)
Definition range (lo hi : Z) : list Z :=
  (fun k => lo + Z.of_nat k) <$> seq 0 (Z.to_nat (hi - lo)).

(** ** class Minesweeper: the board that produces the clues *)

Module Minesweeper.

Record t : Type := mk {
  height : Z;
  width : Z;
  board : list (list bool);
  mines : Cells;
  mines_found : Cells
}.

(** [l[i]] for a Python list: a negative index counts from the end, and
    [None] stands for [IndexError]. *)
Definition item {A} (l : list A) (i : Z) : option A :=
  if 0 <=? i then l !! Z.to_nat i
  else if - Z.of_nat (length l) <=? i then l !! Z.to_nat (Z.of_nat (length l) + i)
  else None.

(** [random.randrange(n)]: an integer of [0..n-1] chosen by the raw draw;
    [None] stands for the [ValueError] raised when [n <= 0]. *)
Definition randrange (raw n : Z) : option Z :=
  if 0 <? n then Some (raw mod n) else None.

(** The [while] loop of [__init__] that places the mines, driven by the
    stream [rng] of raw draws, two per round.  [None] stands for an
    exception, or for a stream that is used up before the loop ends. *)
Fixpoint place_mines (rng : list (Z * Z)) (n_mines : Z) (self : t) : option t :=
  if Z.of_nat (size (mines self)) =? n_mines then Some self
  else
    match rng with
    | [] => None
    | (r1, r2) :: rng =>
        match randrange r1 (height self), randrange r2 (width self) with
        | Some i, Some j =>
            match item (board self) i with
            | Some row =>
                match item row j with
                | Some b =>
                    if negb b
                    then place_mines rng n_mines
                           (mk (height self) (width self)
                               (<[Z.to_nat i := <[Z.to_nat j := true]> row]> (board self))
                               (add (i, j) (mines self)) (mines_found self))
                    else place_mines rng n_mines self
                | None => None
                end
            | None => None
            end
        | _, _ => None
        end
    end.

(** [Minesweeper(height, width, mines)] *)
Definition __init__ (rng : list (Z * Z)) (height width n_mines : Z) : option t :=
  let board := (fun _ => (fun _ => false) <$> range 0 width) <$> range 0 height in
  place_mines rng n_mines (mk height width board ∅ ∅).

(** [self.board[i][j]] *)
Definition field (self : t) (i j : Z) : option bool :=
  match item (board self) i with
  | Some row => item row j
  | None => None
  end.

Definition is_mine (self : t) (cell : Cell) : option bool :=
  let '(i, j) := cell in
  field self i j.

(** [None] stands for an [IndexError] raised on the way. *)
Definition nearby_mines (self : t) (cell : Cell) : option Z :=
  foldl (fun count i =>
           foldl (fun count j =>
                    if bool_decide ((i, j) = cell) then count
                    else if (0 <=? i) && (i <? height self)
                            && (0 <=? j) && (j <? width self)
                    then match count, field self i j with
                         | Some n, Some b => Some (if b : bool then n + 1 else n)
                         | _, _ => None
                         end
                    else count)
                 count (range (cell.2 - 1) (cell.2 + 2)))
        (Some 0) (range (cell.1 - 1) (cell.1 + 2)).


(** [print] writes text to the standard output; the model returns the
    text written, as the list of its characters.  [None] stands for an
    [IndexError] raised on the way. *)
Definition newline : ascii := "010"%char.

(** ["--" * width + "-"] *)
Definition rule (width : Z) : list ascii :=
  mjoin (replicate (Z.to_nat width) ["-"; "-"]%char) ++ ["-"%char].

(** ["|X"] for a field that is set, ["| "] for one that is not *)
Definition field_text (b : bool) : list ascii :=
  (if b then ["|"; "X"] else ["|"; " "])%char.

(** The inner loop of [print], over the fields of row [i]. *)
Definition print_row (self : t) (i : Z) : option (list ascii) :=
  foldl (fun out j =>
           match out, field self i j with
           | Some text, Some b => Some (text ++ field_text b)
           | _, _ => None
           end)
        (Some []) (range 0 (width self)).

Definition print (self : t) : option (list ascii) :=
  match
    foldl (fun out i =>
             match out, print_row self i with
             | Some text, Some row =>
                 Some (text ++ rule (width self) ++ [newline]
                            ++ row ++ ["|"%char; newline])
             | _, _ => None
             end)
          (Some []) (range 0 (height self))
  with
  | Some text => Some (text ++ rule (width self) ++ [newline])
  | None => None
  end.

End Minesweeper.

(** ** class Sentence *)

Module Sentence.

Record t : Type := mk { cells : Cells; count : Z }.

(** [Sentence(cells, count)]: [self.cells = set(cells)] is a fresh copy. *)
Definition __init__ (cs : Cells) (n : Z) : t := mk cs n.

(** [__eq__]; Python derives [!=] from it. *)
Definition __eq__ (self other : t) : bool :=
  bool_decide (cells self = cells other) && (count self =? count other).

Definition __ne__ (self other : t) : bool := negb (__eq__ self other).

(** [len(self.cells)] *)
Definition len (self : t) : Z := Z.of_nat (size (cells self)).

(** The two queries return their answer (a fresh set) together with the
    object they were called on. *)
Definition known_mines (self : t) : Cells * t :=
  if count self =? len self then (cells self, self) else (∅, self).

Definition known_safes (self : t) : Cells * t :=
  if count self =? 0 then (cells self, self) else (∅, self).

(** The two updates return the object after the call. *)
Definition mark_mine (cell : Cell) (self : t) : t :=
  if bool_decide (cell ∈ cells self)
  then mk (cells self ∖ {[cell]}) (count self - 1)
  else self.

Definition mark_safe (cell : Cell) (self : t) : t :=
  if bool_decide (cell ∈ cells self)
  then mk (cells self ∖ {[cell]}) (count self)
  else self.

End Sentence.

(** [x in lst] for a list of sentences: some element equals [x]. *)
Definition contains (lst : list Sentence.t) (x : Sentence.t) : bool :=
  existsb (fun y => Sentence.__eq__ y x) lst.

(** ** class MinesweeperAI: state *)

Record AI : Type := mkAI {
  height : Z;
  width : Z;
  moves_made : Cells;
  mines : Cells;
  safes : Cells;
  knowledge : list Sentence.t
}.

Definition set_moves_made (f : Cells → Cells) (a : AI) : AI :=
  mkAI (height a) (width a) (f (moves_made a)) (mines a) (safes a) (knowledge a).
Definition set_mines (f : Cells → Cells) (a : AI) : AI :=
  mkAI (height a) (width a) (moves_made a) (f (mines a)) (safes a) (knowledge a).
Definition set_safes (f : Cells → Cells) (a : AI) : AI :=
  mkAI (height a) (width a) (moves_made a) (mines a) (f (safes a)) (knowledge a).
Definition set_knowledge (f : list Sentence.t → list Sentence.t) (a : AI) : AI :=
  mkAI (height a) (width a) (moves_made a) (mines a) (safes a) (f (knowledge a)).

(** [lst.append(x)] *)
Definition append (x : Sentence.t) (lst : list Sentence.t) : list Sentence.t :=
  lst ++ [x].

(** ** The engine monad: state, exceptions, fuel and a mutation log *)

Inductive Exn : Type := KeyError | ValueError.

Inductive Res (A : Type) : Type :=
| Ok (x : A)
| Raise (e : Exn)
| OutOfFuel.
Arguments Ok {A} x.
Arguments Raise {A} e.
Arguments OutOfFuel {A}.

(** [Mut pre post]: one mutation of the engine took it from [pre] to [post]
    (an element added to one of the sets, one stored sentence updated by
    one call of its [mark_mine] or [mark_safe], a sentence appended).
    [New s]: the sentence object [s] was constructed. *)
Inductive Event : Type :=
| Mut (pre post : AI)
| New (s : Sentence.t).

Definition M (A : Type) : Type := AI → Res A * AI * list Event.

Definition ret {A} (x : A) : M A := fun a => (Ok x, a, []).

Definition bind {A B} (m : M A) (k : A → M B) : M B := fun a =>
  match m a with
  | (Ok x, a1, tr1) => let '(r, a2, tr2) := k x a1 in (r, a2, tr1 ++ tr2)
  | (Raise e, a1, tr1) => (Raise e, a1, tr1)
  | (OutOfFuel, a1, tr1) => (OutOfFuel, a1, tr1)
  end.

Notation "x ← m ; k" := (bind m (fun x => k))
  (at level 20, m at level 100, k at level 200, only parsing).
Notation "m ;; k" := (bind m (fun _ => k))
  (at level 100, k at level 200, right associativity).

Definition get : M AI := fun a => (Ok a, a, []).
Definition modify (f : AI → AI) : M unit := fun a => (Ok tt, f a, [Mut a (f a)]).
Definition raise {A} (e : Exn) : M A := fun a => (Raise e, a, []).
Definition out_of_fuel {A} : M A := fun a => (OutOfFuel, a, []).
Definition construct (cs : Cells) (n : Z) : M Sentence.t := fun a =>
  let s := Sentence.__init__ cs n in (Ok s, a, [New s]).
Definition when (b : bool) (m : M unit) : M unit := if b then m else ret tt.

(** [for x in l: body x] over an immutable snapshot [l]. *)
Fixpoint foreach {A} (l : list A) (body : A → M unit) : M unit :=
  match l with
  | [] => ret tt
  | x :: rest => body x ;; foreach rest body
  end.

(** [s.remove(x)]: raises [KeyError] when [x] is absent. *)
Definition remove (x : Cell) (s : Cells) : M Cells :=
  if bool_decide (x ∈ s) then ret (s ∖ {[x]}) else raise KeyError.

(** ** class MinesweeperAI: methods *)

Module MinesweeperAI.

(** [MinesweeperAI(height, width)] *)
Definition __init__ (height width : Z) : AI := mkAI height width ∅ ∅ ∅ [].

(** [for sentence in self.knowledge: sentence.f(cell)]: the stored
    sentences are updated in place, one after the other.  The body does
    not change the length of the list, so the indices visited are those
    of the list at loop entry. *)
Definition update_all (f : Sentence.t → Sentence.t) : M unit :=
  a ← get;
  foreach (seq 0 (length (knowledge a)))
          (fun i => modify (set_knowledge (alter f i))).

Definition mark_mine (cell : Cell) : M unit :=
  modify (set_mines (add cell));;
  update_all (Sentence.mark_mine cell).

Definition mark_safe (cell : Cell) : M unit :=
  modify (set_safes (add cell));;
  update_all (Sentence.mark_safe cell).

Definition in_bounds (height width : Z) (c : Cell) : bool :=
  (0 <=? c.1) && (c.1 <? height) && (0 <=? c.2) && (c.2 <? width).

(** The set [answer] built by the two nested [range] loops. *)
Definition neighbourhood (height width : Z) (cell : Cell) : Cells :=
  let '(i, j) := cell in
  foldl (fun answer row =>
           foldl (fun answer col =>
                    if in_bounds height width (row, col)
                    then add (row, col) answer
                    else answer)
                 answer (range (j - 1) (j + 2)))
        ∅ (range (i - 1) (i + 2)).

Definition find_neighbours (cell : Cell) : M Cells :=
  self ← get;
  let height := height self in
  let width := width self in
  answer ← ret (neighbourhood height width cell);
  remove cell answer.

Section WithOrder.

(** The order in which Python enumerates a set is not specified; every
    loop over a set goes through [order]. *)
Variable order : Cells → list Cell.

(** [sentence] is always an object that is not (yet) stored in
    [self.knowledge]: the marking calls below do not change it. *)
Definition add_safes (sentence : Sentence.t) : M unit :=
  foreach (order (Sentence.known_safes sentence).1) (fun cll =>
    mark_safe cll;;
    modify (set_safes (add cll));;
    when (1 <? Sentence.len sentence) (
      copy ← remove cll (Sentence.cells sentence);
      new_sent ← construct copy (Sentence.count sentence);
      self ← get;
      when (negb (contains (knowledge self) new_sent))
           (modify (set_knowledge (append new_sent))))).

Definition add_mines (sentence : Sentence.t) : M unit :=
  foreach (order (Sentence.known_mines sentence).1) (fun cll =>
    mark_mine cll;;
    modify (set_mines (add cll));;
    when (1 <? Sentence.len sentence) (
      copy ← remove cll (Sentence.cells sentence);
      new_sent ← construct copy (Sentence.count sentence - 1);
      self ← get;
      when (negb (contains (knowledge self) new_sent))
           (modify (set_knowledge (append new_sent))))).

(** Body of the two nested loops of [add_knowledge]; [snt] and [snt2]
    are the current contents of the two stored objects. *)
Definition derive (snt snt2 : Sentence.t) : M unit :=
  when (Sentence.__ne__ snt snt2
        && bool_decide (Sentence.cells snt ⊂ Sentence.cells snt2)) (
    new_sent ← construct (Sentence.cells snt2 ∖ Sentence.cells snt)
                         (Sentence.count snt2 - Sentence.count snt);
    add_safes new_sent;;
    add_mines new_sent;;
    self ← get;
    when (negb (Sentence.count new_sent =? 0)
          && negb (Sentence.count new_sent =? Sentence.len new_sent)
          && negb (contains (knowledge self) new_sent))
         (modify (set_knowledge (append new_sent)))).

(** [for snt2 in self.knowledge: ...] with [snt] the object at index
    [i]: a list iterator is an index into the live list, which grows
    while the loop runs.  The object [snt] is read anew in every round,
    since the marking calls of earlier rounds update it in place; it stays
    at index [i], as nothing is ever removed from the list. *)
Fixpoint inner_loop (fuel : nat) (i j : nat) : M unit :=
  match fuel with
  | O => out_of_fuel
  | S fuel =>
      self ← get;
      match knowledge self !! j, knowledge self !! i with
      | Some snt2, Some snt => derive snt snt2;; inner_loop fuel i (S j)
      | _, _ => ret tt
      end
  end.

(** [for snt in self.knowledge: ...] *)
Fixpoint outer_loop (fuel : nat) (i : nat) : M unit :=
  match fuel with
  | O => out_of_fuel
  | S fuel =>
      self ← get;
      match knowledge self !! i with
      | Some _ => inner_loop fuel i 0;; outer_loop fuel (S i)
      | None => ret tt
      end
  end.

(** [add_knowledge], steps 1 to 3: record the move, mark the cell
    safe, build the sentence of the clue, resolve and store it. *)
Definition add_clue (cell : Cell) (count : Z) : M unit :=
  modify (set_moves_made (add cell));;
  mark_safe cell;;
  nb ← find_neighbours cell;
  sent ← construct nb count;
  add_safes sent;;
  add_mines sent;;
  self ← get;
  when (negb (contains (knowledge self) sent))
       (modify (set_knowledge (append sent))).

(** [add_knowledge], steps 4 and 5: the two nested loops. *)
Definition closure_pass (fuel : nat) : M unit := outer_loop fuel 0.

Definition add_knowledge (fuel : nat) (cell : Cell) (count : Z) : M unit :=
  add_clue cell count;;
  closure_pass fuel.

Fixpoint safe_move_loop (todo : list Cell) : M (option Cell) :=
  match todo with
  | [] => ret None
  | cll :: todo =>
      self ← get;
      if bool_decide (cll ∈ moves_made self)
      then safe_move_loop todo
      else modify (set_moves_made (add cll));; ret (Some cll)
  end.

Definition make_safe_move : M (option Cell) :=
  self ← get;
  safe_move_loop (order (safes self)).

End WithOrder.

(** [random.randint(lo, hi)]: some integer of [lo..hi], chosen by the
    raw draw [raw]; [ValueError] on an empty range. *)
Definition randint (raw lo hi : Z) : M Z :=
  if lo <=? hi then ret (lo + raw mod (hi - lo + 1)) else raise ValueError.

(** [while True: ...] driven by the stream [rng] of raw draws, two per
    round; the model gives up when the stream is used up. *)
Fixpoint make_random_move (rng : list (Z * Z)) : M Cell :=
  match rng with
  | [] => out_of_fuel
  | (r1, r2) :: rng =>
      self ← get;
      x ← randint r1 0 (height self - 1);
      y ← randint r2 0 (width self - 1);
      let cll := (x, y) in
      if bool_decide (cll ∈ moves_made self) then make_random_move rng
      else if bool_decide (cll ∈ mines self) then make_random_move rng
      else ret cll
  end.

End MinesweeperAI.

(** ** A weakest-precondition calculus for the engine monad

    [wp E R m Q a]: running [m] from [a] logs only events that satisfy [E];
    when it returns [x] in state [a'] then [Q x a'], and when it stops with
    an exception or for lack of fuel in state [a'] then [R a']. *)

Section WP.

Context (E : Event → Prop) (R : AI → Prop).

Definition wp {A} (m : M A) (Q : A → AI → Prop) (a : AI) : Prop :=
  Forall E (m a).2 ∧
  match (m a).1.1 with
  | Ok x => Q x (m a).1.2
  | _ => R (m a).1.2
  end.

Lemma wp_ret {A} (x : A) Q a : Q x a → wp (ret x) Q a.
Proof. intros HQ. split; [constructor | exact HQ]. Qed.

Lemma wp_get Q a : Q a a → wp get Q a.
Proof. intros HQ. split; [constructor | exact HQ]. Qed.

Lemma wp_raise {A} e (Q : A → AI → Prop) a : R a → wp (raise e) Q a.
Proof. intros HR. split; [constructor | exact HR]. Qed.

Lemma wp_out_of_fuel {A} (Q : A → AI → Prop) a : R a → wp out_of_fuel Q a.
Proof. intros HR. split; [constructor | exact HR]. Qed.

Lemma wp_modify f Q a : E (Mut a (f a)) → Q tt (f a) → wp (modify f) Q a.
Proof. intros HE HQ. split; [by repeat constructor | exact HQ]. Qed.

Lemma wp_construct cs n Q a :
  E (New (Sentence.mk cs n)) → Q (Sentence.mk cs n) a → wp (construct cs n) Q a.
Proof. intros HE HQ. split; [by repeat constructor | exact HQ]. Qed.

Lemma wp_bind {A B} (m : M A) (k : A → M B) Q a :
  wp m (fun x a1 => wp (k x) Q a1) a → wp (bind m k) Q a.
Proof.
  unfold wp, bind. destruct (m a) as [[r a1] tr1]; simpl.
  intros [Htr1 Hk]. destruct r as [x| |]; simpl; [|done..].
  destruct Hk as [Htr2 HQ]. destruct (k x a1) as [[r2 a2] tr2]; simpl in *.
  split; [by apply Forall_app | done].
Qed.

Lemma wp_conseq {A} (m : M A) (Q Q' : A → AI → Prop) a :
  wp m Q a → (∀ x a', Q x a' → Q' x a') → wp m Q' a.
Proof.
  unfold wp. intros [Htr HQ] Himp. split; [done|].
  destruct (m a).1.1; auto.
Qed.

Lemma wp_when b m Q a :
  (b = true → wp m Q a) → (b = false → Q tt a) → wp (when b m) Q a.
Proof. destruct b; simpl; intros H1 H2; [auto | apply wp_ret; auto]. Qed.

Lemma wp_remove x s Q a :
  (x ∈ s → Q (s ∖ {[x]}) a) → (x ∉ s → R a) → wp (remove x s) Q a.
Proof.
  intros H1 H2. unfold remove. case_bool_decide.
  - apply wp_ret; auto.
  - apply wp_raise; auto.
Qed.

(** A loop over a snapshot preserves what each round preserves. *)
Lemma wp_foreach {A} (Inv : AI → Prop) (l : list A) body a :
  Inv a →
  (∀ x a', x ∈ l → Inv a' → wp (body x) (fun _ => Inv) a') →
  wp (foreach l body) (fun _ => Inv) a.
Proof.
  revert a. induction l as [|x l IH]; intros a Ha Hbody; simpl.
  - by apply wp_ret.
  - apply wp_bind. eapply wp_conseq.
    + apply Hbody; [left | done].
    + intros u a' Ha'. apply IH; [done|].
      intros y a'' Hy. apply Hbody. by right.
Qed.

End WP.

Lemma wp_mono {A} (E E' : Event → Prop) (R R' : AI → Prop) (m : M A)
    (Q Q' : A → AI → Prop) a :
  wp E R m Q a →
  (∀ ev, E ev → E' ev) → (∀ a', R a' → R' a') → (∀ x a', Q x a' → Q' x a') →
  wp E' R' m Q' a.
Proof.
  unfold wp. intros [Htr HQ] HE HR HQ'. split.
  - eapply Forall_impl; eauto.
  - destruct (m a).1.1; auto.
Qed.

(** *** The in-place update loop *)

Definition with_knowledge (K : list Sentence.t) (a : AI) : AI :=
  set_knowledge (fun _ => K) a.

Lemma run_bind_modify {B} f (k : unit → M B) a :
  bind (modify f) k a =
  let '(r, a2, tr2) := k tt (f a) in (r, a2, Mut a (f a) :: tr2).
Proof. reflexivity. Qed.

Lemma update_loop_run (f : Sentence.t → Sentence.t) a done todo :
  knowledge a = done ++ todo →
  ∃ tr,
    foreach (seq (length done) (length todo))
            (fun i => modify (set_knowledge (alter f i))) a
    = (Ok tt, with_knowledge (done ++ (f <$> todo)) a, tr) ∧
    ∀ ev, ev ∈ tr →
      ∃ l1 x l2, todo = l1 ++ x :: l2 ∧
        ev = Mut (with_knowledge (done ++ (f <$> l1) ++ x :: l2) a)
                 (with_knowledge (done ++ (f <$> l1) ++ f x :: l2) a).
Proof.
  revert a done. induction todo as [|x todo IH]; intros a done HK.
  - exists []. split.
    + rewrite app_nil_r in HK. simpl. rewrite app_nil_r.
      unfold ret, with_knowledge, set_knowledge. destruct a; simpl in *. by subst.
    + intros ev Hev. by apply elem_of_nil in Hev.
  - simpl.
    set (a1 := set_knowledge (alter f (length done)) a).
    assert (HK1 : knowledge a1 = (done ++ [f x]) ++ todo).
    { subst a1; simpl. rewrite HK.
      replace (length done) with (length done + 0)%nat by lia.
      rewrite alter_app_r. simpl. by rewrite <- app_assoc. }
    destruct (IH a1 (done ++ [f x]) HK1) as (tr & Hrun & Htr).
    rewrite length_app in Hrun; simpl in Hrun.
    replace (length done + 1)%nat with (S (length done)) in Hrun by lia.
    exists (Mut a a1 :: tr). split.
    + rewrite run_bind_modify. fold a1. rewrite Hrun.
      f_equal. f_equal. unfold with_knowledge, set_knowledge; simpl.
      by rewrite <- app_assoc.
    + intros ev [->|Hev]%elem_of_cons.
      * exists [], x, todo. split; [done|]. simpl. f_equal.
        -- destruct a; unfold with_knowledge, set_knowledge; simpl in *. by subst.
        -- subst a1. unfold with_knowledge, set_knowledge; simpl. rewrite HK.
           replace (length done) with (length done + 0)%nat by lia.
           by rewrite alter_app_r.
      * destruct (Htr ev Hev) as (l1 & y & l2 & -> & ->).
        exists (x :: l1), y, l2. split; [done|].
        unfold with_knowledge, set_knowledge; simpl.
        by rewrite <- !app_assoc.
Qed.

Lemma wp_update_all E R f Q a :
  (∀ l1 x l2, knowledge a = l1 ++ x :: l2 →
     E (Mut (with_knowledge ((f <$> l1) ++ x :: l2) a)
            (with_knowledge ((f <$> l1) ++ f x :: l2) a))) →
  Q tt (with_knowledge (f <$> knowledge a) a) →
  wp E R (MinesweeperAI.update_all f) Q a.
Proof.
  intros HE HQ.
  destruct (update_loop_run f a [] (knowledge a) eq_refl) as (tr & Hrun & Htr).
  unfold wp, MinesweeperAI.update_all, bind, get; simpl in *.
  rewrite Hrun; simpl. split; [|done].
  apply Forall_forall. intros ev Hev.
  destruct (Htr ev Hev) as (l1 & x & l2 & HK & ->). by apply HE.
Qed.

(** *** The two marking methods of the engine *)

Definition marked_safe (c : Cell) (a : AI) : AI :=
  with_knowledge (Sentence.mark_safe c <$> knowledge a) (set_safes (add c) a).

Definition marked_mine (c : Cell) (a : AI) : AI :=
  with_knowledge (Sentence.mark_mine c <$> knowledge a) (set_mines (add c) a).

(** The events of an in-place update of all sentences by [f], from [a]. *)
Definition update_events (E : Event → Prop) f (a : AI) : Prop :=
  ∀ l1 x l2, knowledge a = l1 ++ x :: l2 →
    E (Mut (with_knowledge ((f <$> l1) ++ x :: l2) a)
           (with_knowledge ((f <$> l1) ++ f x :: l2) a)).

Lemma wp_mark_safe E R c Q a :
  E (Mut a (set_safes (add c) a)) →
  update_events E (Sentence.mark_safe c) (set_safes (add c) a) →
  Q tt (marked_safe c a) →
  wp E R (MinesweeperAI.mark_safe c) Q a.
Proof.
  intros HE Hupd HQ. unfold MinesweeperAI.mark_safe.
  apply wp_bind, wp_modify; [done|]. by apply wp_update_all.
Qed.

Lemma wp_mark_mine E R c Q a :
  E (Mut a (set_mines (add c) a)) →
  update_events E (Sentence.mark_mine c) (set_mines (add c) a) →
  Q tt (marked_mine c a) →
  wp E R (MinesweeperAI.mark_mine c) Q a.
Proof.
  intros HE Hupd HQ. unfold MinesweeperAI.mark_mine.
  apply wp_bind, wp_modify; [done|]. by apply wp_update_all.
Qed.

(** ** Engine invariants, generically

    An engine invariant [I] comes with a notion [V] of acceptable sentence
    objects and with the cells [Cs], [Cm] that may be marked safe or mine.
    Whatever is preserved by the elementary steps, under the conditions in
    which the engine takes them, is preserved by [add_knowledge]; every
    logged event then satisfies [E]. *)

Section Invariant.

Context (order : Cells → list Cell).
Context (E : Event → Prop) (I : AI → Prop) (V : Sentence.t → Prop)
        (Cs Cm : Cell → Prop).

Hypothesis Hsafe_ev : ∀ a c, I a → Cs c →
  E (Mut a (set_safes (add c) a)) ∧
  update_events E (Sentence.mark_safe c) (set_safes (add c) a).
Hypothesis Hsafe : ∀ a c, I a → Cs c → I (marked_safe c a).
Hypothesis Hmine_ev : ∀ a c, I a → Cm c →
  E (Mut a (set_mines (add c) a)) ∧
  update_events E (Sentence.mark_mine c) (set_mines (add c) a).
Hypothesis Hmine : ∀ a c, I a → Cm c → I (marked_mine c a).
Hypothesis Hsafe_again : ∀ a c, I a → Cs c →
  E (Mut a (set_safes (add c) a)) ∧ I (set_safes (add c) a).
Hypothesis Hmine_again : ∀ a c, I a → Cm c →
  E (Mut a (set_mines (add c) a)) ∧ I (set_mines (add c) a).
Hypothesis Happend : ∀ a s, I a → V s → contains (knowledge a) s = false →
  E (Mut a (set_knowledge (append s) a)) ∧ I (set_knowledge (append s) a).
Hypothesis Hnew : ∀ s, V s → E (New s).
Hypothesis Hknown_safe : ∀ s c,
  V s → c ∈ order (Sentence.known_safes s).1 → Cs c.
Hypothesis Hknown_mine : ∀ s c,
  V s → c ∈ order (Sentence.known_mines s).1 → Cm c.
Hypothesis Hreduced_safe : ∀ s c,
  V s → c ∈ order (Sentence.known_safes s).1 → c ∈ Sentence.cells s →
  V (Sentence.mk (Sentence.cells s ∖ {[c]}) (Sentence.count s)).
Hypothesis Hreduced_mine : ∀ s c,
  V s → c ∈ order (Sentence.known_mines s).1 → c ∈ Sentence.cells s →
  V (Sentence.mk (Sentence.cells s ∖ {[c]}) (Sentence.count s - 1)).
Hypothesis Hderived : ∀ a i j snt snt2,
  I a → knowledge a !! i = Some snt → knowledge a !! j = Some snt2 →
  Sentence.cells snt ⊂ Sentence.cells snt2 →
  V (Sentence.mk (Sentence.cells snt2 ∖ Sentence.cells snt)
                 (Sentence.count snt2 - Sentence.count snt)).

Lemma wp_append_new s a :
  I a → V s →
  wp E I (self ← get;
          when (negb (contains (knowledge self) s))
               (modify (set_knowledge (append s))))
     (fun _ => I) a.
Proof.
  intros Ha Hs. apply wp_bind, wp_get. apply wp_when; [|done].
  intros Hc%negb_true_iff. destruct (Happend a s Ha Hs Hc). by apply wp_modify.
Qed.

Lemma add_safes_inv s a :
  I a → V s → wp E I (MinesweeperAI.add_safes order s) (fun _ => I) a.
Proof.
  intros Ha Hs. unfold MinesweeperAI.add_safes.
  apply wp_foreach; [done|]. clear a Ha. intros c a Hc Ha.
  pose proof (Hknown_safe s c Hs Hc) as Hcs.
  destruct (Hsafe_ev a c Ha Hcs) as [He1 He2].
  apply wp_bind, wp_mark_safe; [done..|].
  pose proof (Hsafe a c Ha Hcs) as Ha1.
  destruct (Hsafe_again _ c Ha1 Hcs) as [He3 Ha2].
  apply wp_bind, wp_modify; [done|].
  apply wp_when; [intros _|done].
  apply wp_bind, wp_remove; [intros Hin|done].
  pose proof (Hreduced_safe s c Hs Hc Hin) as Hred.
  apply wp_bind, wp_construct; [by apply Hnew|].
  by apply wp_append_new.
Qed.

Lemma add_mines_inv s a :
  I a → V s → wp E I (MinesweeperAI.add_mines order s) (fun _ => I) a.
Proof.
  intros Ha Hs. unfold MinesweeperAI.add_mines.
  apply wp_foreach; [done|]. clear a Ha. intros c a Hc Ha.
  pose proof (Hknown_mine s c Hs Hc) as Hcm.
  destruct (Hmine_ev a c Ha Hcm) as [He1 He2].
  apply wp_bind, wp_mark_mine; [done..|].
  pose proof (Hmine a c Ha Hcm) as Ha1.
  destruct (Hmine_again _ c Ha1 Hcm) as [He3 Ha2].
  apply wp_bind, wp_modify; [done|].
  apply wp_when; [intros _|done].
  apply wp_bind, wp_remove; [intros Hin|done].
  pose proof (Hreduced_mine s c Hs Hc Hin) as Hred.
  apply wp_bind, wp_construct; [by apply Hnew|].
  by apply wp_append_new.
Qed.

Lemma resolve_and_register_inv s (k : M unit) a :
  I a → V s →
  (∀ a', I a' → wp E I k (fun _ => I) a') →
  wp E I (MinesweeperAI.add_safes order s;;
          MinesweeperAI.add_mines order s;; k) (fun _ => I) a.
Proof.
  intros Ha Hs Hk.
  apply wp_bind. eapply wp_conseq; [by apply add_safes_inv|].
  intros _u a1 Ha1. apply wp_bind.
  eapply wp_conseq; [by apply add_mines_inv|].
  intros _v a2 Ha2. by apply Hk.
Qed.

Lemma derive_inv snt snt2 a :
  I a →
  (Sentence.cells snt ⊂ Sentence.cells snt2 →
   V (Sentence.mk (Sentence.cells snt2 ∖ Sentence.cells snt)
                  (Sentence.count snt2 - Sentence.count snt))) →
  wp E I (MinesweeperAI.derive order snt snt2) (fun _ => I) a.
Proof.
  intros Ha Hv. unfold MinesweeperAI.derive.
  apply wp_when; [|done].
  intros [_ Hsub%bool_decide_eq_true]%andb_true_iff.
  specialize (Hv Hsub).
  apply wp_bind, wp_construct; [by apply Hnew|].
  apply resolve_and_register_inv; [done..|].
  intros a' Ha'. apply wp_bind, wp_get. apply wp_when; [|done].
  intros [_ Hc%negb_true_iff]%andb_true_iff.
  destruct (Happend a' _ Ha' Hv Hc). by apply wp_modify.
Qed.

Lemma inner_loop_inv fuel i j a :
  I a → wp E I (MinesweeperAI.inner_loop order fuel i j) (fun _ => I) a.
Proof.
  revert j a. induction fuel as [|fuel IH]; intros j a Ha; simpl.
  - by apply wp_out_of_fuel.
  - apply wp_bind, wp_get.
    destruct (knowledge a !! j) as [snt2|] eqn:Hj; [|by apply wp_ret].
    destruct (knowledge a !! i) as [snt|] eqn:Hi; [|by apply wp_ret].
    apply wp_bind. eapply wp_conseq.
    + apply derive_inv; [done|]. intros Hsub. by eapply Hderived.
    + intros _u a' Ha'. by apply IH.
Qed.

Lemma outer_loop_inv fuel i a :
  I a → wp E I (MinesweeperAI.outer_loop order fuel i) (fun _ => I) a.
Proof.
  revert i a. induction fuel as [|fuel IH]; intros i a Ha; simpl.
  - by apply wp_out_of_fuel.
  - apply wp_bind, wp_get.
    destruct (knowledge a !! i) as [snt|]; [|by apply wp_ret].
    apply wp_bind. eapply wp_conseq; [by apply inner_loop_inv|].
    intros _u a' Ha'. by apply IH.
Qed.

Lemma add_clue_inv cell n a :
  E (Mut a (set_moves_made (add cell) a)) →
  I (set_moves_made (add cell) a) → Cs cell →
  (cell ∈ MinesweeperAI.neighbourhood (height a) (width a) cell →
   V (Sentence.mk
        (MinesweeperAI.neighbourhood (height a) (width a) cell ∖ {[cell]}) n)) →
  wp E I (MinesweeperAI.add_clue order cell n) (fun _ => I) a.
Proof.
  intros He0 Ha0 Hcell Hsent. unfold MinesweeperAI.add_clue.
  apply wp_bind, wp_modify; [done|].
  destruct (Hsafe_ev _ cell Ha0 Hcell) as [He1 He2].
  apply wp_bind, wp_mark_safe; [done..|].
  pose proof (Hsafe _ cell Ha0 Hcell) as Ha1.
  unfold MinesweeperAI.find_neighbours.
  apply wp_bind, wp_bind, wp_get. simpl.
  apply wp_bind, wp_ret.
  apply wp_remove; [intros Hin|done].
  specialize (Hsent Hin).
  apply wp_bind, wp_construct; [by apply Hnew|].
  apply resolve_and_register_inv; [done..|].
  intros a' Ha'. by apply wp_append_new.
Qed.

Lemma add_knowledge_inv fuel cell n a :
  E (Mut a (set_moves_made (add cell) a)) →
  I (set_moves_made (add cell) a) → Cs cell →
  (cell ∈ MinesweeperAI.neighbourhood (height a) (width a) cell →
   V (Sentence.mk
        (MinesweeperAI.neighbourhood (height a) (width a) cell ∖ {[cell]}) n)) →
  wp E I (MinesweeperAI.add_knowledge order fuel cell n) (fun _ => I) a.
Proof.
  intros He0 Ha0 Hcell Hsent. unfold MinesweeperAI.add_knowledge.
  apply wp_bind. eapply wp_conseq; [by apply add_clue_inv|].
  intros _u a' Ha'. by apply outer_loop_inv.
Qed.

End Invariant.

(** ** Truthful knowledge

    A mine layout is the set [L] of the cells that hold a mine. *)

Definition order_ok (order : Cells → list Cell) : Prop :=
  ∀ X, order X ≡ₚ elements X.

Lemma order_ok_elem order X c : order_ok order → c ∈ order X → c ∈ X.
Proof. intros Ho Hc. rewrite (Ho X) in Hc. by apply elem_of_elements in Hc. Qed.

Lemma order_ok_singleton order c : order_ok order → order {[c]} = [c].
Proof.
  intros Ho. apply Permutation_singleton_r.
  rewrite (Ho {[c]}). by rewrite elements_singleton.
Qed.

Definition mines_in (L X : Cells) : Z := Z.of_nat (size (X ∩ L)).

Definition truthful_sentence (L : Cells) (s : Sentence.t) : Prop :=
  Sentence.count s = mines_in L (Sentence.cells s).

(** The count lies between 0 and the number of cells. *)
Definition well_counted (s : Sentence.t) : Prop :=
  0 ≤ Sentence.count s ≤ Sentence.len s.

Record Sound (L : Cells) (a : AI) : Prop := mkSound {
  sound_safes : safes a ## L;
  sound_mines : mines a ⊆ L;
  sound_knowledge : Forall (truthful_sentence L) (knowledge a)
}.

Lemma truthful_well_counted L s : truthful_sentence L s → well_counted s.
Proof.
  unfold truthful_sentence, well_counted, mines_in, Sentence.len. intros ->.
  assert (size (Sentence.cells s ∩ L) ≤ size (Sentence.cells s))%nat
    by (apply subseteq_size; set_solver).
  lia.
Qed.

Lemma Sound_disjoint L a : Sound L a → safes a ∩ mines a = ∅.
Proof. intros [Hs Hm _]. set_solver. Qed.

Lemma mines_in_remove_safe L X c : c ∉ L → mines_in L (X ∖ {[c]}) = mines_in L X.
Proof.
  intros Hc. unfold mines_in. f_equal. f_equal. set_solver.
Qed.

Lemma mines_in_remove_mine L X c :
  c ∈ L → c ∈ X → mines_in L (X ∖ {[c]}) = mines_in L X - 1.
Proof.
  intros HL HX. unfold mines_in.
  assert (Heq : X ∩ L = {[c]} ∪ (X ∖ {[c]}) ∩ L).
  { apply set_eq. intros y. destruct (decide (y = c)); set_solver. }
  rewrite Heq. rewrite (size_union {[c]} ((X ∖ {[c]}) ∩ L)) by set_solver.
  rewrite size_singleton. lia.
Qed.

Lemma mines_in_difference L X Y :
  X ⊆ Y → mines_in L (Y ∖ X) = mines_in L Y - mines_in L X.
Proof.
  intros Hsub. unfold mines_in.
  assert (Heq : Y ∩ L = (X ∩ L) ∪ (Y ∖ X) ∩ L).
  { apply set_eq. intros y. destruct (decide (y ∈ X)); set_solver. }
  rewrite Heq. rewrite (size_union (X ∩ L) ((Y ∖ X) ∩ L)) by set_solver. lia.
Qed.

Lemma mines_in_zero L X c : mines_in L X = 0 → c ∈ X → c ∉ L.
Proof.
  unfold mines_in. intros Hz HX HL.
  assert (Hsz : size (X ∩ L) = 0%nat) by lia.
  apply size_empty_inv in Hsz. set_solver.
Qed.

Lemma mines_in_all L X c :
  mines_in L X = Z.of_nat (size X) → c ∈ X → c ∈ L.
Proof.
  unfold mines_in. intros Hz HX.
  assert (Heq : X ∩ L = X).
  { apply set_subseteq_size_eq; [set_solver | lia]. }
  set_solver.
Qed.

Lemma truthful_mark_safe L c s :
  c ∉ L → truthful_sentence L s → truthful_sentence L (Sentence.mark_safe c s).
Proof.
  unfold truthful_sentence, Sentence.mark_safe. intros Hc Hs.
  case_bool_decide; simpl; [|done]. by rewrite mines_in_remove_safe.
Qed.

Lemma truthful_mark_mine L c s :
  c ∈ L → truthful_sentence L s → truthful_sentence L (Sentence.mark_mine c s).
Proof.
  unfold truthful_sentence, Sentence.mark_mine. intros Hc Hs.
  case_bool_decide; simpl; [|done]. rewrite mines_in_remove_mine by done. lia.
Qed.

Lemma known_safes_elem s c :
  c ∈ (Sentence.known_safes s).1 → Sentence.count s = 0 ∧ c ∈ Sentence.cells s.
Proof.
  unfold Sentence.known_safes.
  destruct (Z.eqb_spec (Sentence.count s) 0); simpl; [done | set_solver].
Qed.

Lemma known_mines_elem s c :
  c ∈ (Sentence.known_mines s).1 →
  Sentence.count s = Sentence.len s ∧ c ∈ Sentence.cells s.
Proof.
  unfold Sentence.known_mines.
  destruct (Z.eqb_spec (Sentence.count s) (Sentence.len s)); simpl;
    [done | set_solver].
Qed.

(** What the soundness proof asks of a logged event. *)
Definition sound_event (L : Cells) (ev : Event) : Prop :=
  match ev with
  | Mut pre post => Sound L pre ∧ Sound L post
  | New s => truthful_sentence L s
  end.

Section Soundness.

Context (order : Cells → list Cell) (Horder : order_ok order).
Context (L : Cells) (h w : Z).

(** The engine invariant: sound knowledge on a board of fixed size. *)
Definition sound_on (a : AI) : Prop :=
  Sound L a ∧ height a = h ∧ width a = w.

Lemma sound_update_events f a :
  Sound L a →
  (∀ s, truthful_sentence L s → truthful_sentence L (f s)) →
  update_events (sound_event L) f a.
Proof.
  intros [Hs Hm HK] Hf l1 x l2 Heq. rewrite Heq in HK.
  apply Forall_app in HK as [H1 H2]. apply Forall_cons in H2 as [Hx H2].
  assert (H1' : Forall (truthful_sentence L) (f <$> l1)).
  { apply Forall_fmap. eapply Forall_impl; [exact H1|]. intros s; apply Hf. }
  split; constructor; simpl; try done.
  - apply Forall_app; split; [done|]. by constructor.
  - apply Forall_app; split; [done|]. constructor; [by apply Hf | done].
Qed.

Lemma sound_update f a :
  Sound L a →
  (∀ s, truthful_sentence L s → truthful_sentence L (f s)) →
  Sound L (with_knowledge (f <$> knowledge a) a).
Proof.
  intros [Hs Hm HK] Hf. constructor; simpl; try done.
  apply Forall_fmap. eapply Forall_impl; [exact HK|]. intros s; apply Hf.
Qed.

Lemma sound_add_safe a c : Sound L a → c ∉ L → Sound L (set_safes (add c) a).
Proof. intros [Hs Hm HK] Hc. constructor; simpl; try done. unfold add. set_solver. Qed.

Lemma sound_add_mine a c : Sound L a → c ∈ L → Sound L (set_mines (add c) a).
Proof. intros [Hs Hm HK] Hc. constructor; simpl; try done. unfold add. set_solver. Qed.

Abbreviation is_safe := (fun c : Cell => c ∉ L).
Abbreviation is_mine := (fun c : Cell => c ∈ L).

Lemma sound_step_safe_ev a c :
  sound_on a → c ∉ L →
  sound_event L (Mut a (set_safes (add c) a)) ∧
  update_events (sound_event L) (Sentence.mark_safe c) (set_safes (add c) a).
Proof.
  intros [Hs [? ?]] Hc.
  pose proof (sound_add_safe a c Hs Hc) as Hs1. split; [done|].
  apply sound_update_events; [done|]. intros s; by apply truthful_mark_safe.
Qed.

Lemma sound_step_safe a c : sound_on a → c ∉ L → sound_on (marked_safe c a).
Proof.
  intros [Hs [? ?]] Hc. split; [|done].
  apply (sound_update _ (set_safes (add c) a)).
  - by apply sound_add_safe.
  - intros s; by apply truthful_mark_safe.
Qed.

Lemma sound_step_mine_ev a c :
  sound_on a → c ∈ L →
  sound_event L (Mut a (set_mines (add c) a)) ∧
  update_events (sound_event L) (Sentence.mark_mine c) (set_mines (add c) a).
Proof.
  intros [Hs [? ?]] Hc.
  pose proof (sound_add_mine a c Hs Hc) as Hs1. split; [done|].
  apply sound_update_events; [done|]. intros s; by apply truthful_mark_mine.
Qed.

Lemma sound_step_mine a c : sound_on a → c ∈ L → sound_on (marked_mine c a).
Proof.
  intros [Hs [? ?]] Hc. split; [|done].
  apply (sound_update _ (set_mines (add c) a)).
  - by apply sound_add_mine.
  - intros s; by apply truthful_mark_mine.
Qed.

Lemma sound_step_safe_again a c :
  sound_on a → c ∉ L →
  sound_event L (Mut a (set_safes (add c) a)) ∧ sound_on (set_safes (add c) a).
Proof.
  intros [Hs [? ?]] Hc. pose proof (sound_add_safe a c Hs Hc). done.
Qed.

Lemma sound_step_mine_again a c :
  sound_on a → c ∈ L →
  sound_event L (Mut a (set_mines (add c) a)) ∧ sound_on (set_mines (add c) a).
Proof.
  intros [Hs [? ?]] Hc. pose proof (sound_add_mine a c Hs Hc). done.
Qed.

Lemma sound_step_append a s :
  sound_on a → truthful_sentence L s → contains (knowledge a) s = false →
  sound_event L (Mut a (set_knowledge (append s) a)) ∧
  sound_on (set_knowledge (append s) a).
Proof.
  intros [Hs [? ?]] Hv _.
  assert (Sound L (set_knowledge (append s) a)).
  { destruct Hs as [? ? HK]. constructor; simpl; try done.
    apply Forall_app; split; [done|]. by constructor. }
  done.
Qed.

Lemma sound_known_safe s c :
  truthful_sentence L s → c ∈ order (Sentence.known_safes s).1 → c ∉ L.
Proof.
  intros Hv Hc%(order_ok_elem _ _ _ Horder).
  apply known_safes_elem in Hc as [Hz Hc].
  eapply mines_in_zero; [|done]. by rewrite <- Hv.
Qed.

Lemma sound_known_mine s c :
  truthful_sentence L s → c ∈ order (Sentence.known_mines s).1 → c ∈ L.
Proof.
  intros Hv Hc%(order_ok_elem _ _ _ Horder).
  apply known_mines_elem in Hc as [Hz Hc].
  eapply mines_in_all; [|done]. by rewrite <- Hv.
Qed.

Lemma sound_reduced_safe s c :
  truthful_sentence L s → c ∈ order (Sentence.known_safes s).1 →
  c ∈ Sentence.cells s →
  truthful_sentence L (Sentence.mk (Sentence.cells s ∖ {[c]}) (Sentence.count s)).
Proof.
  intros Hv Hc _. pose proof (sound_known_safe s c Hv Hc).
  unfold truthful_sentence in *; simpl. by rewrite mines_in_remove_safe.
Qed.

Lemma sound_reduced_mine s c :
  truthful_sentence L s → c ∈ order (Sentence.known_mines s).1 →
  c ∈ Sentence.cells s →
  truthful_sentence L
    (Sentence.mk (Sentence.cells s ∖ {[c]}) (Sentence.count s - 1)).
Proof.
  intros Hv Hc Hin. pose proof (sound_known_mine s c Hv Hc).
  unfold truthful_sentence in *; simpl.
  rewrite mines_in_remove_mine by done. lia.
Qed.

Lemma sound_derived a i j snt snt2 :
  sound_on a → knowledge a !! i = Some snt → knowledge a !! j = Some snt2 →
  Sentence.cells snt ⊂ Sentence.cells snt2 →
  truthful_sentence L
    (Sentence.mk (Sentence.cells snt2 ∖ Sentence.cells snt)
                 (Sentence.count snt2 - Sentence.count snt)).
Proof.
  intros [[_ _ HK] _] Hi Hj [Hsub _].
  rewrite Forall_lookup in HK.
  pose proof (HK _ _ Hi) as H1. pose proof (HK _ _ Hj) as H2.
  unfold truthful_sentence in *; simpl.
  rewrite mines_in_difference by done. lia.
Qed.

Ltac sound_steps :=
  first
    [ done
    | apply sound_step_safe_ev | apply sound_step_safe
    | apply sound_step_mine_ev | apply sound_step_mine
    | apply sound_step_safe_again | apply sound_step_mine_again
    | apply sound_step_append
    | apply sound_known_safe | apply sound_known_mine
    | apply sound_reduced_safe | apply sound_reduced_mine
    | apply sound_derived
    | idtac ].

Lemma sound_derive snt snt2 i j a :
  sound_on a → knowledge a !! i = Some snt → knowledge a !! j = Some snt2 →
  wp (sound_event L) sound_on (MinesweeperAI.derive order snt snt2)
     (fun _ => sound_on) a.
Proof.
  intros Ha Hi Hj.
  apply (derive_inv order (sound_event L) sound_on (truthful_sentence L)
           is_safe is_mine); sound_steps.
  intros Hsub. by eapply sound_derived.
Qed.

Lemma sound_add_clue cell n a :
  sound_on a →
  cell ∉ L →
  n = mines_in L (MinesweeperAI.neighbourhood h w cell ∖ {[cell]}) →
  wp (sound_event L) sound_on (MinesweeperAI.add_clue order cell n)
     (fun _ => sound_on) a.
Proof.
  intros Ha Hcell Hn.
  apply (add_clue_inv order (sound_event L) sound_on (truthful_sentence L)
           is_safe is_mine); sound_steps.
  - destruct Ha as [Hs [? ?]]. split; [done|]. by destruct Hs.
  - destruct Ha as [Hs [? ?]]. split; [by destruct Hs | done].
  - intros _. destruct Ha as (_ & -> & ->). by unfold truthful_sentence.
Qed.

Lemma sound_outer_loop fuel i a :
  sound_on a →
  wp (sound_event L) sound_on (MinesweeperAI.outer_loop order fuel i)
     (fun _ => sound_on) a.
Proof.
  intros Ha.
  apply (outer_loop_inv order (sound_event L) sound_on (truthful_sentence L)
           is_safe is_mine); sound_steps.
Qed.

Lemma sound_add_knowledge fuel cell n a :
  sound_on a →
  cell ∉ L →
  n = mines_in L (MinesweeperAI.neighbourhood h w cell ∖ {[cell]}) →
  wp (sound_event L) sound_on (MinesweeperAI.add_knowledge order fuel cell n)
     (fun _ => sound_on) a.
Proof.
  intros Ha Hcell Hn. unfold MinesweeperAI.add_knowledge.
  apply wp_bind. eapply wp_conseq; [by apply sound_add_clue|].
  intros _u a' Ha'. by apply sound_outer_loop.
Qed.

End Soundness.

(** ** A driver reporting clues to a fresh engine

    [report_all] makes one [add_knowledge] call per clue.  An exception
    raised by a call is caught and the driver goes on with the engine as the
    failed call left it; it stops when a call runs out of fuel. *)

Definition attempt (m : M unit) : M unit := fun a =>
  match m a with
  | (Raise _, a', tr) => (Ok tt, a', tr)
  | other => other
  end.

Definition report_all (order : Cells → list Cell) (fuel : nat)
    (clues : list (Cell * Z)) : M unit :=
  foreach clues (fun clue =>
    attempt (MinesweeperAI.add_knowledge order fuel clue.1 clue.2)).

(** The engine states an execution goes through: the start, the state
    before and after every mutation, and the end. *)
Definition states_of (ev : Event) : list AI :=
  match ev with
  | Mut pre post => [pre; post]
  | New _ => []
  end.

Definition reached {A} (m : M A) (start : AI) : list AI :=
  start :: ((m start).2 ≫= states_of) ++ [(m start).1.2].

(** The sentence objects an execution constructs. *)
Definition constructed {A} (m : M A) (start : AI) : list Sentence.t :=
  (m start).2 ≫= (fun ev => match ev with New s => [s] | Mut _ _ => [] end).

(** A clue [(cell, n)] is truthful for the layout [L] on an [h] by [w]
    board: [cell] holds no mine and [n] of its neighbours do. *)
Definition truthful_clue (L : Cells) (h w : Z) (clue : Cell * Z) : Prop :=
  (clue.1 ∉ L) ∧
  clue.2 = mines_in L (MinesweeperAI.neighbourhood h w clue.1 ∖ {[clue.1]}).

Lemma wp_attempt E (I : AI → Prop) m a :
  wp E I m (fun _ => I) a → wp E I (attempt m) (fun _ => I) a.
Proof.
  unfold wp, attempt. destruct (m a) as [[r a'] tr]; simpl.
  intros [Htr Hr]. split; destruct r; done.
Qed.

Lemma wp_reached {A} E (P : AI → Prop) (m : M A) a :
  P a → (∀ pre post, E (Mut pre post) → P pre ∧ P post) →
  wp E P m (fun _ => P) a →
  ∀ s, s ∈ reached m a → P s.
Proof.
  intros Ha HE [Htr Hend] s. unfold reached.
  rewrite elem_of_cons, elem_of_app, list_elem_of_singleton, list_elem_of_bind.
  intros [->|[(ev & Hs & Hev)| ->]]; [done| |by destruct (m a).1.1].
  rewrite Forall_forall in Htr. specialize (Htr ev Hev).
  destruct ev as [pre post|]; simpl in Hs; [|by apply elem_of_nil in Hs].
  destruct (HE _ _ Htr).
  apply elem_of_cons in Hs as [->|Hs]; [done|].
  by apply list_elem_of_singleton in Hs as ->.
Qed.

Lemma wp_constructed {A} E R (V : Sentence.t → Prop) (m : M A) Q a :
  (∀ s, E (New s) → V s) →
  wp E R m Q a →
  ∀ s, s ∈ constructed m a → V s.
Proof.
  intros HE [Htr _] s. unfold constructed. rewrite list_elem_of_bind.
  intros (ev & Hs & Hev). rewrite Forall_forall in Htr. specialize (Htr ev Hev).
  destruct ev as [|s']; [by apply elem_of_nil in Hs|].
  apply list_elem_of_singleton in Hs as ->. by apply HE.
Qed.

Lemma sound_init L h w : sound_on L h w (MinesweeperAI.__init__ h w).
Proof.
  split; [|done]. constructor; simpl; [set_solver..|constructor].
Qed.

Lemma sound_report_all order L h w fuel clues a :
  order_ok order →
  Forall (truthful_clue L h w) clues →
  sound_on L h w a →
  wp (sound_event L) (sound_on L h w) (report_all order fuel clues)
     (fun _ => sound_on L h w) a.
Proof.
  intros Ho Hclues Ha. unfold report_all.
  apply wp_foreach; [done|].
  intros [cell n] a' Hin Ha'. rewrite Forall_forall in Hclues.
  destruct (Hclues _ Hin) as [Hcell Hn]. simpl in *.
  by apply wp_attempt, sound_add_knowledge.
Qed.

(** ** The clues of the board are truthful *)

(** A well-formed game: the board has [height] rows of [width] fields,
    and [mines] is the set of the fields that are set. *)
Record board_ok (g : Minesweeper.t) : Prop := mk_board_ok {
  board_rows : Z.of_nat (length (Minesweeper.board g)) = Minesweeper.height g;
  board_cols : Forall (fun row => Z.of_nat (length row) = Minesweeper.width g)
                      (Minesweeper.board g);
  board_mines : ∀ c : Cell,
    c ∈ Minesweeper.mines g ↔
    MinesweeperAI.in_bounds (Minesweeper.height g) (Minesweeper.width g) c = true ∧
    Minesweeper.is_mine g c = Some true
}.

Lemma board_ok_is_mine g (c : Cell) :
  board_ok g →
  MinesweeperAI.in_bounds (Minesweeper.height g) (Minesweeper.width g) c = true →
  Minesweeper.is_mine g c = Some (bool_decide (c ∈ Minesweeper.mines g)).
Proof.
  intros [Hrows Hcols Hmines] Hb. destruct c as [i j].
  assert (∃ b, Minesweeper.is_mine g (i, j) = Some b) as [b Hbm].
  { unfold MinesweeperAI.in_bounds in Hb. simpl in Hb.
    unfold Minesweeper.is_mine, Minesweeper.field, Minesweeper.item.
    destruct (Z.leb_spec 0 i); [|lia]. destruct (Z.leb_spec 0 j); [|lia].
    destruct (lookup_lt_is_Some_2 (Minesweeper.board g) (Z.to_nat i)) as [row Hrow];
      [lia|].
    rewrite Hrow. simpl.
    rewrite Forall_lookup in Hcols. specialize (Hcols _ _ Hrow).
    destruct (lookup_lt_is_Some_2 row (Z.to_nat j)) as [b Hbj]; [lia|]. eauto. }
  rewrite Hbm. f_equal. specialize (Hmines (i, j)).
  destruct b; case_bool_decide; naive_solver.
Qed.

(** *** [Minesweeper.__init__] builds a well-formed board *)

Definition field_at (board : list (list bool)) (i j : nat) : option bool :=
  match board !! i with
  | Some row => row !! j
  | None => None
  end.

Lemma field_at_insert board i j row i' j' :
  board !! i = Some row → (j < length row)%nat →
  field_at (<[i := <[j := true]> row]> board) i' j' =
  if decide (i' = i ∧ j' = j) then Some true else field_at board i' j'.
Proof.
  intros Hrow Hj. unfold field_at.
  pose proof (lookup_lt_Some _ _ _ Hrow) as Hi.
  destruct (decide (i' = i)) as [->|Hne].
  - rewrite list_lookup_insert_eq, Hrow by done.
    destruct (decide (j' = j)) as [->|Hne'].
    + rewrite decide_True by done. by rewrite list_lookup_insert_eq.
    + rewrite decide_False by naive_solver. by rewrite list_lookup_insert_ne.
  - rewrite decide_False by naive_solver. by rewrite list_lookup_insert_ne.
Qed.

Lemma is_mine_in_bounds g (c : Cell) :
  MinesweeperAI.in_bounds (Minesweeper.height g) (Minesweeper.width g) c = true →
  Minesweeper.is_mine g c =
  field_at (Minesweeper.board g) (Z.to_nat c.1) (Z.to_nat c.2).
Proof.
  destruct c as [i j]. unfold MinesweeperAI.in_bounds. simpl. intros Hb.
  unfold Minesweeper.field, Minesweeper.item, field_at.
  destruct (Z.leb_spec 0 i); [|lia]. destruct (Z.leb_spec 0 j); [|lia]. done.
Qed.

Lemma place_mines_ok rng n_mines g g' :
  board_ok g →
  Minesweeper.place_mines rng n_mines g = Some g' →
  board_ok g' ∧
  Minesweeper.height g' = Minesweeper.height g ∧
  Minesweeper.width g' = Minesweeper.width g ∧
  Z.of_nat (size (Minesweeper.mines g')) = n_mines.
Proof.
  revert g. induction rng as [|[r1 r2] rng IH]; intros g Hg; simpl.
  - destruct (Z.eqb_spec (Z.of_nat (size (Minesweeper.mines g))) n_mines);
      [|done]. by intros [= <-].
  - destruct (Z.eqb_spec (Z.of_nat (size (Minesweeper.mines g))) n_mines).
    { by intros [= <-]. }
    unfold Minesweeper.randrange.
    destruct (Z.ltb_spec 0 (Minesweeper.height g)) as [Hh|]; [|done].
    destruct (Z.ltb_spec 0 (Minesweeper.width g)) as [Hw|]; [|done].
    set (i := r1 mod Minesweeper.height g). set (j := r2 mod Minesweeper.width g).
    assert (0 ≤ i < Minesweeper.height g) as Hi by (apply Z.mod_pos_bound; lia).
    assert (0 ≤ j < Minesweeper.width g) as Hj by (apply Z.mod_pos_bound; lia).
    unfold Minesweeper.item.
    destruct (Z.leb_spec 0 i); [|lia]. destruct (Z.leb_spec 0 j); [|lia].
    destruct (Minesweeper.board g !! Z.to_nat i) as [row|] eqn:Hrow; [|done].
    destruct (row !! Z.to_nat j) as [b|] eqn:Hb; [|done].
    destruct b; simpl; [by apply IH|].
    intros Hrec. apply IH in Hrec; [done|]. clear IH Hrec.
    destruct Hg as [Hrows Hcols Hmines].
    pose proof (lookup_lt_Some _ _ _ Hb) as Hjlt.
    constructor; simpl.
    + by rewrite length_insert.
    + apply Forall_insert; [done|]. rewrite length_insert.
      rewrite Forall_lookup in Hcols. by apply (Hcols _ _ Hrow).
    + intros c. unfold add. rewrite elem_of_union, elem_of_singleton, Hmines.
      destruct (MinesweeperAI.in_bounds (Minesweeper.height g) (Minesweeper.width g) c)
        eqn:Hbc.
      * rewrite !is_mine_in_bounds by done. simpl.
        rewrite (field_at_insert _ _ _ row) by done.
        unfold MinesweeperAI.in_bounds in Hbc. destruct c as [c1 c2]. simpl in *.
        case_decide as Hd.
        -- split; [done|]. intros _. left. f_equal; lia.
        -- split; [|naive_solver]. intros [[= -> ->]|[_ ?]]; [|done].
           exfalso. apply Hd. done.
      * split; [|naive_solver]. intros [->|[? _]]; [|done].
        unfold MinesweeperAI.in_bounds in Hbc. simpl in Hbc. lia.
Qed.

Lemma length_range lo hi : length (range lo hi) = Z.to_nat (hi - lo).
Proof. unfold range. by rewrite length_fmap, length_seq. Qed.

(** A game built by the constructor on non-negative dimensions has a
    well-formed board of these dimensions with the number of mines asked
    for. *)
Lemma init_board_ok rng h w n_mines g :
  0 ≤ h → 0 ≤ w →
  Minesweeper.__init__ rng h w n_mines = Some g →
  board_ok g ∧ Minesweeper.height g = h ∧ Minesweeper.width g = w ∧
  Z.of_nat (size (Minesweeper.mines g)) = n_mines.
Proof.
  intros Hh Hw Hinit. unfold Minesweeper.__init__ in Hinit.
  apply place_mines_ok in Hinit; [done|]. clear Hinit.
  constructor; simpl.
  - rewrite length_fmap, length_range. lia.
  - apply Forall_fmap, Forall_forall. intros i _. simpl.
    rewrite length_fmap, length_range. lia.
  - intros c. split; [set_solver|]. intros [Hb Hm].
    rewrite is_mine_in_bounds in Hm by done. simpl in Hm.
    unfold field_at in Hm. rewrite list_lookup_fmap in Hm.
    destruct (range 0 h !! Z.to_nat c.1); simpl in Hm; [|done].
    rewrite list_lookup_fmap in Hm.
    destruct (range 0 w !! Z.to_nat c.2); simpl in Hm; done.
Qed.

(** The cells the two nested loops go through, in order. *)
Definition block (cell : Cell) : list Cell :=
  range (cell.1 - 1) (cell.1 + 2) ≫= fun i =>
  (fun j => (i, j)) <$> range (cell.2 - 1) (cell.2 + 2).

Lemma foldl_block {A} (f : A → Cell → A) (a : A) (rows cols : list Z) :
  foldl (fun acc i => foldl (fun acc j => f acc (i, j)) acc cols) a rows
  = foldl f a (rows ≫= fun i => (fun j => (i, j)) <$> cols).
Proof.
  revert a. induction rows as [|i rows IH]; intros a; simpl; [done|].
  rewrite foldl_app, <- IH. f_equal. by rewrite foldl_fmap.
Qed.

Lemma NoDup_range lo hi : NoDup (range lo hi).
Proof.
  unfold range. apply NoDup_fmap_2_strong; [|apply NoDup_seq].
  intros x y _ _. lia.
Qed.

Lemma NoDup_block cell : NoDup (block cell).
Proof.
  unfold block. apply NoDup_bind; [| |apply NoDup_range].
  - intros i1 i2 c _ _ (j1 & -> & _)%list_elem_of_fmap (j2 & [= -> _] & _)%list_elem_of_fmap.
    done.
  - intros i _. apply NoDup_fmap_2; [|apply NoDup_range]. by intros j1 j2 [= ->].
Qed.

Lemma neighbourhood_block h w (cell : Cell) :
  MinesweeperAI.neighbourhood h w cell =
  list_to_set (filter (fun c => MinesweeperAI.in_bounds h w c = true) (block cell)).
Proof.
  destruct cell as [i j]. unfold MinesweeperAI.neighbourhood, block. simpl.
  rewrite (foldl_block (fun (answer : Cells) c =>
             if MinesweeperAI.in_bounds h w c then add c answer else answer)).
  generalize (range (i - 1) (i + 2) ≫= fun i0 => (fun j0 => (i0, j0)) <$> range (j - 1) (j + 2)).
  intros l.
  assert (∀ acc : Cells,
    foldl (fun (answer : Cells) c =>
             if MinesweeperAI.in_bounds h w c then add c answer else answer) acc l
    = acc ∪ list_to_set (filter (fun c => MinesweeperAI.in_bounds h w c = true) l))
    as Hgen; [|rewrite Hgen; set_solver].
  induction l as [|c l IH]; intros acc; simpl; [set_solver|].
  rewrite IH, filter_cons. unfold add.
  destruct (MinesweeperAI.in_bounds h w c) eqn:Hb.
  - rewrite decide_True by done. set_solver.
  - rewrite decide_False by done. done.
Qed.

(** The count the board reports is the number of mines among the
    neighbours the engine computes. *)
Lemma nearby_mines_spec g (cell : Cell) :
  board_ok g →
  Minesweeper.nearby_mines g cell =
  Some (mines_in (Minesweeper.mines g)
          (MinesweeperAI.neighbourhood (Minesweeper.height g) (Minesweeper.width g) cell
           ∖ {[cell]})).
Proof.
  intros Hg. unfold Minesweeper.nearby_mines.
  set (h := Minesweeper.height g). set (w := Minesweeper.width g).
  set (step := fun (count : option Z) (c : Cell) =>
     if bool_decide (c = cell) then count
     else if MinesweeperAI.in_bounds h w c
     then match count, Minesweeper.is_mine g c with
          | Some n, Some b => Some (if b : bool then n + 1 else n)
          | _, _ => None
          end
     else count).
  set (P := fun c : Cell =>
     c ≠ cell ∧ MinesweeperAI.in_bounds h w c = true ∧ c ∈ Minesweeper.mines g).
  transitivity (foldl step (Some 0) (block cell)).
  { unfold block. rewrite <- foldl_block. done. }
  assert (Hcount : ∀ l n,
    foldl step (Some n) l = Some (n + Z.of_nat (length (filter P l)))).
  { induction l as [|c l IH]; intros n; simpl; [f_equal; lia|].
    rewrite filter_cons.
    destruct (decide (P c)) as [(Hne & Hb & Hm)|HP]; simpl.
    - assert (step (Some n) c = Some (n + 1)) as ->.
      { unfold step. rewrite bool_decide_eq_false_2, Hb by done.
        rewrite (board_ok_is_mine g c Hg Hb). by rewrite bool_decide_eq_true_2. }
      rewrite IH. f_equal. lia.
    - assert (step (Some n) c = Some n) as ->; [|apply IH].
      unfold step. case_bool_decide as Hc; [done|].
      destruct (MinesweeperAI.in_bounds h w c) eqn:Hb; [|done].
      rewrite (board_ok_is_mine g c Hg Hb).
      rewrite bool_decide_eq_false_2; [done|]. intros Hm. by apply HP. }
  rewrite Hcount. f_equal. unfold mines_in. rewrite Z.add_0_l. f_equal.
  rewrite neighbourhood_block. fold h w.
  rewrite <- (size_list_to_set (C := Cells) (filter P (block cell)))
    by apply NoDup_filter, NoDup_block.
  f_equal. apply set_eq. intros c.
  rewrite elem_of_intersection, elem_of_difference, !elem_of_list_to_set,
    !list_elem_of_filter, elem_of_singleton.
  unfold P. naive_solver.
Qed.

(** The clue the board gives for a cell of the board that holds no mine is
    truthful for the layout of the board. *)
Lemma board_clue_truthful g (cell : Cell) (n : Z) :
  board_ok g →
  MinesweeperAI.in_bounds (Minesweeper.height g) (Minesweeper.width g) cell = true →
  Minesweeper.is_mine g cell = Some false →
  Minesweeper.nearby_mines g cell = Some n →
  truthful_clue (Minesweeper.mines g) (Minesweeper.height g) (Minesweeper.width g)
                (cell, n).
Proof.
  intros Hg Hb Hm Hn. split; simpl.
  - intros [_ Hc]%(board_mines g Hg). congruence.
  - rewrite (nearby_mines_spec g cell Hg) in Hn. congruence.
Qed.

(** Soundness along a whole run of the driver. *)
Lemma report_all_reached_sound order L h w fuel clues a :
  order_ok order →
  Forall (truthful_clue L h w) clues →
  a ∈ reached (report_all order fuel clues) (MinesweeperAI.__init__ h w) →
  Sound L a.
Proof.
  intros Ho Hclues.
  apply (wp_reached (sound_event L) (Sound L)).
  - apply sound_init.
  - by intros pre post [Hpre Hpost].
  - eapply wp_mono.
    + apply (sound_report_all order L h w); [done..|apply sound_init].
    + done.
    + by intros a' [? _].
    + by intros _ a' [? _].
Qed.

Lemma report_all_constructed_truthful order L h w fuel clues s :
  order_ok order →
  Forall (truthful_clue L h w) clues →
  s ∈ constructed (report_all order fuel clues) (MinesweeperAI.__init__ h w) →
  truthful_sentence L s.
Proof.
  intros Ho Hclues.
  eapply (wp_constructed (sound_event L)); [done|].
  apply (sound_report_all order L h w); [done..|apply sound_init].
Qed.

(** C1.  Take any mine layout [L] on an [h] by [w] board and any list of
    clues that is consistent with it: every reported cell is free of a mine
    (a clue is only ever revealed for such a cell), every reported count is
    the number of mines among the neighbours of the cell, and no cell is
    reported twice.  Report the clues one after the other to a fresh engine.
    Then in every state the engine goes through, before and after each
    single mutation and whatever the fuel and the enumeration order of
    sets, no cell is both in [safes] and in [mines]. *)
Theorem safes_mines_disjoint order L h w fuel clues :
  order_ok order →
  Forall (truthful_clue L h w) clues →
  NoDup clues.*1 →
  ∀ a, a ∈ reached (report_all order fuel clues) (MinesweeperAI.__init__ h w) →
       safes a ∩ mines a = ∅.
Proof.
  intros Ho Hclues _ a Ha.
  eapply Sound_disjoint, report_all_reached_sound; eauto.
Qed.

(** C4.  Under the same truthful input, every sentence held in the
    knowledge list of every state the engine goes through (hence after
    every single mutation: a stored sentence marked, a sentence appended)
    has [0 ≤ count ≤ |cells|], and so has every sentence object the engine
    constructs (the clue sentence, the derived differences, the reduced
    sentences), stored or not. *)
Theorem counts_within_bounds order L h w fuel clues :
  order_ok order →
  Forall (truthful_clue L h w) clues →
  NoDup clues.*1 →
  (∀ a, a ∈ reached (report_all order fuel clues) (MinesweeperAI.__init__ h w) →
        Forall well_counted (knowledge a)) ∧
  (∀ s, s ∈ constructed (report_all order fuel clues) (MinesweeperAI.__init__ h w) →
        well_counted s).
Proof.
  intros Ho Hclues _. split.
  - intros a Ha.
    destruct (report_all_reached_sound order L h w fuel clues a Ho Hclues Ha)
      as [_ _ HK].
    eapply Forall_impl; [exact HK|]. apply truthful_well_counted.
  - intros s Hs. eapply truthful_well_counted.
    by eapply report_all_constructed_truthful.
Qed.

(** The same on the board of a game: the clues are those the board gives
    for cells of the board that it reports free of a mine. *)
Definition board_clue (g : Minesweeper.t) (clue : Cell * Z) : Prop :=
  MinesweeperAI.in_bounds (Minesweeper.height g) (Minesweeper.width g) clue.1 = true ∧
  Minesweeper.is_mine g clue.1 = Some false ∧
  Minesweeper.nearby_mines g clue.1 = Some clue.2.

Lemma safes_mines_disjoint_on_board order g fuel clues a :
  order_ok order → board_ok g →
  Forall (board_clue g) clues →
  a ∈ reached (report_all order fuel clues)
        (MinesweeperAI.__init__ (Minesweeper.height g) (Minesweeper.width g)) →
  safes a ∩ mines a = ∅ ∧ safes a ## Minesweeper.mines g ∧
  mines a ⊆ Minesweeper.mines g.
Proof.
  intros Ho Hg Hclues Ha.
  assert (Sound (Minesweeper.mines g) a) as Hs.
  { eapply report_all_reached_sound; [done| |done].
    eapply Forall_impl; [exact Hclues|].
    intros [cell n] (Hb & Hm & Hn). by apply board_clue_truthful. }
  split; [by eapply Sound_disjoint|]. by destruct Hs.
Qed.

(** A call for a cell that holds a mine is outside the contract of
    [add_knowledge] ("for a given safe cell"): on a 1 by 2 board with its
    mine at [(0,0)], the clues [(0,1), 1] and [(0,0), 0] carry the right
    counts, and [(0,0)] ends both in [safes] and in [mines]. *)
Example mined_cell_reported :
  let a := (report_all elements 4 [((0, 1), 1); ((0, 0), 0)]
              (MinesweeperAI.__init__ 1 2)).1.2 in
  safes a ∩ mines a = {[(0, 0)]}.
Proof. by vm_compute. Qed.

(** ** The sentence operations *)

(** C5.  [known_mines] returns exactly the cells when the count equals
    their number and the empty set otherwise; [known_safes] returns exactly
    the cells when the count is 0 and the empty set otherwise (so both are
    empty when the count is neither); both leave the sentence as it was. *)
Theorem known_mines_known_safes_spec (s : Sentence.t) :
  (Sentence.count s = Sentence.len s →
     (Sentence.known_mines s).1 = Sentence.cells s) ∧
  (Sentence.count s = 0 →
     (Sentence.known_safes s).1 = Sentence.cells s) ∧
  (Sentence.count s ≠ Sentence.len s → (Sentence.known_mines s).1 = ∅) ∧
  (Sentence.count s ≠ 0 → (Sentence.known_safes s).1 = ∅) ∧
  (Sentence.known_mines s).2 = s ∧
  (Sentence.known_safes s).2 = s.
Proof.
  unfold Sentence.known_mines, Sentence.known_safes.
  destruct (Z.eqb_spec (Sentence.count s) (Sentence.len s));
    destruct (Z.eqb_spec (Sentence.count s) 0); simpl; repeat split; congruence.
Qed.

(** C6.  On a cell that is not a member, [mark_mine] and [mark_safe] change
    neither the cells nor the count.  On a member, [mark_mine] removes it
    and lowers the count by exactly 1, and [mark_safe] removes it and keeps
    the count. *)
Theorem sentence_mark_spec (s : Sentence.t) (c : Cell) :
  (c ∉ Sentence.cells s →
     Sentence.mark_mine c s = s ∧ Sentence.mark_safe c s = s) ∧
  (c ∈ Sentence.cells s →
     Sentence.cells (Sentence.mark_mine c s) = Sentence.cells s ∖ {[c]} ∧
     c ∉ Sentence.cells (Sentence.mark_mine c s) ∧
     Sentence.count (Sentence.mark_mine c s) = Sentence.count s - 1 ∧
     Sentence.cells (Sentence.mark_safe c s) = Sentence.cells s ∖ {[c]} ∧
     c ∉ Sentence.cells (Sentence.mark_safe c s) ∧
     Sentence.count (Sentence.mark_safe c s) = Sentence.count s).
Proof.
  unfold Sentence.mark_mine, Sentence.mark_safe. split; intros Hc.
  - by rewrite bool_decide_eq_false_2.
  - rewrite bool_decide_eq_true_2 by done. simpl.
    repeat split; try done; set_solver.
Qed.

(** ** The move queries *)

Lemma safe_move_loop_spec todo a :
  match MinesweeperAI.safe_move_loop todo a with
  | (Ok (Some c), a', tr) =>
      c ∈ todo ∧ c ∉ moves_made a ∧
      a' = set_moves_made (add c) a ∧ tr = [Mut a a']
  | (Ok None, a', tr) =>
      (∀ c, c ∈ todo → c ∈ moves_made a) ∧ a' = a ∧ tr = []
  | _ => False
  end.
Proof.
  induction todo as [|cll todo IH]; simpl.
  - split; [|done]. intros c Hc. by apply elem_of_nil in Hc.
  - unfold bind at 1, get; simpl. case_bool_decide as Hin.
    + destruct (MinesweeperAI.safe_move_loop todo a) as [[[[c|]| |] a'] tr];
        simpl; try done.
      * destruct IH as (? & ? & ? & ?). repeat split; try done. by right.
      * destruct IH as (Hall & ? & ?). repeat split; try done.
        intros c [->|Hc]%elem_of_cons; auto.
    + simpl. repeat split; try done. by left.
Qed.

(** C7.  [make_safe_move] always returns.  It returns a cell exactly when
    some cell of [safes] is not in [moves_made]; the returned cell is such
    a cell, and it is added to [moves_made].  Otherwise it returns [None]
    and changes nothing.  In both cases [safes], [mines] and the knowledge
    list are as before, and at most one mutation happens. *)
Theorem make_safe_move_spec order (a : AI) :
  order_ok order →
  ∃ r a' tr,
    MinesweeperAI.make_safe_move order a = (Ok r, a', tr) ∧
    safes a' = safes a ∧ mines a' = mines a ∧ knowledge a' = knowledge a ∧
    (is_Some r ↔ ∃ c, c ∈ safes a ∧ c ∉ moves_made a) ∧
    match r with
    | Some c =>
        c ∈ safes a ∧ c ∉ moves_made a ∧
        moves_made a' = {[c]} ∪ moves_made a ∧ tr = [Mut a a']
    | None => a' = a ∧ tr = []
    end.
Proof.
  intros Ho. unfold MinesweeperAI.make_safe_move, bind, get; simpl.
  pose proof (safe_move_loop_spec (order (safes a)) a) as Hloop.
  destruct (MinesweeperAI.safe_move_loop (order (safes a)) a)
    as [[[[c|]| |] a'] tr]; try done.
  - destruct Hloop as (Hc & Hnot & -> & ->).
    assert (c ∈ safes a) by (by eapply order_ok_elem).
    exists (Some c), (set_moves_made (add c) a), [Mut a (set_moves_made (add c) a)].
    simpl. repeat split; eauto.
  - destruct Hloop as (Hall & -> & ->).
    exists None, a, []. simpl. repeat split; try done.
    intros (c & Hc & Hnot). exfalso. apply Hnot, Hall.
    rewrite (Ho (safes a)). by apply elem_of_elements.
Qed.

Lemma triple_eta {A B C} (x : A * B * C) :
  (let '(r, a2, tr2) := x in (r, a2, tr2)) = x.
Proof. by destruct x as [[? ?] ?]. Qed.

Lemma randint_run raw lo hi a :
  MinesweeperAI.randint raw lo hi a =
  if lo <=? hi then (Ok (lo + raw mod (hi - lo + 1)), a, [])
  else (Raise ValueError, a, []).
Proof. unfold MinesweeperAI.randint. by destruct (lo <=? hi). Qed.

(** C8.  Whenever [make_random_move] returns a cell, whatever the random
    draws, the cell lies on the board and is neither in [moves_made] nor in
    [mines]; the engine is left exactly as it was ([moves_made], [safes],
    [mines] and the knowledge list included) and no mutation happened on
    the way: the returned cell is not recorded. *)
Theorem make_random_move_spec rng (a : AI) (c : Cell) (a' : AI) tr :
  MinesweeperAI.make_random_move rng a = (Ok c, a', tr) →
  MinesweeperAI.in_bounds (height a) (width a) c = true ∧
  c ∉ moves_made a ∧ c ∉ mines a ∧
  a' = a ∧ tr = [].
Proof.
  induction rng as [|[r1 r2] rng IH]; simpl; [done|].
  unfold bind at 1, get; simpl.
  unfold bind at 1. rewrite randint_run.
  destruct (Z.leb_spec 0 (height a - 1)); [|done].
  unfold bind at 1. rewrite randint_run.
  destruct (Z.leb_spec 0 (width a - 1)); [|done].
  simpl. rewrite !Z.sub_0_r, !Z.add_0_l.
  replace (height a - 1 + 1) with (height a) by lia.
  replace (width a - 1 + 1) with (width a) by lia.
  rewrite !triple_eta.
  case_bool_decide as Hmoves; [done|].
  case_bool_decide as Hmines; [done|].
  unfold ret. intros [= <- <- <-]. repeat split; try done.
  unfold MinesweeperAI.in_bounds; simpl.
  pose proof (Z.mod_pos_bound r1 (height a)).
  pose proof (Z.mod_pos_bound r2 (width a)). lia.
Qed.

(** The loop does return when a draw hits an eligible cell. *)
Lemma make_random_move_returns rng1 r1 r2 rng2 (a : AI) :
  0 < height a → 0 < width a →
  (r1 mod height a, r2 mod width a) ∉ moves_made a →
  (r1 mod height a, r2 mod width a) ∉ mines a →
  ∃ c, MinesweeperAI.make_random_move (rng1 ++ (r1, r2) :: rng2) a = (Ok c, a, []).
Proof.
  intros Hh Hw Hmoves Hmines.
  induction rng1 as [|[q1 q2] rng1 IH]; simpl.
  - unfold bind at 1, get; simpl.
    unfold bind at 1. rewrite randint_run.
    destruct (Z.leb_spec 0 (height a - 1)); [|lia].
    unfold bind at 1. rewrite randint_run.
    destruct (Z.leb_spec 0 (width a - 1)); [|lia].
    simpl. rewrite !Z.sub_0_r, !Z.add_0_l.
    replace (height a - 1 + 1) with (height a) by lia.
    replace (width a - 1 + 1) with (width a) by lia.
    rewrite !triple_eta.
    rewrite !bool_decide_eq_false_2 by done. by eexists.
  - unfold bind at 1, get; simpl.
    unfold bind at 1. rewrite randint_run.
    destruct (Z.leb_spec 0 (height a - 1)); [|lia].
    unfold bind at 1. rewrite randint_run.
    destruct (Z.leb_spec 0 (width a - 1)); [|lia].
    simpl. rewrite !triple_eta. destruct IH as [c IH].
    repeat case_bool_decide; rewrite ?IH; by eexists.
Qed.

(** ** The knowledge list is append-only, every append is guarded *)

(** A stored sentence only ever loses cells. *)
Definition shrinks (s s' : Sentence.t) : Prop :=
  Sentence.cells s' ⊆ Sentence.cells s.

(** One mutation either keeps every stored sentence at its position
    (possibly shrunk in place), or appends one sentence that is equal to
    none of those stored before. *)
Definition append_only_event (ev : Event) : Prop :=
  match ev with
  | Mut pre post =>
      Forall2 shrinks (knowledge pre) (knowledge post) ∨
      ∃ s, knowledge post = knowledge pre ++ [s] ∧
           contains (knowledge pre) s = false
  | New _ => True
  end.

Lemma Forall2_shrinks_refl K : Forall2 shrinks K K.
Proof. apply Forall_Forall2_diag, Forall_forall. intros s _. by unfold shrinks. Qed.

Lemma shrinks_mark_safe c s : shrinks s (Sentence.mark_safe c s).
Proof.
  unfold shrinks, Sentence.mark_safe. case_bool_decide; simpl; set_solver.
Qed.

Lemma shrinks_mark_mine c s : shrinks s (Sentence.mark_mine c s).
Proof.
  unfold shrinks, Sentence.mark_mine. case_bool_decide; simpl; set_solver.
Qed.

Lemma append_only_update f a :
  (∀ s, shrinks s (f s)) → update_events append_only_event f a.
Proof.
  intros Hf l1 x l2 _. left. simpl.
  apply Forall2_app; [apply Forall2_shrinks_refl|].
  constructor; [apply Hf | apply Forall2_shrinks_refl].
Qed.

Section AppendOnly.

Context (order : Cells → list Cell).

Let T := fun _ : AI => True.
Let TS := fun _ : Sentence.t => True.
Let TC := fun _ : Cell => True.

Lemma append_only_add_knowledge fuel cell n a :
  wp append_only_event T (MinesweeperAI.add_knowledge order fuel cell n)
     (fun _ => T) a.
Proof.
  apply (add_knowledge_inv order append_only_event T TS TC TC);
    subst T TS TC; simpl; try done.
  - intros a0 c _ _. split; [left; apply Forall2_shrinks_refl|].
    apply append_only_update, shrinks_mark_safe.
  - intros a0 c _ _. split; [left; apply Forall2_shrinks_refl|].
    apply append_only_update, shrinks_mark_mine.
  - intros a0 c _ _. split; [left; apply Forall2_shrinks_refl|done].
  - intros a0 c _ _. split; [left; apply Forall2_shrinks_refl|done].
  - intros a0 s _ _ Hc. split; [|done]. right. by exists s.
  - left; apply Forall2_shrinks_refl.
Qed.

Lemma append_only_add_safes s a :
  wp append_only_event T (MinesweeperAI.add_safes order s) (fun _ => T) a.
Proof.
  apply (add_safes_inv order append_only_event T TS TC);
    subst T TS TC; simpl; try done.
  - intros a0 c _ _. split; [left; apply Forall2_shrinks_refl|].
    apply append_only_update, shrinks_mark_safe.
  - intros a0 c _ _. split; [left; apply Forall2_shrinks_refl|done].
  - intros a0 s0 _ _ Hc. split; [|done]. right. by exists s0.
Qed.

Lemma append_only_add_mines s a :
  wp append_only_event T (MinesweeperAI.add_mines order s) (fun _ => T) a.
Proof.
  apply (add_mines_inv order append_only_event T TS TC);
    subst T TS TC; simpl; try done.
  - intros a0 c _ _. split; [left; apply Forall2_shrinks_refl|].
    apply append_only_update, shrinks_mark_mine.
  - intros a0 c _ _. split; [left; apply Forall2_shrinks_refl|done].
  - intros a0 s0 _ _ Hc. split; [|done]. right. by exists s0.
Qed.

End AppendOnly.

Lemma make_random_move_silent rng a :
  (MinesweeperAI.make_random_move rng a).2 = [].
Proof.
  induction rng as [|[r1 r2] rng IH]; simpl; [done|].
  unfold bind at 1, get; simpl.
  unfold bind at 1. rewrite randint_run.
  destruct (0 <=? height a - 1); [|done].
  unfold bind at 1. rewrite randint_run.
  destruct (0 <=? width a - 1); [|done].
  simpl. rewrite !triple_eta. by repeat case_bool_decide.
Qed.

(** The operations of the engine.  [AddSafes] and [AddMines] are given a
    sentence object that is not stored in the knowledge list, which is how
    the engine calls them. *)
Inductive Call : Type :=
| MarkMine (cell : Cell)
| MarkSafe (cell : Cell)
| AddKnowledge (fuel : nat) (cell : Cell) (count : Z)
| MakeSafeMove
| MakeRandomMove (rng : list (Z * Z))
| AddSafes (sentence : Sentence.t)
| AddMines (sentence : Sentence.t).

Definition perform (order : Cells → list Cell) (c : Call) : M unit :=
  match c with
  | MarkMine cell => MinesweeperAI.mark_mine cell
  | MarkSafe cell => MinesweeperAI.mark_safe cell
  | AddKnowledge fuel cell count => MinesweeperAI.add_knowledge order fuel cell count
  | MakeSafeMove => MinesweeperAI.make_safe_move order;; ret tt
  | MakeRandomMove rng => MinesweeperAI.make_random_move rng;; ret tt
  | AddSafes sentence => MinesweeperAI.add_safes order sentence
  | AddMines sentence => MinesweeperAI.add_mines order sentence
  end.

(** C9.  Whatever the engine state, the operation, the fuel and the
    enumeration order, every single mutation an operation performs either
    leaves each stored sentence at its position in the knowledge list (the
    sentence itself may shrink in place), or appends exactly one sentence at
    the end; and in the second case no sentence equal to the appended one
    (same cells, same count) is in the list at that moment.  Nothing is ever
    removed from the list or moved within it. *)
Theorem knowledge_append_only order (c : Call) (a : AI) :
  Forall append_only_event (perform order c a).2.
Proof.
  destruct c as [cell|cell|fuel cell n| |rng|s|s]; simpl.
  - apply (wp_mark_mine append_only_event (fun _ => True) cell (fun _ _ => True));
      [left; apply Forall2_shrinks_refl| |done].
    apply append_only_update, shrinks_mark_mine.
  - apply (wp_mark_safe append_only_event (fun _ => True) cell (fun _ _ => True));
      [left; apply Forall2_shrinks_refl| |done].
    apply append_only_update, shrinks_mark_safe.
  - apply append_only_add_knowledge.
  - unfold MinesweeperAI.make_safe_move, bind, get; simpl.
    pose proof (safe_move_loop_spec (order (safes a)) a) as Hloop.
    destruct (MinesweeperAI.safe_move_loop (order (safes a)) a)
      as [[[[c|]| |] a'] tr]; try done; simpl.
    + destruct Hloop as (_ & _ & -> & ->). simpl.
      repeat constructor. apply Forall2_shrinks_refl.
    + destruct Hloop as (_ & _ & ->). constructor.
  - unfold bind.
    pose proof (make_random_move_silent rng a) as Hs.
    destruct (MinesweeperAI.make_random_move rng a) as [[[x| |] a'] tr];
      simpl in *; subst; constructor.
  - apply append_only_add_safes.
  - apply append_only_add_mines.
Qed.

(** ** Reporting the same clue twice *)

(** What one [add_knowledge] call does to the three sets, whatever the
    outcome of the call. *)
Definition grown_from (a0 : AI) (cell : Cell) (a : AI) : Prop :=
  safes a0 ⊆ safes a ∧ mines a0 ⊆ mines a ∧
  moves_made a = {[cell]} ∪ moves_made a0.

Lemma add_knowledge_grows order fuel cell n a :
  grown_from a cell (MinesweeperAI.add_knowledge order fuel cell n a).1.2.
Proof.
  assert (wp (fun _ => True) (grown_from a cell)
             (MinesweeperAI.add_knowledge order fuel cell n)
             (fun _ => grown_from a cell) a) as [_ Hend].
  { apply (add_knowledge_inv order (fun _ => True) (grown_from a cell)
             (fun _ => True) (fun _ => True) (fun _ => True));
      unfold grown_from, add; simpl; try done.
    all: intros a0 c (? & ? & ?) _; repeat split; try done;
      unfold add; set_solver. }
  by destruct (MinesweeperAI.add_knowledge order fuel cell n a).1.1.
Qed.

(** C3, as the code has it.  A second [add_knowledge] call with the same
    arguments, made right after the first, removes no cell from [safes] and
    none from [mines], and leaves [moves_made] as it was.  It may add cells
    to [safes] or to [mines]: the closure pass of the first call is a single
    pass and the second call runs another one. *)
Theorem second_report_only_grows order fuel1 fuel2 cell n (a : AI) :
  let a1 := (MinesweeperAI.add_knowledge order fuel1 cell n a).1.2 in
  let a2 := (MinesweeperAI.add_knowledge order fuel2 cell n a1).1.2 in
  safes a1 ⊆ safes a2 ∧ mines a1 ⊆ mines a2 ∧ moves_made a2 = moves_made a1.
Proof.
  intros a1 a2.
  destruct (add_knowledge_grows order fuel1 cell n a) as (_ & _ & Hm1).
  destruct (add_knowledge_grows order fuel2 cell n a1) as (Hs & Hm & Hm2).
  fold a1 in Hm1. fold a2 in Hs, Hm, Hm2.
  repeat split; [done..|]. rewrite Hm2, Hm1. set_solver.
Qed.

(** An enumeration order is forced on sets of at most one cell. *)
Definition small_first (order : Cells → list Cell) (X : Cells) : list Cell :=
  if decide (size X ≤ 1)%nat then elements X else order X.

Lemma order_ok_small order : order_ok order → order = small_first order.
Proof.
  intros Ho. apply functional_extensionality. intros X.
  unfold small_first. case_decide as Hsz; [|done].
  specialize (Ho X).
  assert (Hlen : (length (elements X) ≤ 1)%nat) by done.
  destruct (elements X) as [|x [|y l]]; simpl in Hlen; [| |lia].
  - by apply Permutation_nil_r.
  - by apply Permutation_singleton_r.
Qed.

(** The engine on a 1 by 3 board after the clue [(0,1), 1]. *)
Definition after_first_clue : AI :=
  mkAI 1 3 {[(0, 1)]} ∅ {[(0, 1)]} [Sentence.mk {[(0, 0); (0, 2)]} 1].

Lemma after_first_clue_reached order :
  order_ok order →
  (MinesweeperAI.add_knowledge order 4 (0, 1) 1 (MinesweeperAI.__init__ 1 3)).1
  = (Ok tt, after_first_clue).
Proof.
  intros Ho. rewrite (order_ok_small order Ho). by vm_compute.
Qed.

(** C3 fails as stated: on a 1 by 3 board whose only mine is at [(0,2)],
    after the clue [(0,1), 1], the clue [(0,0), 0] reported a first time
    leaves [mines] empty and reported a second time puts [(0,2)] in it.
    The second call marks [(0,1)] safe once more, which empties the stored
    copy of the clue sentence [{(0,1)} = 0]; the closure pass then
    subtracts the empty sentence from [{(0,2)} = 1] and resolves the
    difference.  All three clues are truthful, and no set of more than one
    cell is enumerated on the way. *)
Lemma second_report_adds_a_mine :
  let first := MinesweeperAI.add_knowledge elements 8 (0, 0) 0 after_first_clue in
  let second := MinesweeperAI.add_knowledge elements 8 (0, 0) 0 first.1.2 in
  first.1.1 = Ok tt ∧ second.1.1 = Ok tt ∧
  mines first.1.2 = ∅ ∧ mines second.1.2 = {[(0, 2)]} ∧
  mines second.1.2 ≠ mines first.1.2.
Proof.
  repeat split; by vm_compute.
Qed.

Lemma second_report_adds_a_mine_any_order order :
  order_ok order →
  let first := MinesweeperAI.add_knowledge order 8 (0, 0) 0 after_first_clue in
  let second := MinesweeperAI.add_knowledge order 8 (0, 0) 0 first.1.2 in
  first.1.1 = Ok tt ∧ second.1.1 = Ok tt ∧
  mines first.1.2 = ∅ ∧ mines second.1.2 = {[(0, 2)]}.
Proof.
  intros Ho. rewrite (order_ok_small order Ho). repeat split; by vm_compute.
Qed.

(** ** Equal sentences in the knowledge list *)

(** Two sentences stored at different positions are equal. *)
Definition has_duplicates (K : list Sentence.t) : Prop :=
  ∃ i j s1 s2, i ≠ j ∧ K !! i = Some s1 ∧ K !! j = Some s2 ∧
               Sentence.__eq__ s1 s2 = true.

(** A 1 by 5 board whose only mine is at [(0,2)], and three truthful clues. *)
Definition row_layout : Cells := {[(0, 2)]}.
Definition row_clues : list (Cell * Z) := [((0, 1), 1); ((0, 3), 1); ((0, 0), 0)].

Lemma row_clues_truthful : Forall (truthful_clue row_layout 1 5) row_clues.
Proof.
  unfold row_clues, truthful_clue.
  repeat constructor; simpl; try (by vm_compute).
  all: unfold row_layout; set_solver.
Qed.

Lemma row_clues_run order :
  order_ok order →
  (report_all order 8 row_clues (MinesweeperAI.__init__ 1 5)).1 =
  (Ok tt,
   mkAI 1 5 {[(0, 0); (0, 1); (0, 3)]} ∅ {[(0, 0); (0, 1); (0, 3); (0, 4)]}
        [Sentence.mk {[(0, 2)]} 1; Sentence.mk {[(0, 2)]} 1;
         Sentence.mk {[(0, 1)]} 0]).
Proof.
  intros Ho. rewrite (order_ok_small order Ho). by vm_compute.
Qed.

(** Before the third clue the two stored sentences are different. *)
Lemma row_clues_before order :
  order_ok order →
  (report_all order 8 (take 2 row_clues) (MinesweeperAI.__init__ 1 5)).1 =
  (Ok tt,
   mkAI 1 5 {[(0, 1); (0, 3)]} ∅ {[(0, 1); (0, 3)]}
        [Sentence.mk {[(0, 0); (0, 2)]} 1; Sentence.mk {[(0, 2); (0, 4)]} 1]).
Proof.
  intros Ho. rewrite (order_ok_small order Ho). by vm_compute.
Qed.

(** C10.  Whatever the enumeration order of sets, a fresh engine on a 1 by
    5 board that is told three truthful clues for the layout with one mine
    at [(0,2)] (a different cell each time) returns from the three calls
    with a knowledge list that holds the sentence [{(0,2)} = 1] at
    positions 0 and 1.  Every append on the way was guarded (the appended
    sentence was equal to none of those stored); by [row_clues_before] the
    two sentences were [{(0,0),(0,2)} = 1] and [{(0,2),(0,4)} = 1] after
    the second clue, and the third call made them equal by shrinking them
    in place. *)
Theorem duplicates_arise order :
  order_ok order →
  ∃ L h w fuel clues a,
    Forall (truthful_clue L h w) clues ∧ NoDup clues.*1 ∧
    (report_all order fuel clues (MinesweeperAI.__init__ h w)).1 = (Ok tt, a) ∧
    Forall append_only_event
           (report_all order fuel clues (MinesweeperAI.__init__ h w)).2 ∧
    has_duplicates (knowledge a).
Proof.
  intros Ho.
  exists row_layout, 1, 5, 8%nat, row_clues. eexists.
  split; [apply row_clues_truthful|].
  split; [simpl; repeat constructor; set_solver|].
  split; [by apply row_clues_run|].
  split.
  - assert (wp append_only_event (fun _ => True)
               (report_all order 8 row_clues) (fun _ _ => True)
               (MinesweeperAI.__init__ 1 5)) as [Htr _]; [|done].
    apply (wp_foreach append_only_event (fun _ => True) (fun _ => True)); [done|].
    intros clue a' _ _. apply wp_attempt, append_only_add_knowledge.
  - exists 0%nat, 1%nat, (Sentence.mk {[(0, 2)]} 1), (Sentence.mk {[(0, 2)]} 1).
    simpl. repeat split; done.
Qed.

Abbreviation any_event := (fun _ : Event => True).
Abbreviation any_state := (fun _ : AI => True).
Abbreviation any_sentence := (fun _ : Sentence.t => True).
Abbreviation any_cell := (fun _ : Cell => True).

Lemma update_events_any f a : update_events any_event f a.
Proof. by intros l1 x l2 _. Qed.

(** ** Subset inference

    Two stored sentences, at positions [i2] and [i1], that differ by the one
    cell [C] and carry the same count: the closure pass resolves [C]. *)

Section SubsetInference.

Context (order : Cells → list Cell) (Horder : order_ok order).
Context (C : Cell) (i1 i2 : nat).

Definition resolved (a : AI) : Prop := C ∈ safes a ∨ C ∈ mines a.

Definition linked (a : AI) : Prop :=
  ∃ X k, knowledge a !! i2 = Some (Sentence.mk X k) ∧
         knowledge a !! i1 = Some (Sentence.mk ({[C]} ∪ X) k) ∧
         C ∉ X.

Definition pending (a : AI) : Prop :=
  (i1 < length (knowledge a))%nat ∧ (i2 < length (knowledge a))%nat ∧
  (resolved a ∨ linked a).

Lemma linked_mark_safe c a : c ≠ C → linked a → linked (marked_safe c a).
Proof.
  intros Hc (X & k & H2 & H1 & HC). exists (X ∖ {[c]}), k. simpl.
  rewrite !list_lookup_fmap, H1, H2. simpl. unfold Sentence.mark_safe; simpl.
  destruct (decide (c ∈ X)) as [Hin|Hin].
  - rewrite !bool_decide_eq_true_2 by set_solver.
    repeat split; [|set_solver]. do 2 f_equal. set_solver.
  - rewrite !bool_decide_eq_false_2 by set_solver.
    replace (X ∖ {[c]}) with X by set_solver. repeat split; done.
Qed.

Lemma linked_mark_mine c a : c ≠ C → linked a → linked (marked_mine c a).
Proof.
  intros Hc (X & k & H2 & H1 & HC). simpl.
  destruct (decide (c ∈ X)) as [Hin|Hin].
  - exists (X ∖ {[c]}), (k - 1). simpl.
    rewrite !list_lookup_fmap, H1, H2. simpl. unfold Sentence.mark_mine; simpl.
    rewrite !bool_decide_eq_true_2 by set_solver.
    repeat split; [|set_solver]. do 2 f_equal. set_solver.
  - exists X, k. simpl.
    rewrite !list_lookup_fmap, H1, H2. simpl. unfold Sentence.mark_mine; simpl.
    rewrite !bool_decide_eq_false_2 by set_solver. repeat split; done.
Qed.

Lemma pending_marked_safe c a : pending a → pending (marked_safe c a).
Proof.
  intros (Hb1 & Hb2 & H). unfold pending. simpl. rewrite length_fmap.
  repeat split; [done..|].
  destruct H as [[Hs|Hm]|Hl].
  - left; left. simpl. unfold add. set_solver.
  - left; by right.
  - destruct (decide (c = C)) as [->|Hc].
    + left; left. simpl. unfold add. set_solver.
    + right. by apply linked_mark_safe.
Qed.

Lemma pending_marked_mine c a : pending a → pending (marked_mine c a).
Proof.
  intros (Hb1 & Hb2 & H). unfold pending. simpl. rewrite length_fmap.
  repeat split; [done..|].
  destruct H as [[Hs|Hm]|Hl].
  - left; by left.
  - left; right. simpl. unfold add. set_solver.
  - destruct (decide (c = C)) as [->|Hc].
    + left; right. simpl. unfold add. set_solver.
    + right. by apply linked_mark_mine.
Qed.

Lemma pending_same_knowledge a a' :
  knowledge a' = knowledge a → safes a ⊆ safes a' → mines a ⊆ mines a' →
  pending a → pending a'.
Proof.
  intros HK Hs Hm (Hb1 & Hb2 & H). unfold pending, resolved, linked in *.
  rewrite HK. repeat split; [done..|].
  destruct H as [[?|?]|?]; [left; left|left; right|by right]; set_solver.
Qed.

Lemma pending_append s a : pending a → pending (set_knowledge (append s) a).
Proof.
  intros (Hb1 & Hb2 & H). unfold pending, resolved, linked, append in *. simpl.
  rewrite length_app. repeat split; [lia..|].
  destruct H as [?|(X & k & H2 & H1 & HC)]; [by left|right].
  exists X, k. rewrite !lookup_app_l by done. done.
Qed.

(** [pending] is kept by every part of [add_knowledge]. *)
Ltac pending_steps :=
  first
    [ done
    | intros ? ? ? _; by apply pending_marked_safe
    | intros ? ? ? _; by apply pending_marked_mine
    | intros ? ? Hp _; split; [done|];
      eapply pending_same_knowledge; [| | |exact Hp]; simpl; unfold add; set_solver
    | intros ? ? ? _ _; split; [done|]; by apply pending_append ].

Lemma pending_add_clue cell n a :
  pending a →
  wp any_event pending (MinesweeperAI.add_clue order cell n) (fun _ => pending) a.
Proof.
  intros Ha.
  apply (add_clue_inv order any_event pending any_sentence any_cell any_cell);
    pending_steps.
Qed.

Lemma pending_derive snt snt2 a :
  pending a →
  wp any_event pending (MinesweeperAI.derive order snt snt2) (fun _ => pending) a.
Proof.
  intros Ha.
  apply (derive_inv order any_event pending any_sentence any_cell any_cell);
    pending_steps.
Qed.

Lemma pending_inner_loop fuel i j a :
  pending a →
  wp any_event pending (MinesweeperAI.inner_loop order fuel i j)
     (fun _ => pending) a.
Proof.
  intros Ha.
  apply (inner_loop_inv order any_event pending any_sentence any_cell any_cell);
    pending_steps.
Qed.

(** So is [resolved], which is all that is left to keep once [C] is known. *)
Ltac resolved_steps :=
  first
    [ done
    | intros ? ? Hr; intros; try (split; [done|]);
      unfold resolved, marked_safe, marked_mine, add in *; simpl;
      (destruct Hr; [left|right]); set_solver ].

Lemma resolved_add_mines s a :
  resolved a →
  wp any_event resolved (MinesweeperAI.add_mines order s) (fun _ => resolved) a.
Proof.
  intros Ha.
  apply (add_mines_inv order any_event resolved any_sentence any_cell);
    resolved_steps.
Qed.

Lemma resolved_derive snt snt2 a :
  resolved a →
  wp any_event resolved (MinesweeperAI.derive order snt snt2) (fun _ => resolved) a.
Proof.
  intros Ha.
  apply (derive_inv order any_event resolved any_sentence any_cell any_cell);
    resolved_steps.
Qed.

Lemma resolved_inner_loop fuel i j a :
  resolved a →
  wp any_event resolved (MinesweeperAI.inner_loop order fuel i j)
     (fun _ => resolved) a.
Proof.
  intros Ha.
  apply (inner_loop_inv order any_event resolved any_sentence any_cell any_cell);
    resolved_steps.
Qed.

Lemma resolved_outer_loop fuel i a :
  resolved a →
  wp any_event resolved (MinesweeperAI.outer_loop order fuel i)
     (fun _ => resolved) a.
Proof.
  intros Ha.
  apply (outer_loop_inv order any_event resolved any_sentence any_cell any_cell);
    resolved_steps.
Qed.

Lemma wp_any {A} (I : AI → Prop) (m : M A) (Q Q' : A → AI → Prop) a :
  wp any_event I m Q a → (∀ x a', Q x a' → Q' x a') →
  wp any_event any_state m Q' a.
Proof. intros H HQ. eapply wp_mono; eauto. Qed.

(** The round of the inner loop that reads the two sentences. *)
Lemma derive_at_pair snt snt2 a :
  pending a →
  knowledge a !! i2 = Some snt → knowledge a !! i1 = Some snt2 →
  wp any_event any_state (MinesweeperAI.derive order snt snt2)
     (fun _ => resolved) a.
Proof.
  intros (_ & _ & [Hres|(X & k & H2 & H1 & HC)]) Hi2 Hi1.
  { eapply wp_any; [by apply resolved_derive|done]. }
  rewrite H2 in Hi2. rewrite H1 in Hi1.
  injection Hi2 as <-. injection Hi1 as <-.
  unfold MinesweeperAI.derive, Sentence.__ne__, Sentence.__eq__. simpl.
  rewrite (bool_decide_eq_false_2 (X = {[C]} ∪ X)) by set_solver.
  rewrite (bool_decide_eq_true_2 (X ⊂ {[C]} ∪ X)) by set_solver.
  simpl.
  replace (({[C]} ∪ X) ∖ X) with ({[C]} : Cells) by set_solver.
  rewrite Z.sub_diag.
  apply wp_bind, wp_construct; [done|].
  apply wp_bind.
  unfold MinesweeperAI.add_safes, Sentence.known_safes. simpl.
  rewrite (order_ok_singleton order C Horder). simpl.
  apply wp_bind, wp_bind, wp_mark_safe; [done|apply update_events_any|].
  assert (Hr : resolved (marked_safe C a)).
  { left. simpl. unfold add. set_solver. }
  apply wp_bind, wp_modify; [done|].
  assert (Hr' : resolved (set_safes (add C) (marked_safe C a))).
  { left. simpl. unfold add. set_solver. }
  apply wp_when.
  { unfold Sentence.len. cbn [Sentence.cells]. rewrite size_singleton. done. }
  intros _. apply wp_ret, wp_bind.
  eapply wp_any; [by apply resolved_add_mines|].
  intros _u a' Ha'. simpl in Ha'.
  apply wp_bind, wp_get. by apply wp_ret.
Qed.

(** The inner loop of the outer round [i2], from a position not after [i1]. *)
Lemma inner_loop_at_pair fuel j a :
  (j ≤ i1)%nat → pending a →
  wp any_event any_state (MinesweeperAI.inner_loop order fuel i2 j)
     (fun _ => resolved) a.
Proof.
  revert j a. induction fuel as [|fuel IH]; intros j a Hj Ha; simpl.
  - by apply wp_out_of_fuel.
  - apply wp_bind, wp_get.
    destruct Ha as (Hb1 & Hb2 & Ha).
    destruct (lookup_lt_is_Some_2 (knowledge a) j) as [snt2 Hj2]; [lia|].
    destruct (lookup_lt_is_Some_2 (knowledge a) i2) as [snt Hi2]; [lia|].
    rewrite Hj2, Hi2. apply wp_bind.
    destruct (decide (j = i1)) as [->|Hne].
    + eapply wp_conseq; [by apply derive_at_pair|].
      intros _u a' Ha'. simpl in Ha'.
      eapply wp_any; [by apply resolved_inner_loop|done].
    + eapply wp_any; [by apply pending_derive|].
      intros _u a' Ha'. simpl in Ha'. apply IH; [lia|done].
Qed.

(** The outer loop, from a position not after [i2]. *)
Lemma outer_loop_to_pair fuel i a :
  (i ≤ i2)%nat → pending a →
  wp any_event any_state (MinesweeperAI.outer_loop order fuel i)
     (fun _ => resolved) a.
Proof.
  revert i a. induction fuel as [|fuel IH]; intros i a Hi Ha; simpl.
  - by apply wp_out_of_fuel.
  - apply wp_bind, wp_get.
    pose proof Ha as (Hb1 & Hb2 & _).
    destruct (lookup_lt_is_Some_2 (knowledge a) i) as [snt Hsnt]; [lia|].
    rewrite Hsnt. apply wp_bind.
    destruct (decide (i = i2)) as [->|Hne].
    + eapply wp_conseq; [apply inner_loop_at_pair; [lia|done]|].
      intros _u a' Ha'. simpl in Ha'.
      eapply wp_any; [by apply resolved_outer_loop|done].
    + eapply wp_any; [by apply pending_inner_loop|].
      intros _u a' Ha'. simpl in Ha'. apply IH; [lia|done].
Qed.

Lemma add_knowledge_resolves fuel cell n a :
  pending a →
  wp any_event any_state (MinesweeperAI.add_knowledge order fuel cell n)
     (fun _ => resolved) a.
Proof.
  intros Ha. unfold MinesweeperAI.add_knowledge, MinesweeperAI.closure_pass.
  apply wp_bind. eapply wp_any; [by apply pending_add_clue|].
  intros _u a' Ha'. simpl in Ha'. apply outer_loop_to_pair; [lia|done].
Qed.

End SubsetInference.

(** ** Termination of the closure pass on truthful knowledge *)

(** The cells that occur in the stored sentences, and the distinct cell
    sets among them. *)
Definition universe (K : list Sentence.t) : Cells := ⋃ (Sentence.cells <$> K).

Definition cell_sets (K : list Sentence.t) : gset Cells :=
  list_to_set (Sentence.cells <$> K).

(** [room u] bounds the number of sentences that can still be appended
    when [u] cells occur in the knowledge. *)
Fixpoint room (u : nat) : nat :=
  match u with
  | O => 1
  | S u' => room u' + 2 ^ S u' + S u'
  end.

(** The bound on the final length of the knowledge list. *)
Definition budget (K : list Sentence.t) : nat :=
  length K + room (size (universe K)) - size (cell_sets K).

Lemma size_set_map_inj_on (f : Cells → Cells) (X : gset Cells) :
  (∀ x y, x ∈ X → y ∈ X → f x = f y → x = y) →
  size (set_map f X : gset Cells) = size X.
Proof.
  intros Hinj. unfold set_map. rewrite size_list_to_set.
  - by rewrite length_fmap.
  - apply NoDup_fmap_2_strong; [|apply NoDup_elements].
    intros x y Hx%elem_of_elements Hy%elem_of_elements. by apply Hinj.
Qed.

(** A family of subsets of [U] has at most [2 ^ |U|] members. *)
Lemma size_subsets (U : Cells) (Ys : gset Cells) :
  (∀ Y, Y ∈ Ys → Y ⊆ U) → (size Ys ≤ 2 ^ size U)%nat.
Proof.
  revert Ys. induction U as [|x U Hx IH] using set_ind_L; intros Ys HYs.
  - rewrite size_empty. simpl.
    assert (Ys ⊆ {[∅]}) as Hsub.
    { intros Y HY. apply elem_of_singleton. specialize (HYs Y HY). set_solver. }
    apply subseteq_size in Hsub. by rewrite size_singleton in Hsub.
  - rewrite size_union, size_singleton by set_solver.
    change (2 ^ (1 + size U))%nat with (2 * 2 ^ size U)%nat.
    set (Yin := filter (λ Y, x ∈ Y) Ys).
    set (Yout := filter (λ Y, x ∉ Y) Ys).
    assert (HYeq : Ys = Yin ∪ Yout).
    { apply set_eq. intros Y. subst Yin Yout. rewrite elem_of_union, !elem_of_filter.
      destruct (decide (x ∈ Y)); naive_solver. }
    assert (Hdisj : Yin ## Yout).
    { subst Yin Yout. intros Y. rewrite !elem_of_filter. naive_solver. }
    rewrite HYeq, size_union by done.
    assert (size Yout ≤ 2 ^ size U)%nat.
    { apply IH. intros Y [HxY HY]%elem_of_filter. specialize (HYs Y HY). set_solver. }
    assert (size Yin ≤ 2 ^ size U)%nat.
    { rewrite <- (size_set_map_inj_on (λ Y, Y ∖ {[x]}) Yin).
      - apply IH. intros Y' (Y & -> & [HxY HY]%elem_of_filter)%elem_of_map.
        specialize (HYs Y HY). set_solver.
      - intros Y1 Y2 [H1 _]%elem_of_filter [H2 _]%elem_of_filter Heq.
        apply set_eq. intros y. destruct (decide (y = x)) as [->|]; [naive_solver|].
        set_solver. }
    lia.
Qed.

Lemma room_S u : room (S u) = (room u + 2 ^ S u + S u)%nat.
Proof. reflexivity. Qed.

Lemma room_ge_pow u : (2 ^ u ≤ room u)%nat.
Proof. destruct u; [simpl; lia|rewrite room_S; lia]. Qed.

Lemma room_mono u u' : (u ≤ u')%nat → (room u ≤ room u')%nat.
Proof. induction 1; [done|rewrite room_S; lia]. Qed.

Lemma elem_of_universe c K :
  c ∈ universe K ↔ ∃ s, s ∈ K ∧ c ∈ Sentence.cells s.
Proof.
  unfold universe. rewrite elem_of_union_list. split.
  - intros (X & (s & -> & Hs)%list_elem_of_fmap & Hc). eauto.
  - intros (s & Hs & Hc). exists (Sentence.cells s). split; [|done].
    apply list_elem_of_fmap. eauto.
Qed.

Lemma elem_of_cell_sets Y K :
  Y ∈ cell_sets K ↔ ∃ s, s ∈ K ∧ Sentence.cells s = Y.
Proof.
  unfold cell_sets. rewrite elem_of_list_to_set, list_elem_of_fmap. naive_solver.
Qed.

Lemma cell_sets_bound K : (size (cell_sets K) ≤ room (size (universe K)))%nat.
Proof.
  etrans; [|apply room_ge_pow]. apply size_subsets.
  intros Y (s & Hs & <-)%elem_of_cell_sets c Hc. apply elem_of_universe. eauto.
Qed.

Lemma universe_app K s : universe (K ++ [s]) = universe K ∪ Sentence.cells s.
Proof.
  apply set_eq. intros c. rewrite elem_of_union, !elem_of_universe.
  setoid_rewrite elem_of_app. setoid_rewrite list_elem_of_singleton. naive_solver.
Qed.

Lemma universe_mark_safe c K :
  universe (Sentence.mark_safe c <$> K) ⊆ universe K ∖ {[c]}.
Proof.
  intros x (s' & (s & -> & Hs)%list_elem_of_fmap & Hx)%elem_of_universe.
  assert (x ∈ Sentence.cells s ∧ x ≠ c) as [? ?].
  { revert Hx. unfold Sentence.mark_safe. case_bool_decide; simpl; set_solver. }
  apply elem_of_difference. split; [|set_solver]. apply elem_of_universe. eauto.
Qed.

Lemma universe_mark_mine c K :
  universe (Sentence.mark_mine c <$> K) ⊆ universe K ∖ {[c]}.
Proof.
  intros x (s' & (s & -> & Hs)%list_elem_of_fmap & Hx)%elem_of_universe.
  assert (x ∈ Sentence.cells s ∧ x ≠ c) as [? ?].
  { revert Hx. unfold Sentence.mark_mine. case_bool_decide; simpl; set_solver. }
  apply elem_of_difference. split; [|set_solver]. apply elem_of_universe. eauto.
Qed.

(** Appending a truthful sentence over known cells that equals no stored
    one keeps the budget. *)
Lemma budget_append L K s :
  Forall (truthful_sentence L) K → truthful_sentence L s →
  contains K s = false → Sentence.cells s ⊆ universe K →
  (budget (K ++ [s]) ≤ budget K)%nat.
Proof.
  intros HK Hs Hc Hsub. unfold budget.
  rewrite length_app, universe_app. simpl.
  replace (universe K ∪ Sentence.cells s) with (universe K) by set_solver.
  assert (Hnew : Sentence.cells s ∉ cell_sets K).
  { intros (s' & Hs' & Heq)%elem_of_cell_sets.
    assert (contains K s = true); [|congruence].
    unfold contains. apply existsb_exists. exists s'. split; [by apply list_elem_of_In|].
    rewrite Forall_forall in HK. specialize (HK s' Hs').
    unfold Sentence.__eq__, truthful_sentence in *.
    rewrite bool_decide_eq_true_2 by done. simpl. apply Z.eqb_eq. congruence. }
  assert (Heq : cell_sets (K ++ [s]) = cell_sets K ∪ {[Sentence.cells s]}).
  { unfold cell_sets. rewrite fmap_app. simpl. apply list_to_set_snoc_L. }
  rewrite Heq, size_union, size_singleton by set_solver.
  pose proof (cell_sets_bound K). lia.
Qed.

(** Losing a cell pays for as many appends as there were cells. *)
Lemma budget_shrink K K' c n :
  universe K' ⊆ universe K ∖ {[c]} → c ∈ universe K →
  (length K' ≤ length K + n)%nat → (n ≤ size (universe K))%nat →
  (budget K' ≤ budget K)%nat.
Proof.
  intros Hsub Hc Hlen Hn. unfold budget.
  assert (Hlt : (size (universe K') < size (universe K))%nat).
  { apply subset_size. set_solver. }
  destruct (size (universe K)) as [|u] eqn:Hu; [lia|].
  assert (room (size (universe K')) ≤ room u)%nat by (apply room_mono; lia).
  pose proof (cell_sets_bound K) as HD. rewrite Hu in HD.
  assert (size (cell_sets K) ≤ 2 ^ S u)%nat.
  { rewrite <- Hu. apply size_subsets.
    intros Y (s & Hs & <-)%elem_of_cell_sets x Hx. apply elem_of_universe. eauto. }
  rewrite room_S. lia.
Qed.

Abbreviation never := (fun _ : AI => False).

Lemma wp_and {A} E1 E2 R1 R2 (m : M A) (Q1 Q2 : A → AI → Prop) a :
  wp E1 R1 m Q1 a → wp E2 R2 m Q2 a →
  wp (fun ev => E1 ev ∧ E2 ev) (fun a' => R1 a' ∧ R2 a') m
     (fun x a' => Q1 x a' ∧ Q2 x a') a.
Proof.
  unfold wp. intros [Htr1 H1] [Htr2 H2]. split.
  - apply Forall_and. done.
  - destruct (m a).1.1; done.
Qed.

Lemma wp_returns {A} E (m : M A) Q a :
  wp E never m Q a → ∃ x, (m a).1.1 = Ok x ∧ Q x (m a).1.2.
Proof. unfold wp. intros [_ H]. destruct (m a).1.1; [eauto|done..]. Qed.

(** A loop over a snapshot, with an invariant that counts the rounds. *)
Lemma wp_foreach_steps {A} E R (Inv : nat → AI → Prop) (l : list A) body a :
  Inv 0%nat a →
  (∀ k x a', l !! k = Some x → Inv k a' → wp E R (body x) (fun _ => Inv (S k)) a') →
  wp E R (foreach l body) (fun _ => Inv (length l)) a.
Proof.
  revert Inv a. induction l as [|x l IH]; intros Inv a Ha Hbody; simpl.
  - by apply wp_ret.
  - apply wp_bind. eapply wp_conseq.
    + by apply (Hbody 0%nat).
    + intros u a' Ha'. apply (IH (fun k => Inv (S k))); [done|].
      intros k y a'' Hy. by apply (Hbody (S k)).
Qed.

Lemma order_ok_length order X : order_ok order → length (order X) = size X.
Proof. intros Ho. by rewrite (Ho X). Qed.

Lemma order_ok_empty order : order_ok order → order ∅ = [].
Proof.
  intros Ho. apply Permutation_nil_r. by rewrite (Ho ∅), elements_empty.
Qed.

(** What the marking loop of [add_safes] or [add_mines] on [s] has done to
    the knowledge [K] after [k] rounds. *)
Definition marked_rounds (K : list Sentence.t) (s : Sentence.t) (k : nat)
    (K' : list Sentence.t) : Prop :=
  universe K' ⊆ universe K ∪ Sentence.cells s ∧
  (length K ≤ length K' ≤ length K + k)%nat ∧
  ((0 < k)%nat → ∃ c, c ∈ Sentence.cells s ∧ c ∉ universe K').

Lemma marked_rounds_start K s : marked_rounds K s 0 K.
Proof. unfold marked_rounds. repeat split; [set_solver|lia..]. Qed.

Lemma marked_rounds_step K s k K' (f : Sentence.t → Sentence.t) c :
  marked_rounds K s k K' →
  universe (f <$> K') ⊆ universe K' ∖ {[c]} →
  c ∈ Sentence.cells s →
  marked_rounds K s (S k) (f <$> K') ∧
  ∀ n, marked_rounds K s (S k)
         ((f <$> K') ++ [Sentence.mk (Sentence.cells s ∖ {[c]}) n]).
Proof.
  intros (Hu & Hlen & _) Hf Hc. split; [|intros n]; unfold marked_rounds.
  - rewrite length_fmap. repeat split; [set_solver|lia..|].
    intros _. exists c. set_solver.
  - rewrite universe_app, length_app, length_fmap. simpl.
    repeat split; [set_solver|lia..|].
    intros _. exists c. set_solver.
Qed.

Section Termination.

Context (order : Cells → list Cell) (Horder : order_ok order).

Lemma add_safes_marks s a :
  wp any_event never (MinesweeperAI.add_safes order s)
     (fun _ a' =>
        marked_rounds (knowledge a) s
          (length (order (Sentence.known_safes s).1)) (knowledge a')) a.
Proof.
  unfold MinesweeperAI.add_safes.
  apply (wp_foreach_steps any_event never
           (fun k a' => marked_rounds (knowledge a) s k (knowledge a'))).
  { apply marked_rounds_start. }
  intros k c a' Hk Hinv.
  assert (Hc : c ∈ Sentence.cells s).
  { apply list_elem_of_lookup_2 in Hk.
    apply (order_ok_elem _ _ _ Horder) in Hk. by apply known_safes_elem in Hk as [_ ?]. }
  destruct (marked_rounds_step _ _ _ _ (Sentence.mark_safe c) c Hinv
              (universe_mark_safe c _) Hc) as [Hsame Happ].
  apply wp_bind, wp_mark_safe; [done|by intros ? ? ? ?|].
  apply wp_bind, wp_modify; [done|].
  apply wp_when; [intros _|done].
  apply wp_bind, wp_remove; [intros _|done].
  apply wp_bind, wp_construct; [done|].
  apply wp_bind, wp_get. apply wp_when; [intros _|done].
  apply wp_modify; [done|]. apply Happ.
Qed.

Lemma add_mines_marks s a :
  wp any_event never (MinesweeperAI.add_mines order s)
     (fun _ a' =>
        marked_rounds (knowledge a) s
          (length (order (Sentence.known_mines s).1)) (knowledge a')) a.
Proof.
  unfold MinesweeperAI.add_mines.
  apply (wp_foreach_steps any_event never
           (fun k a' => marked_rounds (knowledge a) s k (knowledge a'))).
  { apply marked_rounds_start. }
  intros k c a' Hk Hinv.
  assert (Hc : c ∈ Sentence.cells s).
  { apply list_elem_of_lookup_2 in Hk.
    apply (order_ok_elem _ _ _ Horder) in Hk. by apply known_mines_elem in Hk as [_ ?]. }
  destruct (marked_rounds_step _ _ _ _ (Sentence.mark_mine c) c Hinv
              (universe_mark_mine c _) Hc) as [Hsame Happ].
  apply wp_bind, wp_mark_mine; [done|by intros ? ? ? ?|].
  apply wp_bind, wp_modify; [done|].
  apply wp_when; [intros _|done].
  apply wp_bind, wp_remove; [intros _|done].
  apply wp_bind, wp_construct; [done|].
  apply wp_bind, wp_get. apply wp_when; [intros _|done].
  apply wp_modify; [done|]. apply Happ.
Qed.

(** With nothing known, the two procedures do nothing. *)
Lemma wp_add_safes_idle E R s (Q : unit → AI → Prop) a :
  (Sentence.known_safes s).1 = ∅ → Q tt a →
  wp E R (MinesweeperAI.add_safes order s) Q a.
Proof.
  intros Hk HQ. unfold MinesweeperAI.add_safes.
  rewrite Hk, (order_ok_empty order Horder). by apply wp_ret.
Qed.

Lemma wp_add_mines_idle E R s (Q : unit → AI → Prop) a :
  (Sentence.known_mines s).1 = ∅ → Q tt a →
  wp E R (MinesweeperAI.add_mines order s) Q a.
Proof.
  intros Hk HQ. unfold MinesweeperAI.add_mines.
  rewrite Hk, (order_ok_empty order Horder). by apply wp_ret.
Qed.


Context (L : Cells) (h w : Z).

(** One round of the inner loop: nothing is raised, the knowledge list
    does not get shorter and the budget does not grow. *)
Definition round_ok (a a' : AI) : Prop :=
  (length (knowledge a) ≤ length (knowledge a'))%nat ∧
  (budget (knowledge a') ≤ budget (knowledge a))%nat.

Lemma round_ok_marked a s k a' :
  marked_rounds (knowledge a) s k (knowledge a') →
  Sentence.cells s ⊆ universe (knowledge a) →
  (0 < k)%nat → (k ≤ size (Sentence.cells s))%nat →
  round_ok a a'.
Proof.
  intros (Hu & Hlen & Hc) Hsub Hk Hks. split; [lia|].
  destruct (Hc Hk) as (c & Hcs & Hcu).
  apply (budget_shrink _ _ c k); [set_solver|set_solver|lia|].
  etrans; [exact Hks|]. by apply subseteq_size.
Qed.

Lemma derive_budget snt snt2 i j a :
  sound_on L h w a →
  knowledge a !! i = Some snt → knowledge a !! j = Some snt2 →
  wp any_event never (MinesweeperAI.derive order snt snt2)
     (fun _ => round_ok a) a.
Proof.
  intros Ha Hi Hj. unfold MinesweeperAI.derive.
  apply wp_when; [|intros _; split; lia].
  intros [_ Hsub%bool_decide_eq_true]%andb_true_iff.
  pose proof (sound_derived L h w a i j snt snt2 Ha Hi Hj Hsub) as Htrue.
  set (s := Sentence.mk (Sentence.cells snt2 ∖ Sentence.cells snt)
                        (Sentence.count snt2 - Sentence.count snt)) in *.
  assert (Hin : Sentence.cells s ⊆ universe (knowledge a)).
  { intros c Hc. apply elem_of_universe. exists snt2.
    split; [by eapply list_elem_of_lookup_2|]. subst s; simpl in Hc. set_solver. }
  assert (Hne : (0 < size (Sentence.cells s))%nat).
  { destruct Hsub as [H1 H2].
    assert (Sentence.cells s ≠ ∅) as Hnon.
    { subst s; simpl. intros He. apply H2. set_solver. }
    destruct (size (Sentence.cells s)) eqn:Hsz; [|lia].
    by apply size_empty_inv, leibniz_equiv in Hsz. }
  apply wp_bind, wp_construct; [done|]. fold s.
  destruct (Z.eqb_spec (Sentence.count s) 0) as [Hz|Hz].
  - (* all cells of [s] are safe *)
    apply wp_bind. eapply wp_conseq; [apply add_safes_marks|].
    intros u a1 Hm. simpl in Hm.
    assert (Hks : (Sentence.known_safes s).1 = Sentence.cells s).
    { unfold Sentence.known_safes. by rewrite Hz. }
    rewrite Hks, (order_ok_length order _ Horder) in Hm.
    apply wp_bind, wp_add_mines_idle.
    { unfold Sentence.known_mines, Sentence.len.
      destruct (Z.eqb_spec (Sentence.count s) (Z.of_nat (size (Sentence.cells s))));
        [lia|done]. }
    apply wp_bind, wp_get. rewrite Hz. simpl. apply wp_ret.
    by eapply round_ok_marked.
  - apply wp_bind, wp_add_safes_idle.
    { unfold Sentence.known_safes. by destruct (Z.eqb_spec (Sentence.count s) 0). }
    destruct (Z.eqb_spec (Sentence.count s) (Sentence.len s)) as [Hl|Hl].
    + (* all cells of [s] are mines *)
      apply wp_bind. eapply wp_conseq; [apply add_mines_marks|].
      intros u a1 Hm. simpl in Hm.
      assert (Hks : (Sentence.known_mines s).1 = Sentence.cells s).
      { unfold Sentence.known_mines. by rewrite Hl, Z.eqb_refl. }
      rewrite Hks, (order_ok_length order _ Horder) in Hm.
      apply wp_bind, wp_get.
      simpl. apply wp_ret.
      by eapply round_ok_marked.
    + apply wp_bind, wp_add_mines_idle.
      { unfold Sentence.known_mines.
        by destruct (Z.eqb_spec (Sentence.count s) (Sentence.len s)). }
      apply wp_bind, wp_get. apply wp_when; [|intros _; split; lia].
      intros [_ Hc%negb_true_iff]%andb_true_iff.
      apply wp_modify; [done|]. unfold round_ok, append. simpl.
      rewrite length_app. split; [lia|].
      destruct Ha as [[_ _ HK] _]. by eapply budget_append.
Qed.

Lemma length_le_budget K : (length K ≤ budget K)%nat.
Proof. unfold budget. pose proof (cell_sets_bound K). lia. Qed.

Definition sound_round (a a' : AI) : Prop :=
  sound_on L h w a' ∧ round_ok a a'.

Lemma round_ok_trans a a1 a2 : round_ok a a1 → round_ok a1 a2 → round_ok a a2.
Proof. unfold round_ok. lia. Qed.

Lemma derive_returns snt snt2 i j a :
  sound_on L h w a →
  knowledge a !! i = Some snt → knowledge a !! j = Some snt2 →
  wp any_event never (MinesweeperAI.derive order snt snt2)
     (fun _ => sound_round a) a.
Proof.
  intros Ha Hi Hj.
  eapply wp_mono.
  - apply wp_and; [by eapply (sound_derive order Horder L h w)|by eapply derive_budget].
  - done.
  - by intros a' [_ ?].
  - done.
Qed.

Lemma inner_loop_returns fuel i j a :
  sound_on L h w a →
  (j ≤ length (knowledge a))%nat →
  (budget (knowledge a) + 2 ≤ fuel + j)%nat →
  wp any_event never (MinesweeperAI.inner_loop order fuel i j)
     (fun _ => sound_round a) a.
Proof.
  revert j a. induction fuel as [|fuel IH]; intros j a Ha Hj Hfuel; simpl.
  - pose proof (length_le_budget (knowledge a)). lia.
  - apply wp_bind, wp_get.
    destruct (knowledge a !! j) as [snt2|] eqn:Hj2;
      [|apply wp_ret; split; [done|unfold round_ok; lia]].
    destruct (knowledge a !! i) as [snt|] eqn:Hi2;
      [|apply wp_ret; split; [done|unfold round_ok; lia]].
    pose proof (lookup_lt_Some _ _ _ Hj2) as Hlt.
    apply wp_bind. eapply wp_conseq; [by eapply derive_returns|].
    intros u a1 [Ha1 Hr1]. simpl.
    eapply wp_conseq.
    + apply IH; [done|unfold round_ok in Hr1; lia..].
    + intros u' a2 [Ha2 Hr2]. split; [done|]. by eapply round_ok_trans.
Qed.

Lemma outer_loop_returns fuel i a :
  sound_on L h w a →
  (i ≤ length (knowledge a))%nat →
  (2 * budget (knowledge a) + 3 ≤ fuel + i)%nat →
  wp any_event never (MinesweeperAI.outer_loop order fuel i)
     (fun _ => sound_round a) a.
Proof.
  revert i a. induction fuel as [|fuel IH]; intros i a Ha Hi Hfuel; simpl.
  - pose proof (length_le_budget (knowledge a)). lia.
  - apply wp_bind, wp_get.
    destruct (knowledge a !! i) as [snt|] eqn:Hsnt;
      [|apply wp_ret; split; [done|unfold round_ok; lia]].
    pose proof (lookup_lt_Some _ _ _ Hsnt) as Hlt.
    pose proof (length_le_budget (knowledge a)).
    apply wp_bind. eapply wp_conseq; [apply inner_loop_returns; [done|lia..]|].
    intros u a1 [Ha1 Hr1]. simpl.
    eapply wp_conseq.
    + apply IH; [done|unfold round_ok in Hr1; lia..].
    + intros u' a2 [Ha2 Hr2]. split; [done|]. by eapply round_ok_trans.
Qed.

End Termination.

(** *** The neighbourhood of a cell *)

Lemma elem_of_range x lo hi : x ∈ range lo hi ↔ lo ≤ x < hi.
Proof.
  unfold range. rewrite list_elem_of_fmap. setoid_rewrite elem_of_seq. split.
  - intros (k & -> & Hk). lia.
  - intros Hx. exists (Z.to_nat (x - lo)). lia.
Qed.

Lemma elem_of_row_fold (h w row : Z) (cols : list Z) (acc : Cells) (c : Cell) :
  c ∈ foldl (fun answer col =>
               if MinesweeperAI.in_bounds h w (row, col)
               then add (row, col) answer else answer) acc cols
  ↔ c ∈ acc ∨ (c.1 = row ∧ c.2 ∈ cols ∧ MinesweeperAI.in_bounds h w c = true).
Proof.
  revert acc. induction cols as [|col cols IH]; intros acc; simpl.
  - split; [by left|]. intros [?|(_ & []%elem_of_nil & _)]. done.
  - rewrite IH. setoid_rewrite elem_of_cons.
    destruct (MinesweeperAI.in_bounds h w (row, col)) eqn:Hb; unfold add.
    + rewrite elem_of_union, elem_of_singleton. destruct c as [c1 c2]; simpl.
      split; [|naive_solver].
      intros [[[= -> ->]|?]|?]; naive_solver.
    + destruct c as [c1 c2]; simpl. split; [naive_solver|].
      intros [?|(-> & [->|?] & Hc)]; [by left|congruence|naive_solver].
Qed.

Lemma elem_of_neighbourhood (h w : Z) (cell c : Cell) :
  c ∈ MinesweeperAI.neighbourhood h w cell ↔
  MinesweeperAI.in_bounds h w c = true ∧
  cell.1 - 1 ≤ c.1 ≤ cell.1 + 1 ∧ cell.2 - 1 ≤ c.2 ≤ cell.2 + 1.
Proof.
  destruct cell as [i j]. unfold MinesweeperAI.neighbourhood. simpl.
  assert (Hfold : ∀ (rows : list Z) (acc : Cells),
    c ∈ foldl (fun answer row =>
                 foldl (fun answer col =>
                          if MinesweeperAI.in_bounds h w (row, col)
                          then add (row, col) answer else answer)
                       answer (range (j - 1) (j + 2))) acc rows
    ↔ c ∈ acc ∨ (c.1 ∈ rows ∧ c.2 ∈ range (j - 1) (j + 2) ∧
                 MinesweeperAI.in_bounds h w c = true)).
  { induction rows as [|row rows IH]; intros acc; simpl.
    - split; [by left|]. intros [?|([]%elem_of_nil & _)]. done.
    - rewrite IH, elem_of_row_fold. setoid_rewrite elem_of_cons. naive_solver. }
  rewrite Hfold, !elem_of_range. set_solver by lia.
Qed.

Lemma in_bounds_neighbourhood h w cell :
  MinesweeperAI.in_bounds h w cell = true →
  cell ∈ MinesweeperAI.neighbourhood h w cell.
Proof. intros Hb. apply elem_of_neighbourhood. split; [done|lia]. Qed.

(** *** Every call on truthful knowledge returns *)

Section Returns.

Context (order : Cells → list Cell) (Horder : order_ok order).
Context (L : Cells) (h w : Z).

Lemma add_clue_no_exception cell n a :
  cell ∈ MinesweeperAI.neighbourhood (height a) (width a) cell →
  wp any_event never (MinesweeperAI.add_clue order cell n) (fun _ _ => True) a.
Proof.
  intros Hin. unfold MinesweeperAI.add_clue.
  apply wp_bind, wp_modify; [done|].
  apply wp_bind, wp_mark_safe; [done|by intros ? ? ? ?|].
  unfold MinesweeperAI.find_neighbours.
  apply wp_bind, wp_bind, wp_get. simpl.
  apply wp_bind, wp_ret. apply wp_remove; [intros _|done].
  apply wp_bind, wp_construct; [done|].
  apply wp_bind. eapply wp_conseq; [by apply add_safes_marks|]. intros u1 a1 _.
  apply wp_bind. eapply wp_conseq; [by apply add_mines_marks|]. intros u2 a2 _.
  apply wp_bind, wp_get. apply wp_when; [intros _|done]. by apply wp_modify.
Qed.

Lemma add_clue_returns cell n a :
  sound_on L h w a →
  truthful_clue L h w (cell, n) →
  MinesweeperAI.in_bounds h w cell = true →
  wp any_event never (MinesweeperAI.add_clue order cell n)
     (fun _ => sound_on L h w) a.
Proof.
  intros Ha [Hcell Hn] Hb. simpl in *.
  eapply wp_mono.
  - apply wp_and.
    + by apply (sound_add_clue order Horder L h w).
    + apply add_clue_no_exception. destruct Ha as (_ & -> & ->).
      by apply in_bounds_neighbourhood.
  - done.
  - by intros a' [_ ?].
  - by intros u a' [? _].
Qed.

(** The fuel that lets the call on [a] return: what the closure pass
    needs on the knowledge that steps 1 to 3 leave. *)
Definition enough_fuel (cell : Cell) (n : Z) (a : AI) : nat :=
  2 * budget (knowledge (MinesweeperAI.add_clue order cell n a).1.2) + 3.

Lemma add_knowledge_returns cell n a fuel :
  sound_on L h w a →
  truthful_clue L h w (cell, n) →
  MinesweeperAI.in_bounds h w cell = true →
  (enough_fuel cell n a ≤ fuel)%nat →
  wp any_event never (MinesweeperAI.add_knowledge order fuel cell n)
     (fun _ => sound_on L h w) a.
Proof.
  intros Ha Hclue Hb Hfuel. unfold MinesweeperAI.add_knowledge.
  pose proof (add_clue_returns cell n a Ha Hclue Hb) as Hclue_wp.
  unfold enough_fuel in Hfuel.
  assert (wp any_event never (MinesweeperAI.add_clue order cell n)
            (fun _ a1 => sound_on L h w a1 ∧
                         a1 = (MinesweeperAI.add_clue order cell n a).1.2) a)
    as Hwp.
  { destruct Hclue_wp as [Htr Hend]. split; [done|].
    destruct (MinesweeperAI.add_clue order cell n a).1.1; done. }
  apply wp_bind. eapply wp_conseq; [exact Hwp|].
  intros u a1 [Ha1 ->]. unfold MinesweeperAI.closure_pass.
  eapply wp_conseq.
  - apply (outer_loop_returns order Horder L h w); [done|lia|lia].
  - by intros u' a2 [? _].
Qed.

End Returns.

(** *** More fuel does not change a call that has returned *)

Section MoreFuel.

Context (order : Cells → list Cell).

Lemma inner_loop_unfold fuel i j a :
  MinesweeperAI.inner_loop order (S fuel) i j a =
  match knowledge a !! j, knowledge a !! i with
  | Some snt2, Some snt =>
      bind (MinesweeperAI.derive order snt snt2)
           (fun _ => MinesweeperAI.inner_loop order fuel i (S j)) a
  | _, _ => (Ok tt, a, [])
  end.
Proof.
  simpl. unfold bind at 1, get. simpl.
  destruct (knowledge a !! j), (knowledge a !! i); try done;
    by rewrite triple_eta.
Qed.

Lemma outer_loop_unfold fuel i a :
  MinesweeperAI.outer_loop order (S fuel) i a =
  match knowledge a !! i with
  | Some _ =>
      bind (MinesweeperAI.inner_loop order fuel i 0)
           (fun _ => MinesweeperAI.outer_loop order fuel (S i)) a
  | None => (Ok tt, a, [])
  end.
Proof.
  simpl. unfold bind at 1, get. simpl.
  destruct (knowledge a !! i); try done; by rewrite triple_eta.
Qed.

Lemma bind_more_fuel {A B} (m : M A) (k k' : A → M B) a :
  (∀ x a1, (k x a1).1.1 ≠ OutOfFuel → k' x a1 = k x a1) →
  (bind m k a).1.1 ≠ OutOfFuel →
  bind m k' a = bind m k a.
Proof.
  intros Hk Hret. unfold bind in *.
  destruct (m a) as [[[x| |] a1] tr1]; [|done..].
  rewrite Hk; [done|]. by destruct (k x a1) as [[[]] ?].
Qed.

Lemma inner_loop_more_fuel fuel fuel' i j a :
  (fuel ≤ fuel')%nat →
  (MinesweeperAI.inner_loop order fuel i j a).1.1 ≠ OutOfFuel →
  MinesweeperAI.inner_loop order fuel' i j a =
  MinesweeperAI.inner_loop order fuel i j a.
Proof.
  revert fuel' j a. induction fuel as [|fuel IH]; intros fuel' j a Hle Hret.
  - by simpl in Hret.
  - destruct fuel' as [|fuel']; [lia|].
    rewrite inner_loop_unfold in Hret. rewrite !inner_loop_unfold.
    destruct (knowledge a !! j) as [snt2|]; [|done].
    destruct (knowledge a !! i) as [snt|]; [|done].
    apply bind_more_fuel; [|done].
    intros _ a1 Hret1. apply IH; [lia|done].
Qed.

Lemma outer_loop_more_fuel fuel fuel' i a :
  (fuel ≤ fuel')%nat →
  (MinesweeperAI.outer_loop order fuel i a).1.1 ≠ OutOfFuel →
  MinesweeperAI.outer_loop order fuel' i a =
  MinesweeperAI.outer_loop order fuel i a.
Proof.
  revert fuel' i a. induction fuel as [|fuel IH]; intros fuel' i a Hle Hret.
  - by simpl in Hret.
  - destruct fuel' as [|fuel']; [lia|].
    rewrite outer_loop_unfold in Hret. rewrite !outer_loop_unfold.
    destruct (knowledge a !! i) as [snt|]; [|done].
    assert (Hinner : (MinesweeperAI.inner_loop order fuel i 0 a).1.1 ≠ OutOfFuel).
    { unfold bind in Hret.
      by destruct (MinesweeperAI.inner_loop order fuel i 0 a) as [[[]] ?]. }
    unfold bind in *.
    rewrite (inner_loop_more_fuel fuel fuel' i 0 a) by (lia || done).
    destruct (MinesweeperAI.inner_loop order fuel i 0 a) as [[[u| |] a1] tr1];
      [|done..].
    rewrite (IH fuel' (S i) a1); [done|lia|].
    by destruct (MinesweeperAI.outer_loop order fuel (S i) a1) as [[[]] ?].
Qed.

Lemma add_knowledge_more_fuel fuel fuel' cell n a :
  (fuel ≤ fuel')%nat →
  (MinesweeperAI.add_knowledge order fuel cell n a).1.1 ≠ OutOfFuel →
  MinesweeperAI.add_knowledge order fuel' cell n a =
  MinesweeperAI.add_knowledge order fuel cell n a.
Proof.
  intros Hle Hret.
  unfold MinesweeperAI.add_knowledge, MinesweeperAI.closure_pass, bind in *.
  destruct (MinesweeperAI.add_clue order cell n a) as [[[u| |] a1] tr1]; [|done..].
  rewrite (outer_loop_more_fuel fuel fuel' 0 a1); [done|lia|].
  by destruct (MinesweeperAI.outer_loop order fuel 0 a1) as [[[]] ?].
Qed.

End MoreFuel.

(** On truthful clues for cells of the board, the driver returns from all
    its calls once the fuel is large enough. *)
Lemma report_all_returns order L h w clues a :
  order_ok order →
  sound_on L h w a →
  Forall (truthful_clue L h w) clues →
  Forall (fun clue => MinesweeperAI.in_bounds h w clue.1 = true) clues →
  ∃ fuel0, ∀ fuel, (fuel0 ≤ fuel)%nat →
    (report_all order fuel clues a).1.1 = Ok tt.
Proof.
  intros Ho. revert a. induction clues as [|[cell n] clues IH];
    intros a Ha Hclues Hbounds.
  - by exists 0%nat.
  - apply Forall_cons in Hclues as [Hclue Hclues].
    apply Forall_cons in Hbounds as [Hb Hbounds]. simpl in Hb.
    set (f1 := enough_fuel order cell n a).
    destruct (wp_returns _ _ _ _
                (add_knowledge_returns order Ho L h w cell n a f1 Ha Hclue Hb
                   (Nat.le_refl _))) as ([] & Hok & Ha1).
    destruct (IH _ Ha1 Hclues Hbounds) as [f2 Hf2].
    exists (f1 `max` f2)%nat. intros fuel Hfuel.
    unfold report_all in *. simpl. unfold bind, attempt.
    rewrite (add_knowledge_more_fuel order f1 fuel) by (rewrite ?Hok; (lia || done)).
    destruct (MinesweeperAI.add_knowledge order f1 cell n a) as [[r a1] tr1].
    simpl in *. subst r.
    specialize (Hf2 fuel ltac:(lia)).
    by destruct (foreach clues _ a1) as [[r2 a2] tr2].
Qed.

(** C2.  Let the knowledge be truthful for some mine layout and hold the
    sentences [{A,B,C} = 1] and [{A,B} = 1] (with [C] different from [A]
    and [B]), and let a truthful clue be reported for a cell of the board.
    Then the call returns, given enough fuel, and when it has returned
    (so after its closure pass) [C] is in [safes]: the disjunction of the
    claim holds by its second part. *)
Theorem subset_inference order L h w (A B C : Cell) (i1 i2 : nat)
    (cell : Cell) (n : Z) (a : AI) :
  order_ok order →
  sound_on L h w a →
  truthful_clue L h w (cell, n) →
  MinesweeperAI.in_bounds h w cell = true →
  C ≠ A → C ≠ B →
  knowledge a !! i1 = Some (Sentence.mk {[A; B; C]} 1) →
  knowledge a !! i2 = Some (Sentence.mk {[A; B]} 1) →
  ∃ fuel0, ∀ fuel, (fuel0 ≤ fuel)%nat →
    ∃ a' tr,
      MinesweeperAI.add_knowledge order fuel cell n a = (Ok tt, a', tr) ∧
      (contains (knowledge a') (Sentence.mk {[C]} 0) = true ∨ C ∈ safes a').
Proof.
  intros Ho Ha Hclue Hb HCA HCB H1 H2.
  exists (enough_fuel order cell n a). intros fuel Hfuel.
  pose proof (add_knowledge_returns order Ho L h w cell n a fuel Ha Hclue Hb Hfuel)
    as [_ Hret].
  assert (Hpend : pending C i1 i2 a).
  { repeat split; [by eapply lookup_lt_Some..|]. right.
    exists {[A; B]}, 1. repeat split; [done| |set_solver].
    rewrite H1. do 2 f_equal. set_solver. }
  pose proof (add_knowledge_resolves order Ho C i1 i2 fuel cell n a Hpend)
    as [_ Hres].
  destruct (MinesweeperAI.add_knowledge order fuel cell n a) as [[r a'] tr].
  simpl in *. destruct r as [[]| |]; [|done..].
  exists a', tr. split; [done|]. right.
  assert (HC : C ∉ L).
  { destruct Ha as [[_ _ HK] _]. rewrite Forall_lookup in HK.
    pose proof (HK _ _ H1) as T1. pose proof (HK _ _ H2) as T2.
    unfold truthful_sentence in T1, T2. simpl in T1, T2.
    apply (mines_in_zero L {[C]}); [|set_solver].
    replace ({[C]} : Cells) with (({[A; B; C]} : Cells) ∖ {[A; B]}) by set_solver.
    rewrite mines_in_difference by set_solver. lia. }
  destruct Hres as [?|Hm]; [done|].
  destruct Hret as [[_ Hmines _] _]. set_solver.
Qed.

(** ** Concrete instances *)

Lemma order_ok_elements : order_ok elements.
Proof. intros X. reflexivity. Qed.

Lemma row_clues_NoDup : NoDup row_clues.*1.
Proof. simpl. repeat constructor; set_solver. Qed.

(** C1 on the 1 by 5 board with its mine at [(0,2)]. *)
Lemma safes_mines_disjoint_witness :
  order_ok elements ∧
  Forall (truthful_clue row_layout 1 5) row_clues ∧
  NoDup row_clues.*1 ∧
  ∀ a, a ∈ reached (report_all elements 8 row_clues) (MinesweeperAI.__init__ 1 5) →
       safes a ∩ mines a = ∅.
Proof.
  split; [apply order_ok_elements|].
  split; [apply row_clues_truthful|].
  split; [apply row_clues_NoDup|].
  apply (safes_mines_disjoint elements row_layout 1 5 8%nat row_clues
           order_ok_elements row_clues_truthful row_clues_NoDup).
Defined.

(** C4 on the same board. *)
Lemma counts_within_bounds_witness :
  order_ok elements ∧
  Forall (truthful_clue row_layout 1 5) row_clues ∧
  NoDup row_clues.*1 ∧
  (∀ a, a ∈ reached (report_all elements 8 row_clues) (MinesweeperAI.__init__ 1 5) →
        Forall well_counted (knowledge a)) ∧
  (∀ s, s ∈ constructed (report_all elements 8 row_clues) (MinesweeperAI.__init__ 1 5) →
        well_counted s).
Proof.
  split; [apply order_ok_elements|].
  split; [apply row_clues_truthful|].
  split; [apply row_clues_NoDup|].
  apply (counts_within_bounds elements row_layout 1 5 8%nat row_clues
           order_ok_elements row_clues_truthful row_clues_NoDup).
Defined.

(** C7 on the engine left by the three clues: [(0,4)] is the one safe cell
    that has not been played. *)
Lemma make_safe_move_spec_witness :
  order_ok elements ∧
  ∃ r a' tr,
    MinesweeperAI.make_safe_move elements
      (report_all elements 8 row_clues (MinesweeperAI.__init__ 1 5)).1.2
    = (Ok r, a', tr) ∧
    safes a' = safes (report_all elements 8 row_clues (MinesweeperAI.__init__ 1 5)).1.2 ∧
    mines a' = mines (report_all elements 8 row_clues (MinesweeperAI.__init__ 1 5)).1.2 ∧
    knowledge a' = knowledge (report_all elements 8 row_clues (MinesweeperAI.__init__ 1 5)).1.2 ∧
    (is_Some r ↔
     ∃ c, c ∈ safes (report_all elements 8 row_clues (MinesweeperAI.__init__ 1 5)).1.2 ∧
          c ∉ moves_made (report_all elements 8 row_clues (MinesweeperAI.__init__ 1 5)).1.2) ∧
    match r with
    | Some c =>
        c ∈ safes (report_all elements 8 row_clues (MinesweeperAI.__init__ 1 5)).1.2 ∧
        c ∉ moves_made (report_all elements 8 row_clues (MinesweeperAI.__init__ 1 5)).1.2 ∧
        moves_made a' =
          {[c]} ∪ moves_made (report_all elements 8 row_clues (MinesweeperAI.__init__ 1 5)).1.2 ∧
        tr = [Mut (report_all elements 8 row_clues (MinesweeperAI.__init__ 1 5)).1.2 a']
    | None =>
        a' = (report_all elements 8 row_clues (MinesweeperAI.__init__ 1 5)).1.2 ∧ tr = []
    end.
Proof.
  split; [apply order_ok_elements|].
  apply (make_safe_move_spec elements
           (report_all elements 8 row_clues (MinesweeperAI.__init__ 1 5)).1.2
           order_ok_elements).
Defined.

Example make_safe_move_example :
  (MinesweeperAI.make_safe_move elements
     (report_all elements 8 row_clues (MinesweeperAI.__init__ 1 5)).1.2).1.1
  = Ok (Some (0, 4)).
Proof. by vm_compute. Qed.

(** C8 on a fresh 2 by 2 engine with the draws 5 and 7. *)
Lemma make_random_move_spec_witness :
  MinesweeperAI.make_random_move [(5, 7)] (MinesweeperAI.__init__ 2 2)
  = (Ok (1, 1), MinesweeperAI.__init__ 2 2, []) ∧
  MinesweeperAI.in_bounds 2 2 (1, 1) = true ∧
  ((1, 1) ∉ moves_made (MinesweeperAI.__init__ 2 2)) ∧
  ((1, 1) ∉ mines (MinesweeperAI.__init__ 2 2)) ∧
  MinesweeperAI.__init__ 2 2 = MinesweeperAI.__init__ 2 2 ∧
  @nil Event = [].
Proof.
  split; [reflexivity|].
  apply (make_random_move_spec [(5, 7)] (MinesweeperAI.__init__ 2 2) (1, 1)
           (MinesweeperAI.__init__ 2 2) [] eq_refl).
Defined.

(** C10 with the enumeration order [elements]. *)
Lemma duplicates_arise_witness :
  order_ok elements ∧
  ∃ L h w fuel clues a,
    Forall (truthful_clue L h w) clues ∧ NoDup clues.*1 ∧
    (report_all elements fuel clues (MinesweeperAI.__init__ h w)).1 = (Ok tt, a) ∧
    Forall append_only_event
           (report_all elements fuel clues (MinesweeperAI.__init__ h w)).2 ∧
    has_duplicates (knowledge a).
Proof.
  split; [apply order_ok_elements|].
  apply (duplicates_arise elements order_ok_elements).
Defined.

(** C2 on a 1 by 5 board whose only mine is at [(0,0)], with [A = (0,0)],
    [B = (0,1)], [C = (0,2)] and the clue [(0,4), 0]. *)
Definition linked_engine : AI :=
  mkAI 1 5 ∅ ∅ ∅
       [Sentence.mk {[(0, 0); (0, 1); (0, 2)]} 1; Sentence.mk {[(0, 0); (0, 1)]} 1].

Lemma linked_engine_sound : sound_on {[(0, 0)]} 1 5 linked_engine.
Proof.
  split; [|done]. constructor; simpl; [set_solver..|].
  repeat constructor; by vm_compute.
Qed.

Lemma linked_clue_truthful : truthful_clue {[(0, 0)]} 1 5 ((0, 4), 0).
Proof. split; simpl; [set_solver|by vm_compute]. Qed.

Lemma subset_inference_witness :
  order_ok elements ∧
  sound_on {[(0, 0)]} 1 5 linked_engine ∧
  truthful_clue {[(0, 0)]} 1 5 ((0, 4), 0) ∧
  MinesweeperAI.in_bounds 1 5 (0, 4) = true ∧
  ((0, 2) : Cell) ≠ (0, 0) ∧ ((0, 2) : Cell) ≠ (0, 1) ∧
  knowledge linked_engine !! 0%nat =
    Some (Sentence.mk {[(0, 0); (0, 1); (0, 2)]} 1) ∧
  knowledge linked_engine !! 1%nat = Some (Sentence.mk {[(0, 0); (0, 1)]} 1) ∧
  ∃ fuel0, ∀ fuel, (fuel0 ≤ fuel)%nat →
    ∃ a' tr,
      MinesweeperAI.add_knowledge elements fuel (0, 4) 0 linked_engine
      = (Ok tt, a', tr) ∧
      (contains (knowledge a') (Sentence.mk {[(0, 2)]} 0) = true ∨
       (0, 2) ∈ safes a').
Proof.
  split; [apply order_ok_elements|].
  split; [apply linked_engine_sound|].
  split; [apply linked_clue_truthful|].
  split; [reflexivity|].
  split; [discriminate|].
  split; [discriminate|].
  split; [reflexivity|].
  split; [reflexivity|].
  apply (subset_inference elements {[(0, 0)]} 1 5 (0, 0) (0, 1) (0, 2) 0 1
           (0, 4) 0 linked_engine order_ok_elements linked_engine_sound
           linked_clue_truthful eq_refl);
    [discriminate|discriminate|reflexivity|reflexivity].
Defined.

(** The same call, run: eight units of fuel are enough, the pass derives
    [{(0,2)} = 0] from the two sentences and marks [(0,2)] safe. *)
Example subset_inference_run :
  let r := MinesweeperAI.add_knowledge elements 8 (0, 4) 0 linked_engine in
  r.1.1 = Ok tt ∧ safes r.1.2 = {[(0, 2); (0, 3); (0, 4)]} ∧ mines r.1.2 = ∅.
Proof. repeat split; by vm_compute. Qed.

(** * Further properties of the code *)

(** ** The neighbours of a cell *)

Lemma length_block cell : length (block cell) = 9%nat.
Proof.
  unfold block, range.
  replace (cell.1 + 2 - (cell.1 - 1)) with 3 by lia.
  replace (cell.2 + 2 - (cell.2 - 1)) with 3 by lia. done.
Qed.

Lemma elem_of_block (cell : Cell) : cell ∈ block cell.
Proof.
  unfold block. apply list_elem_of_bind. exists cell.1. split.
  - apply list_elem_of_fmap. exists cell.2. split; [by destruct cell|].
    apply elem_of_range. lia.
  - apply elem_of_range. lia.
Qed.

Lemma size_neighbourhood h w cell :
  (size (MinesweeperAI.neighbourhood h w cell) ≤ 9)%nat.
Proof.
  rewrite neighbourhood_block.
  rewrite size_list_to_set by apply NoDup_filter, NoDup_block.
  etrans; [apply length_filter|]. by rewrite length_block.
Qed.

Lemma size_neighbours h w (cell : Cell) :
  (size (MinesweeperAI.neighbourhood h w cell ∖ {[cell]}) ≤ 8)%nat.
Proof.
  assert (Hsub : MinesweeperAI.neighbourhood h w cell ∖ {[cell]}
                 ⊆ list_to_set (block cell) ∖ {[cell]}).
  { rewrite neighbourhood_block. intros c.
    rewrite !elem_of_difference, !elem_of_list_to_set, list_elem_of_filter.
    tauto. }
  apply subseteq_size in Hsub.
  assert (Hblock : size (list_to_set (block cell) ∖ {[cell]} : Cells) = 8%nat).
  { rewrite size_difference.
    - rewrite size_list_to_set by apply NoDup_block.
      rewrite length_block, size_singleton. done.
    - apply singleton_subseteq_l, elem_of_list_to_set, elem_of_block. }
  lia.
Qed.

Lemma find_neighbours_run cell a :
  MinesweeperAI.find_neighbours cell a =
  if MinesweeperAI.in_bounds (height a) (width a) cell
  then (Ok (MinesweeperAI.neighbourhood (height a) (width a) cell ∖ {[cell]}), a, [])
  else (Raise KeyError, a, []).
Proof.
  unfold MinesweeperAI.find_neighbours, bind, get, ret, remove, raise; simpl.
  destruct (MinesweeperAI.in_bounds (height a) (width a) cell) eqn:Hb.
  - rewrite bool_decide_eq_true_2 by (by apply in_bounds_neighbourhood). done.
  - rewrite bool_decide_eq_false_2; [done|].
    intros [Hin _]%elem_of_neighbourhood. congruence.
Qed.

Lemma wp_find_neighbours (E : Event → Prop) (R : AI → Prop) (cell : Cell)
    (Q : Cells → AI → Prop) (a : AI) (h w : Z) :
  height a = h → width a = w →
  MinesweeperAI.in_bounds h w cell = true →
  Q (MinesweeperAI.neighbourhood h w cell ∖ {[cell]}) a →
  wp E R (MinesweeperAI.find_neighbours cell) Q a.
Proof.
  intros <- <- Hb HQ. unfold MinesweeperAI.find_neighbours.
  apply wp_bind, wp_get. cbv zeta. apply wp_bind, wp_ret.
  apply wp_remove; [done|]. intros Hn. exfalso. apply Hn.
  by apply in_bounds_neighbourhood.
Qed.

(** X1.  For a cell of the board, [find_neighbours] returns, without
    touching the engine, exactly the cells of the board other than the cell
    itself that are at most one row and one column away; there are at most
    eight of them. *)
Theorem find_neighbours_spec (cell : Cell) (a : AI) :
  MinesweeperAI.in_bounds (height a) (width a) cell = true →
  ∃ nb, MinesweeperAI.find_neighbours cell a = (Ok nb, a, []) ∧
    (∀ c : Cell, c ∈ nb ↔
       c ≠ cell ∧ MinesweeperAI.in_bounds (height a) (width a) c = true ∧
       Z.abs (c.1 - cell.1) ≤ 1 ∧ Z.abs (c.2 - cell.2) ≤ 1) ∧
    (size nb ≤ 8)%nat.
Proof.
  intros Hb. rewrite find_neighbours_run, Hb. eexists. split; [done|]. split.
  - intros c. rewrite elem_of_difference, elem_of_singleton, elem_of_neighbourhood.
    split; intros H; repeat split; try tauto; lia.
  - pose proof (size_neighbourhood (height a) (width a) cell) as Hsz.
    pose proof (in_bounds_neighbourhood _ _ _ Hb) as Hin.
    rewrite size_difference by set_solver. rewrite size_singleton. lia.
Qed.

Lemma find_neighbours_spec_witness :
  MinesweeperAI.in_bounds (height (MinesweeperAI.__init__ 8 8))
                          (width (MinesweeperAI.__init__ 8 8)) (0, 3) = true ∧
  ∃ nb, MinesweeperAI.find_neighbours (0, 3) (MinesweeperAI.__init__ 8 8)
        = (Ok nb, MinesweeperAI.__init__ 8 8, []) ∧
    (∀ c : Cell, c ∈ nb ↔
       c ≠ (0, 3) ∧
       MinesweeperAI.in_bounds (height (MinesweeperAI.__init__ 8 8))
                               (width (MinesweeperAI.__init__ 8 8)) c = true ∧
       Z.abs (c.1 - (0, 3).1) ≤ 1 ∧ Z.abs (c.2 - (0, 3).2) ≤ 1) ∧
    (size nb ≤ 8)%nat.
Proof.
  split; [reflexivity|].
  apply (find_neighbours_spec (0, 3) (MinesweeperAI.__init__ 8 8) eq_refl).
Defined.

(** X2.  Being a neighbour is symmetric: when [find_neighbours] returns for
    two cells, the first is among the neighbours of the second exactly when
    the second is among the neighbours of the first. *)
Theorem find_neighbours_symmetric (c d : Cell) (a : AI) (nc nd : Cells)
    (tc td : list Event) (ac ad : AI) :
  MinesweeperAI.find_neighbours c a = (Ok nc, ac, tc) →
  MinesweeperAI.find_neighbours d a = (Ok nd, ad, td) →
  (d ∈ nc ↔ c ∈ nd).
Proof.
  rewrite !find_neighbours_run.
  destruct (MinesweeperAI.in_bounds (height a) (width a) c) eqn:Hc; [|done].
  destruct (MinesweeperAI.in_bounds (height a) (width a) d) eqn:Hd; [|done].
  intros [= <- _ _] [= <- _ _].
  rewrite !elem_of_difference, !elem_of_singleton, !elem_of_neighbourhood.
  split; intros [(_ & ? & ?) Hne]; (split; [split; [done|lia]|congruence]).
Qed.

Lemma find_neighbours_symmetric_witness :
  MinesweeperAI.find_neighbours (0, 0) (MinesweeperAI.__init__ 8 8)
  = (Ok (MinesweeperAI.neighbourhood 8 8 (0, 0) ∖ {[(0, 0)]}),
     MinesweeperAI.__init__ 8 8, []) ∧
  MinesweeperAI.find_neighbours (1, 1) (MinesweeperAI.__init__ 8 8)
  = (Ok (MinesweeperAI.neighbourhood 8 8 (1, 1) ∖ {[(1, 1)]}),
     MinesweeperAI.__init__ 8 8, []) ∧
  ((1, 1) ∈ MinesweeperAI.neighbourhood 8 8 (0, 0) ∖ {[(0, 0)]} ↔
   (0, 0) ∈ MinesweeperAI.neighbourhood 8 8 (1, 1) ∖ {[(1, 1)]}).
Proof.
  split; [reflexivity|]. split; [reflexivity|].
  apply (find_neighbours_symmetric (0, 0) (1, 1) (MinesweeperAI.__init__ 8 8)
           _ _ [] [] (MinesweeperAI.__init__ 8 8) (MinesweeperAI.__init__ 8 8)
           eq_refl eq_refl).
Defined.

(** ** The board *)

(** A game on a 1 by 5 board with its mine at [(0,2)]. *)
Definition row_game : Minesweeper.t :=
  Minesweeper.mk 1 5 [[false; false; true; false; false]] {[(0, 2)]} ∅.

Lemma row_game_init : Minesweeper.__init__ [(0, 2)] 1 5 1 = Some row_game.
Proof. reflexivity. Qed.

Lemma row_game_ok : board_ok row_game.
Proof. apply (init_board_ok [(0, 2)] 1 5 1); [lia|lia|apply row_game_init]. Qed.

Lemma row_game_clues : Forall (board_clue row_game) row_clues.
Proof. repeat constructor. Qed.

(** X3.  On a well-formed board, [nearby_mines] returns for every cell, on
    the board or not, the number of mines among the cells the engine takes
    for the neighbours of that cell (the cells of the board at most one row
    and one column away, the cell itself left out); the number is between 0
    and 8, and no [IndexError] is raised. *)
Theorem nearby_mines_counts (g : Minesweeper.t) (cell : Cell) :
  board_ok g →
  ∃ n, Minesweeper.nearby_mines g cell = Some n ∧
       n = Z.of_nat (size ((MinesweeperAI.neighbourhood
                              (Minesweeper.height g) (Minesweeper.width g) cell
                            ∖ {[cell]}) ∩ Minesweeper.mines g)) ∧
       0 ≤ n ≤ 8.
Proof.
  intros Hg. eexists. split; [by apply nearby_mines_spec|].
  unfold mines_in. split; [done|].
  pose proof (size_neighbours (Minesweeper.height g) (Minesweeper.width g) cell).
  assert (size ((MinesweeperAI.neighbourhood
                   (Minesweeper.height g) (Minesweeper.width g) cell
                 ∖ {[cell]}) ∩ Minesweeper.mines g)
          ≤ size (MinesweeperAI.neighbourhood
                   (Minesweeper.height g) (Minesweeper.width g) cell
                 ∖ {[cell]}))%nat.
  { apply subseteq_size. set_solver. }
  lia.
Qed.

Lemma nearby_mines_counts_witness :
  board_ok row_game ∧
  ∃ n, Minesweeper.nearby_mines row_game (0, 1) = Some n ∧
       n = Z.of_nat (size ((MinesweeperAI.neighbourhood
                              (Minesweeper.height row_game)
                              (Minesweeper.width row_game) (0, 1)
                            ∖ {[(0, 1)]}) ∩ Minesweeper.mines row_game)) ∧
       0 ≤ n ≤ 8.
Proof.
  split; [apply row_game_ok|].
  apply (nearby_mines_counts row_game (0, 1) row_game_ok).
Defined.








Lemma item_spec {A} (l : list A) (i : Z) :
  Minesweeper.item l i =
  if (- Z.of_nat (length l) <=? i) && (i <? Z.of_nat (length l))
  then l !! Z.to_nat (i mod Z.of_nat (length l))
  else None.
Proof.
  unfold Minesweeper.item.
  destruct (Z.leb_spec 0 i) as [Hi|Hi];
    destruct (Z.leb_spec (- Z.of_nat (length l)) i) as [Hlo|Hlo];
    destruct (Z.ltb_spec i (Z.of_nat (length l))) as [Hhi|Hhi]; simpl;
    try lia; try done.
  - by rewrite Z.mod_small by lia.
  - apply lookup_ge_None_2. lia.
  - f_equal. f_equal.
    rewrite <- (Z.mod_add i 1 (Z.of_nat (length l))) by lia.
    rewrite Z.mod_small by lia. lia.
Qed.

(** X5.  [is_mine] does not check its cell against the board: on a
    well-formed board it answers for every row index from [-height] to
    [height - 1] and column index from [-width] to [width - 1], a negative
    index counting from the end as Python lists do, with whether the cell
    so addressed holds a mine; for any other index it raises
    [IndexError]. *)
Theorem is_mine_index (g : Minesweeper.t) (i j : Z) :
  board_ok g →
  Minesweeper.is_mine g (i, j) =
  if (- Minesweeper.height g <=? i) && (i <? Minesweeper.height g)
     && (- Minesweeper.width g <=? j) && (j <? Minesweeper.width g)
  then Some (bool_decide ((i mod Minesweeper.height g, j mod Minesweeper.width g)
                          ∈ Minesweeper.mines g))
  else None.
Proof.
  intros Hg. pose proof Hg as [Hrows Hcols Hmines].
  set (h := Minesweeper.height g) in *. set (w := Minesweeper.width g) in *.
  unfold Minesweeper.is_mine, Minesweeper.field. rewrite item_spec, Hrows.
  destruct ((- h <=? i) && (i <? h)) eqn:Hi; simpl; [|done].
  apply andb_true_iff in Hi as [Hi1%Z.leb_le Hi2%Z.ltb_lt].
  assert (0 ≤ i mod h < h) as Him by (apply Z.mod_pos_bound; lia).
  destruct (lookup_lt_is_Some_2 (Minesweeper.board g) (Z.to_nat (i mod h)))
    as [row Hrow]; [lia|].
  rewrite Hrow, item_spec.
  rewrite Forall_lookup in Hcols. rewrite (Hcols _ _ Hrow).
  destruct ((- w <=? j) && (j <? w)) eqn:Hj; simpl; [|done].
  apply andb_true_iff in Hj as [Hj1%Z.leb_le Hj2%Z.ltb_lt].
  assert (0 ≤ j mod w < w) as Hjm by (apply Z.mod_pos_bound; lia).
  assert (Hb : MinesweeperAI.in_bounds h w (i mod h, j mod w) = true).
  { unfold MinesweeperAI.in_bounds. simpl. lia. }
  rewrite <- (board_ok_is_mine g _ Hg Hb), (is_mine_in_bounds g _ Hb).
  unfold field_at. simpl. by rewrite Hrow.
Qed.

Lemma is_mine_index_witness :
  board_ok row_game ∧
  Minesweeper.is_mine row_game (-1, -3) =
  if (- Minesweeper.height row_game <=? -1) && (-1 <? Minesweeper.height row_game)
     && (- Minesweeper.width row_game <=? -3) && (-3 <? Minesweeper.width row_game)
  then Some (bool_decide (((-1) mod Minesweeper.height row_game,
                           (-3) mod Minesweeper.width row_game)
                          ∈ Minesweeper.mines row_game))
  else None.
Proof.
  split; [apply row_game_ok|]. apply (is_mine_index row_game (-1) (-3) row_game_ok).
Defined.

(** On that board, the index [(-1, -3)] reads the field of the mine at
    [(0, 2)]. *)
Example is_mine_wraps : Minesweeper.is_mine row_game (-1, -3) = Some true.
Proof. reflexivity. Qed.

(** *** The printed board *)












(** What is printed for a 1 by 1 board that is a single mine. *)
Example print_one_mine :
  Minesweeper.print (Minesweeper.mk 1 1 [[true]] {[(0, 0)]} ∅)
  = Some ["-"; "-"; "-"; Minesweeper.newline;
          "|"; "X"; "|"; Minesweeper.newline;
          "-"; "-"; "-"; Minesweeper.newline]%char.
Proof. reflexivity. Qed.


(** ** The inference rules on sentences *)

(** X7.  The operations of a sentence are sound for every mine layout the
    sentence is true of: the cells [known_mines] returns all hold a mine,
    those [known_safes] returns hold none; [mark_safe] on a cell without a
    mine and [mark_mine] on a cell with one leave a true sentence, and on a
    cell of the sentence the wrong marking leaves a false one; and the
    difference of the sentence and a true sentence on a subset of its cells
    (the cells removed, the counts subtracted) is true. *)
Theorem sentence_rules_sound (L : Cells) (s : Sentence.t) :
  truthful_sentence L s →
  (∀ c : Cell, c ∈ (Sentence.known_mines s).1 → c ∈ L) ∧
  (∀ c : Cell, c ∈ (Sentence.known_safes s).1 → c ∉ L) ∧
  (∀ c : Cell, c ∉ L → truthful_sentence L (Sentence.mark_safe c s)) ∧
  (∀ c : Cell, c ∈ L → truthful_sentence L (Sentence.mark_mine c s)) ∧
  (∀ c : Cell, c ∈ Sentence.cells s → c ∈ L →
               ¬ truthful_sentence L (Sentence.mark_safe c s)) ∧
  (∀ c : Cell, c ∈ Sentence.cells s → c ∉ L →
               ¬ truthful_sentence L (Sentence.mark_mine c s)) ∧
  (∀ s' : Sentence.t,
     truthful_sentence L s' → Sentence.cells s' ⊆ Sentence.cells s →
     truthful_sentence L
       (Sentence.mk (Sentence.cells s ∖ Sentence.cells s')
                    (Sentence.count s - Sentence.count s'))).
Proof.
  intros Hs. repeat split.
  - intros c [Hn Hc]%known_mines_elem.
    eapply mines_in_all; [|done]. by rewrite <- Hs.
  - intros c [Hz Hc]%known_safes_elem.
    eapply mines_in_zero; [|done]. by rewrite <- Hs.
  - intros c Hc. by apply truthful_mark_safe.
  - intros c Hc. by apply truthful_mark_mine.
  - intros c Hc HL. unfold truthful_sentence, Sentence.mark_safe in *.
    rewrite bool_decide_eq_true_2 by done. simpl.
    rewrite mines_in_remove_mine by done. lia.
  - intros c Hc HL. unfold truthful_sentence, Sentence.mark_mine in *.
    rewrite bool_decide_eq_true_2 by done. simpl.
    rewrite mines_in_remove_safe by done. lia.
  - intros s' Hs' Hsub. unfold truthful_sentence in *. simpl.
    rewrite mines_in_difference by done. lia.
Qed.

Lemma sentence_rules_sound_witness :
  let L : Cells := {[(0, 0)]} in
  let s := Sentence.mk {[(0, 0); (0, 1); (0, 2)]} 1 in
  truthful_sentence L s ∧
  (∀ c : Cell, c ∈ (Sentence.known_mines s).1 → c ∈ L) ∧
  (∀ c : Cell, c ∈ (Sentence.known_safes s).1 → c ∉ L) ∧
  (∀ c : Cell, c ∉ L → truthful_sentence L (Sentence.mark_safe c s)) ∧
  (∀ c : Cell, c ∈ L → truthful_sentence L (Sentence.mark_mine c s)) ∧
  (∀ c : Cell, c ∈ Sentence.cells s → c ∈ L →
               ¬ truthful_sentence L (Sentence.mark_safe c s)) ∧
  (∀ c : Cell, c ∈ Sentence.cells s → c ∉ L →
               ¬ truthful_sentence L (Sentence.mark_mine c s)) ∧
  (∀ s' : Sentence.t,
     truthful_sentence L s' → Sentence.cells s' ⊆ Sentence.cells s →
     truthful_sentence L
       (Sentence.mk (Sentence.cells s ∖ Sentence.cells s')
                    (Sentence.count s - Sentence.count s'))).
Proof.
  intros L s.
  assert (Hs : truthful_sentence L s) by (by vm_compute).
  split; [exact Hs|]. apply (sentence_rules_sound L s Hs).
Defined.

(** X8.  No sentence declares a cell both a mine and safe: [known_mines]
    and [known_safes] never return a common cell, whatever the count. *)
Theorem known_mines_safes_disjoint (s : Sentence.t) :
  (Sentence.known_mines s).1 ∩ (Sentence.known_safes s).1 = ∅.
Proof.
  unfold Sentence.known_mines, Sentence.known_safes, Sentence.len.
  destruct (Z.eqb_spec (Sentence.count s) (Z.of_nat (size (Sentence.cells s))))
    as [Hn|]; destruct (Z.eqb_spec (Sentence.count s) 0) as [Hz|]; simpl;
    try set_solver.
  assert (Sentence.cells s = ∅) as ->; [|set_solver].
  apply leibniz_equiv, size_empty_inv. lia.
Qed.

Lemma mark_safe_eq (c : Cell) (s : Sentence.t) :
  Sentence.mark_safe c s = Sentence.mk (Sentence.cells s ∖ {[c]}) (Sentence.count s).
Proof.
  unfold Sentence.mark_safe. case_bool_decide; [done|].
  destruct s as [cs n]; simpl in *. f_equal. set_solver.
Qed.

Lemma mark_mine_eq (c : Cell) (s : Sentence.t) :
  Sentence.mark_mine c s =
  Sentence.mk (Sentence.cells s ∖ {[c]})
              (Sentence.count s - Z.of_nat (size (Sentence.cells s ∩ {[c]}))).
Proof.
  unfold Sentence.mark_mine. case_bool_decide as Hc.
  - assert (Sentence.cells s ∩ {[c]} = {[c]}) as -> by set_solver.
    by rewrite size_singleton.
  - assert (Sentence.cells s ∩ {[c]} = ∅) as -> by set_solver.
    rewrite size_empty. destruct s as [cs n]; simpl in *. f_equal; [set_solver|lia].
Qed.

(** ** Marking, as one step *)

Lemma mark_safe_run c a :
  ∃ tr, MinesweeperAI.mark_safe c a = (Ok tt, marked_safe c a, tr).
Proof.
  destruct (update_loop_run (Sentence.mark_safe c) (set_safes (add c) a) []
              (knowledge a) eq_refl) as (tr & Hrun & _).
  unfold MinesweeperAI.mark_safe. rewrite run_bind_modify.
  unfold MinesweeperAI.update_all, bind, get. simpl in *. rewrite Hrun.
  by eexists.
Qed.

Lemma mark_mine_run c a :
  ∃ tr, MinesweeperAI.mark_mine c a = (Ok tt, marked_mine c a, tr).
Proof.
  destruct (update_loop_run (Sentence.mark_mine c) (set_mines (add c) a) []
              (knowledge a) eq_refl) as (tr & Hrun & _).
  unfold MinesweeperAI.mark_mine. rewrite run_bind_modify.
  unfold MinesweeperAI.update_all, bind, get. simpl in *. rewrite Hrun.
  by eexists.
Qed.

(** X9.  [mark_safe] and [mark_mine] of the engine never raise.  They add
    the cell to [safes] (to [mines]), remove it from every stored sentence,
    [mark_mine] lowering by one the count of exactly the sentences that
    held the cell, and change nothing else: no sentence is added or
    dropped, [moves_made] and the other set are as before. *)
Theorem engine_mark_spec (c : Cell) (a : AI) :
  (MinesweeperAI.mark_safe c a).1 =
    (Ok tt,
     mkAI (height a) (width a) (moves_made a) (mines a) ({[c]} ∪ safes a)
          ((fun s => Sentence.mk (Sentence.cells s ∖ {[c]}) (Sentence.count s))
             <$> knowledge a)) ∧
  (MinesweeperAI.mark_mine c a).1 =
    (Ok tt,
     mkAI (height a) (width a) (moves_made a) ({[c]} ∪ mines a) (safes a)
          ((fun s => Sentence.mk (Sentence.cells s ∖ {[c]})
                       (if bool_decide (c ∈ Sentence.cells s)
                        then Sentence.count s - 1 else Sentence.count s))
             <$> knowledge a)).
Proof.
  destruct (mark_safe_run c a) as [tr1 ->]. destruct (mark_mine_run c a) as [tr2 ->].
  split; simpl; f_equal; unfold marked_safe, marked_mine, with_knowledge,
    set_knowledge, add; simpl; f_equal; apply list_fmap_ext; intros i s _.
  - apply mark_safe_eq.
  - unfold Sentence.mark_mine. case_bool_decide; [done|].
    destruct s as [cs n]; simpl in *. f_equal. set_solver.
Qed.

Lemma run_seq (m1 m2 : M unit) (a a1 : AI) tr1 :
  m1 a = (Ok tt, a1, tr1) → (bind m1 (fun _ => m2) a).1 = (m2 a1).1.
Proof. unfold bind. intros ->. by destruct (m2 a1) as [[r a2] tr2]. Qed.

Lemma marked_safe_safe (c d : Cell) (a : AI) :
  marked_safe c (marked_safe d a) = marked_safe d (marked_safe c a).
Proof.
  unfold marked_safe, with_knowledge, set_knowledge, set_safes, add; simpl.
  f_equal; [set_solver|]. rewrite <- !list_fmap_compose.
  apply list_fmap_ext. intros i s _. simpl. rewrite !mark_safe_eq. simpl.
  f_equal. set_solver.
Qed.

Lemma marked_mine_mine (c d : Cell) (a : AI) :
  marked_mine c (marked_mine d a) = marked_mine d (marked_mine c a).
Proof.
  unfold marked_mine, with_knowledge, set_knowledge, set_mines, add; simpl.
  f_equal; [set_solver|]. rewrite <- !list_fmap_compose.
  apply list_fmap_ext. intros i s _. simpl.
  unfold Sentence.mark_mine. repeat (case_bool_decide; simpl in * );
    try (exfalso; set_solver); try done; f_equal; try set_solver; lia.
Qed.

Lemma marked_safe_mine (c d : Cell) (a : AI) :
  c ≠ d → marked_safe c (marked_mine d a) = marked_mine d (marked_safe c a).
Proof.
  intros Hne.
  unfold marked_safe, marked_mine, with_knowledge, set_knowledge, set_safes,
    set_mines, add; simpl.
  f_equal. rewrite <- !list_fmap_compose.
  apply list_fmap_ext. intros i s _. simpl.
  unfold Sentence.mark_mine, Sentence.mark_safe.
  repeat (case_bool_decide; simpl in * );
    try (exfalso; set_solver); try done; f_equal; try set_solver; lia.
Qed.

Lemma marked_safe_idem (c : Cell) (a : AI) :
  marked_safe c (marked_safe c a) = marked_safe c a.
Proof.
  unfold marked_safe, with_knowledge, set_knowledge, set_safes, add; simpl.
  f_equal; [set_solver|]. rewrite <- !list_fmap_compose.
  apply list_fmap_ext. intros i s _. simpl. rewrite !mark_safe_eq. simpl.
  f_equal. set_solver.
Qed.

Lemma marked_mine_idem (c : Cell) (a : AI) :
  marked_mine c (marked_mine c a) = marked_mine c a.
Proof.
  unfold marked_mine, with_knowledge, set_knowledge, set_mines, add; simpl.
  f_equal; [set_solver|]. rewrite <- !list_fmap_compose.
  apply list_fmap_ext. intros i s _. simpl.
  unfold Sentence.mark_mine. repeat (case_bool_decide; simpl in * );
    try (exfalso; set_solver); try done; f_equal; try set_solver; lia.
Qed.

(** X10.  Marking is idempotent and does not depend on the order of the
    cells: marking a cell twice (safe, or as a mine) leaves the engine that
    marking it once leaves, two cells marked safe, or two marked as mines,
    can be marked in either order, and so can a cell marked safe and a
    different cell marked as a mine. *)
Theorem engine_marks_compose (c d : Cell) (a : AI) :
  let run (m : M unit) := (m a).1 in
  run (MinesweeperAI.mark_safe c;; MinesweeperAI.mark_safe c)
    = run (MinesweeperAI.mark_safe c) ∧
  run (MinesweeperAI.mark_mine c;; MinesweeperAI.mark_mine c)
    = run (MinesweeperAI.mark_mine c) ∧
  run (MinesweeperAI.mark_safe c;; MinesweeperAI.mark_safe d)
    = run (MinesweeperAI.mark_safe d;; MinesweeperAI.mark_safe c) ∧
  run (MinesweeperAI.mark_mine c;; MinesweeperAI.mark_mine d)
    = run (MinesweeperAI.mark_mine d;; MinesweeperAI.mark_mine c) ∧
  (c ≠ d →
   run (MinesweeperAI.mark_mine d;; MinesweeperAI.mark_safe c)
     = run (MinesweeperAI.mark_safe c;; MinesweeperAI.mark_mine d)).
Proof.
  intros run.
  destruct (mark_safe_run c a) as [ts Hs]. destruct (mark_mine_run c a) as [tm Hm].
  destruct (mark_safe_run d a) as [ts' Hs']. destruct (mark_mine_run d a) as [tm' Hm'].
  unfold run.
  rewrite !(run_seq _ _ _ _ _ Hs), !(run_seq _ _ _ _ _ Hm),
    !(run_seq _ _ _ _ _ Hs'), !(run_seq _ _ _ _ _ Hm').
  destruct (mark_safe_run c (marked_safe c a)) as [t1 ->].
  destruct (mark_mine_run c (marked_mine c a)) as [t2 ->].
  destruct (mark_safe_run d (marked_safe c a)) as [t3 ->].
  destruct (mark_safe_run c (marked_safe d a)) as [t4 ->].
  destruct (mark_mine_run d (marked_mine c a)) as [t5 ->].
  destruct (mark_mine_run c (marked_mine d a)) as [t6 ->].
  destruct (mark_safe_run c (marked_mine d a)) as [t7 ->].
  destruct (mark_mine_run d (marked_safe c a)) as [t8 ->].
  rewrite Hs, Hm. simpl.
  rewrite marked_safe_idem, marked_mine_idem, (marked_safe_safe c d),
    (marked_mine_mine c d).
  repeat split. intros Hne. by rewrite marked_safe_mine.
Qed.

(** ** What [add_safes] and [add_mines] do to the engine *)

(** The stored sentence [s0] after the cells of [X] have been marked safe,
    and after they have been marked as mines. *)
Definition without_safes (X : Cells) (s0 : Sentence.t) : Sentence.t :=
  Sentence.mk (Sentence.cells s0 ∖ X) (Sentence.count s0).

Definition without_mines (X : Cells) (s0 : Sentence.t) : Sentence.t :=
  Sentence.mk (Sentence.cells s0 ∖ X)
              (Sentence.count s0 - Z.of_nat (size (Sentence.cells s0 ∩ X))).

(** The dimensions and [moves_made] of [a'] are those of [a]. *)
Definition sets_kept (a a' : AI) : Prop :=
  height a' = height a ∧ width a' = width a ∧ moves_made a' = moves_made a.

(** Every sentence stored in [a] is still at its position in [a'],
    updated by [mark]. *)
Definition stored_updated (mark : Sentence.t → Sentence.t) (a a' : AI) : Prop :=
  (length (knowledge a) ≤ length (knowledge a'))%nat ∧
  ∀ i s0, knowledge a !! i = Some s0 → knowledge a' !! i = Some (mark s0).

Section Resolve.

Context (order : Cells → list Cell) (Horder : order_ok order).

Lemma order_ok_NoDup X : NoDup (order X).
Proof. rewrite (Horder X). apply NoDup_elements. Qed.

Lemma order_ok_set X : list_to_set (order X) = X.
Proof.
  apply set_eq. intros c. rewrite elem_of_list_to_set, (Horder X).
  apply elem_of_elements.
Qed.

Lemma add_safes_run (s : Sentence.t) (a : AI) :
  wp any_event never (MinesweeperAI.add_safes order s)
     (fun _ a' =>
        sets_kept a a' ∧ mines a' = mines a ∧
        safes a' = (Sentence.known_safes s).1 ∪ safes a ∧
        stored_updated (without_safes (Sentence.known_safes s).1) a a') a.
Proof.
  set (l := order (Sentence.known_safes s).1).
  eapply wp_conseq.
  - unfold MinesweeperAI.add_safes. fold l.
    apply (wp_foreach_steps any_event never
             (fun k a' =>
                sets_kept a a' ∧ mines a' = mines a ∧
                safes a' = list_to_set (take k l) ∪ safes a ∧
                stored_updated (without_safes (list_to_set (take k l))) a a')).
    + repeat split; try done; [set_solver|].
      intros i s0 Hi. rewrite Hi. f_equal. unfold without_safes.
      destruct s0 as [cs n]; simpl. f_equal. set_solver.
    + intros k c a' Hk ((Hh & Hw & Hmv) & Hm & Hs & Hlen & HK).
      assert (Hc : c ∈ Sentence.cells s).
      { apply list_elem_of_lookup_2 in Hk.
        apply (order_ok_elem _ _ _ Horder) in Hk.
        by apply known_safes_elem in Hk as [_ ?]. }
      assert (Htake : (list_to_set (take (S k) l) : Cells)
                      = list_to_set (take k l) ∪ {[c]}).
      { rewrite (take_S_r _ _ _ Hk), list_to_set_app_L. simpl. set_solver. }
      assert (Hstored : ∀ K' : list Sentence.t,
        (∀ i s0, knowledge a !! i = Some s0 →
                 K' !! i = Some (without_safes (list_to_set (take k l)) s0)) →
        ∀ i s0, knowledge a !! i = Some s0 →
                (Sentence.mark_safe c <$> K') !! i
                = Some (without_safes (list_to_set (take (S k) l)) s0)).
      { intros K' HK' i s0 Hi. rewrite list_lookup_fmap, (HK' _ _ Hi). simpl.
        rewrite mark_safe_eq, Htake. unfold without_safes. simpl.
        do 2 f_equal. set_solver. }
      apply wp_bind, wp_mark_safe; [done|apply update_events_any|].
      apply wp_bind, wp_modify; [done|].
      assert (Hsets : sets_kept a (set_safes (add c) (marked_safe c a'))) by done.
      assert (Hsafes : safes (set_safes (add c) (marked_safe c a'))
                       = list_to_set (take (S k) l) ∪ safes a).
      { simpl. unfold add. rewrite Hs, Htake. set_solver. }
      apply wp_when; [intros _|].
      * apply wp_bind, wp_remove; [intros _|done].
        apply wp_bind, wp_construct; [done|].
        apply wp_bind, wp_get. apply wp_when; [intros _|].
        -- apply wp_modify; [done|].
           repeat split; try done; simpl.
           ++ unfold append. rewrite length_app, length_fmap. lia.
           ++ intros i s0 Hi. unfold append.
              rewrite lookup_app_l
                by (rewrite length_fmap; apply lookup_lt_Some in Hi; lia).
              by apply Hstored.
        -- intros _. repeat split; try done; simpl.
           ++ rewrite length_fmap. lia.
           ++ by apply Hstored.
      * intros _. repeat split; try done; simpl.
        -- rewrite length_fmap. lia.
        -- by apply Hstored.
  - intros _ a' (Hsets & Hm & Hs & Hst).
    rewrite firstn_all in Hs, Hst. subst l. rewrite order_ok_set in Hs, Hst.
    done.
Qed.

Lemma add_mines_run (s : Sentence.t) (a : AI) :
  wp any_event never (MinesweeperAI.add_mines order s)
     (fun _ a' =>
        sets_kept a a' ∧ safes a' = safes a ∧
        mines a' = (Sentence.known_mines s).1 ∪ mines a ∧
        stored_updated (without_mines (Sentence.known_mines s).1) a a') a.
Proof.
  set (l := order (Sentence.known_mines s).1).
  pose proof (order_ok_NoDup (Sentence.known_mines s).1) as Hnd. fold l in Hnd.
  eapply wp_conseq.
  - unfold MinesweeperAI.add_mines. fold l.
    apply (wp_foreach_steps any_event never
             (fun k a' =>
                sets_kept a a' ∧ safes a' = safes a ∧
                mines a' = list_to_set (take k l) ∪ mines a ∧
                stored_updated (without_mines (list_to_set (take k l))) a a')).
    + repeat split; try done; [set_solver|].
      intros i s0 Hi. rewrite Hi. f_equal. unfold without_mines. simpl.
      assert (Sentence.cells s0 ∩ ∅ = ∅) as -> by set_solver.
      rewrite size_empty.
      destruct s0 as [cs n]; simpl. f_equal; [set_solver|lia].
    + intros k c a' Hk ((Hh & Hw & Hmv) & Hs & Hm & Hlen & HK).
      assert (Hc : c ∈ Sentence.cells s).
      { apply list_elem_of_lookup_2 in Hk.
        apply (order_ok_elem _ _ _ Horder) in Hk.
        by apply known_mines_elem in Hk as [_ ?]. }
      assert (Hfresh : c ∉ (list_to_set (take k l) : Cells)).
      { rewrite elem_of_list_to_set. intros Hin.
        apply list_elem_of_lookup_1 in Hin as [k' Hk'].
        pose proof (lookup_lt_Some _ _ _ Hk') as Hlt.
        rewrite lookup_take_lt in Hk' by (rewrite length_take in Hlt; lia).
        rewrite length_take in Hlt.
        pose proof (NoDup_lookup _ _ _ _ Hnd Hk Hk'). lia. }
      assert (Htake : (list_to_set (take (S k) l) : Cells)
                      = list_to_set (take k l) ∪ {[c]}).
      { rewrite (take_S_r _ _ _ Hk), list_to_set_app_L. simpl. set_solver. }
      assert (Hstored : ∀ K' : list Sentence.t,
        (∀ i s0, knowledge a !! i = Some s0 →
                 K' !! i = Some (without_mines (list_to_set (take k l)) s0)) →
        ∀ i s0, knowledge a !! i = Some s0 →
                (Sentence.mark_mine c <$> K') !! i
                = Some (without_mines (list_to_set (take (S k) l)) s0)).
      { intros K' HK' i s0 Hi. rewrite list_lookup_fmap, (HK' _ _ Hi). simpl.
        rewrite mark_mine_eq, Htake. unfold without_mines. simpl.
        f_equal. f_equal; [set_solver|].
        assert (Sentence.cells s0 ∩ (list_to_set (take k l) ∪ {[c]})
                = Sentence.cells s0 ∩ list_to_set (take k l)
                  ∪ (Sentence.cells s0 ∖ list_to_set (take k l)) ∩ {[c]})
          as -> by set_solver.
        rewrite (size_union (Sentence.cells s0 ∩ list_to_set (take k l))
                   ((Sentence.cells s0 ∖ list_to_set (take k l)) ∩ {[c]}))
          by set_solver.
        lia. }
      apply wp_bind, wp_mark_mine; [done|apply update_events_any|].
      apply wp_bind, wp_modify; [done|].
      assert (Hsets : sets_kept a (set_mines (add c) (marked_mine c a'))) by done.
      assert (Hmines : mines (set_mines (add c) (marked_mine c a'))
                       = list_to_set (take (S k) l) ∪ mines a).
      { simpl. unfold add. rewrite Hm, Htake. set_solver. }
      apply wp_when; [intros _|].
      * apply wp_bind, wp_remove; [intros _|done].
        apply wp_bind, wp_construct; [done|].
        apply wp_bind, wp_get. apply wp_when; [intros _|].
        -- apply wp_modify; [done|].
           repeat split; try done; simpl.
           ++ unfold append. rewrite length_app, length_fmap. lia.
           ++ intros i s0 Hi. unfold append.
              rewrite lookup_app_l
                by (rewrite length_fmap; apply lookup_lt_Some in Hi; lia).
              by apply Hstored.
        -- intros _. repeat split; try done; simpl.
           ++ rewrite length_fmap. lia.
           ++ by apply Hstored.
      * intros _. repeat split; try done; simpl.
        -- rewrite length_fmap. lia.
        -- by apply Hstored.
  - intros _ a' (Hsets & Hs & Hm & Hst).
    rewrite firstn_all in Hm, Hst. subst l. rewrite order_ok_set in Hm, Hst.
    done.
Qed.

End Resolve.

(** X11.  [add_safes], given a sentence object that is not itself stored in
    the knowledge list (as in every call the engine makes), always returns.
    With [X] the cells the sentence knows to be safe (all its cells when
    its count is 0, none otherwise), it adds exactly [X] to [safes], leaves
    [mines], [moves_made] and the dimensions alone, and every sentence that
    was stored before the call is still at its position, with the cells of
    [X] removed and its count unchanged; sentences may have been appended
    behind them. *)
Theorem add_safes_spec (order : Cells → list Cell) (s : Sentence.t) (a : AI) :
  order_ok order →
  let X := (Sentence.known_safes s).1 in
  let r := MinesweeperAI.add_safes order s a in
  r.1.1 = Ok tt ∧
  height r.1.2 = height a ∧ width r.1.2 = width a ∧
  moves_made r.1.2 = moves_made a ∧ mines r.1.2 = mines a ∧
  safes r.1.2 = X ∪ safes a ∧
  (length (knowledge a) ≤ length (knowledge r.1.2))%nat ∧
  ∀ i s0, knowledge a !! i = Some s0 →
    knowledge r.1.2 !! i
    = Some (Sentence.mk (Sentence.cells s0 ∖ X) (Sentence.count s0)).
Proof.
  intros Ho X r.
  destruct (wp_returns _ _ _ _ (add_safes_run order Ho s a))
    as ([] & Hok & (Hh & Hw & Hmv) & Hm & Hs & Hlen & HK).
  done.
Qed.

Lemma add_safes_spec_witness :
  order_ok elements ∧
  let s := Sentence.mk {[(0, 1); (0, 2)]} 0 in
  let X := (Sentence.known_safes s).1 in
  let r := MinesweeperAI.add_safes elements s linked_engine in
  r.1.1 = Ok tt ∧
  height r.1.2 = height linked_engine ∧ width r.1.2 = width linked_engine ∧
  moves_made r.1.2 = moves_made linked_engine ∧ mines r.1.2 = mines linked_engine ∧
  safes r.1.2 = X ∪ safes linked_engine ∧
  (length (knowledge linked_engine) ≤ length (knowledge r.1.2))%nat ∧
  ∀ i s0, knowledge linked_engine !! i = Some s0 →
    knowledge r.1.2 !! i
    = Some (Sentence.mk (Sentence.cells s0 ∖ X) (Sentence.count s0)).
Proof.
  split; [apply order_ok_elements|].
  apply (add_safes_spec elements (Sentence.mk {[(0, 1); (0, 2)]} 0) linked_engine
           order_ok_elements).
Defined.

(** X12.  [add_mines], given a sentence object that is not itself stored in
    the knowledge list, always returns.  With [X] the cells the sentence
    knows to be mines (all its cells when its count is their number, none
    otherwise), it adds exactly [X] to [mines], leaves [safes], [moves_made]
    and the dimensions alone, and every sentence that was stored before the
    call is still at its position, with the cells of [X] removed and its
    count lowered by the number of cells it lost. *)
Theorem add_mines_spec (order : Cells → list Cell) (s : Sentence.t) (a : AI) :
  order_ok order →
  let X := (Sentence.known_mines s).1 in
  let r := MinesweeperAI.add_mines order s a in
  r.1.1 = Ok tt ∧
  height r.1.2 = height a ∧ width r.1.2 = width a ∧
  moves_made r.1.2 = moves_made a ∧ safes r.1.2 = safes a ∧
  mines r.1.2 = X ∪ mines a ∧
  (length (knowledge a) ≤ length (knowledge r.1.2))%nat ∧
  ∀ i s0, knowledge a !! i = Some s0 →
    knowledge r.1.2 !! i
    = Some (Sentence.mk (Sentence.cells s0 ∖ X)
              (Sentence.count s0 - Z.of_nat (size (Sentence.cells s0 ∩ X)))).
Proof.
  intros Ho X r.
  destruct (wp_returns _ _ _ _ (add_mines_run order Ho s a))
    as ([] & Hok & (Hh & Hw & Hmv) & Hs & Hm & Hlen & HK).
  done.
Qed.

Lemma add_mines_spec_witness :
  order_ok elements ∧
  let s := Sentence.mk {[(0, 0)]} 1 in
  let X := (Sentence.known_mines s).1 in
  let r := MinesweeperAI.add_mines elements s linked_engine in
  r.1.1 = Ok tt ∧
  height r.1.2 = height linked_engine ∧ width r.1.2 = width linked_engine ∧
  moves_made r.1.2 = moves_made linked_engine ∧ safes r.1.2 = safes linked_engine ∧
  mines r.1.2 = X ∪ mines linked_engine ∧
  (length (knowledge linked_engine) ≤ length (knowledge r.1.2))%nat ∧
  ∀ i s0, knowledge linked_engine !! i = Some s0 →
    knowledge r.1.2 !! i
    = Some (Sentence.mk (Sentence.cells s0 ∖ X)
              (Sentence.count s0 - Z.of_nat (size (Sentence.cells s0 ∩ X)))).
Proof.
  split; [apply order_ok_elements|].
  apply (add_mines_spec elements (Sentence.mk {[(0, 0)]} 1) linked_engine
           order_ok_elements).
Defined.

(** ** Clues that settle every neighbour *)

Lemma known_safes_zero (cs : Cells) :
  (Sentence.known_safes (Sentence.mk cs 0)).1 = cs.
Proof. reflexivity. Qed.

Lemma known_mines_full (cs : Cells) :
  (Sentence.known_mines (Sentence.mk cs (Z.of_nat (size cs)))).1 = cs.
Proof.
  unfold Sentence.known_mines, Sentence.len. cbn [Sentence.count Sentence.cells].
  by rewrite Z.eqb_refl.
Qed.

Section Settled.

Context (order : Cells → list Cell) (I : AI → Prop).

Hypothesis Hsafe : ∀ a c, I a → I (marked_safe c a).
Hypothesis Hmine : ∀ a c, I a → I (marked_mine c a).
Hypothesis Hsafe_again : ∀ a c, I a → I (set_safes (add c) a).
Hypothesis Hmine_again : ∀ a c, I a → I (set_mines (add c) a).
Hypothesis Happend : ∀ a s, I a → I (set_knowledge (append s) a).

Lemma settled_closure (fuel : nat) (a : AI) :
  I a → wp any_event I (MinesweeperAI.closure_pass order fuel) (fun _ => I) a.
Proof.
  intros Ha. unfold MinesweeperAI.closure_pass.
  apply (outer_loop_inv order any_event I any_sentence any_cell any_cell);
    try done; eauto using update_events_any.
Qed.

Lemma settled_append (s : Sentence.t) (a : AI) :
  I a →
  wp any_event I (self ← get;
                  when (negb (contains (knowledge self) s))
                       (modify (set_knowledge (append s))))
     (fun _ => I) a.
Proof.
  intros Ha. apply (wp_append_new any_event I any_sentence); try done; eauto.
Qed.

Lemma settled_add_safes (s : Sentence.t) (a : AI) :
  I a → wp any_event I (MinesweeperAI.add_safes order s) (fun _ => I) a.
Proof.
  intros Ha.
  apply (add_safes_inv order any_event I any_sentence any_cell);
    try done; eauto using update_events_any.
Qed.

Lemma settled_add_mines (s : Sentence.t) (a : AI) :
  I a → wp any_event I (MinesweeperAI.add_mines order s) (fun _ => I) a.
Proof.
  intros Ha.
  apply (add_mines_inv order any_event I any_sentence any_cell);
    try done; eauto using update_events_any.
Qed.

End Settled.

(** X13.  A clue of 0 settles the whole neighbourhood: after
    [add_knowledge cell 0] for a cell of the board, the cell and all its
    neighbours are in [safes], whatever the engine held before and
    whatever becomes of the closure pass. *)
Theorem zero_clue_clears_neighbours (order : Cells → list Cell) (fuel : nat)
    (cell : Cell) (a : AI) :
  order_ok order →
  MinesweeperAI.in_bounds (height a) (width a) cell = true →
  MinesweeperAI.neighbourhood (height a) (width a) cell
  ⊆ safes (MinesweeperAI.add_knowledge order fuel cell 0 a).1.2.
Proof.
  intros Ho Hb.
  set (nb := MinesweeperAI.neighbourhood (height a) (width a) cell).
  set (I := fun a' : AI => nb ⊆ safes a').
  assert (wp any_event I (MinesweeperAI.add_knowledge order fuel cell 0)
            (fun _ => I) a) as [_ Hend].
  { assert (Hs1 : ∀ a0 c, I a0 → I (marked_safe c a0))
      by (intros a0 c; unfold I, marked_safe, add; simpl; clearbody nb; set_solver).
    assert (Hs2 : ∀ a0 c, I a0 → I (marked_mine c a0)) by done.
    assert (Hs3 : ∀ a0 c, I a0 → I (set_safes (add c) a0))
      by (intros a0 c; unfold I, add; simpl; clearbody nb; set_solver).
    assert (Hs4 : ∀ a0 c, I a0 → I (set_mines (add c) a0)) by done.
    assert (Hs5 : ∀ a0 s, I a0 → I (set_knowledge (append s) a0)) by done.
    unfold MinesweeperAI.add_knowledge, MinesweeperAI.add_clue.
    apply wp_bind, wp_bind, wp_modify; [done|].
    apply wp_bind, wp_mark_safe; [done|apply update_events_any|].
    apply wp_bind, (wp_find_neighbours _ _ _ _ _ (height a) (width a));
      [done..|]. fold nb.
    apply wp_bind, wp_construct; [done|].
    apply wp_bind. eapply wp_mono; [by apply (add_safes_run order Ho)|done|done|].
    intros _ a1 (_ & _ & Hsafes & _). rewrite known_safes_zero in Hsafes.
    assert (Ha1 : I a1).
    { unfold I. rewrite Hsafes. unfold marked_safe.
      cbn [safes with_knowledge set_knowledge set_safes set_moves_made].
      unfold add. clear. clearbody nb. intros c Hc.
      destruct (decide (c = cell)) as [->|]; set_solver. }
    apply wp_bind. eapply wp_conseq; [by apply settled_add_mines|].
    intros u2 a2 Ha2. eapply wp_conseq; [by apply settled_append|].
    intros u3 a3 Ha3. by apply settled_closure. }
  by destruct (MinesweeperAI.add_knowledge order fuel cell 0 a).1.1.
Qed.

Lemma zero_clue_clears_neighbours_witness :
  order_ok elements ∧
  MinesweeperAI.in_bounds (height (MinesweeperAI.__init__ 8 8))
                          (width (MinesweeperAI.__init__ 8 8)) (0, 0) = true ∧
  MinesweeperAI.neighbourhood (height (MinesweeperAI.__init__ 8 8))
                              (width (MinesweeperAI.__init__ 8 8)) (0, 0)
  ⊆ safes (MinesweeperAI.add_knowledge elements 8 (0, 0) 0
             (MinesweeperAI.__init__ 8 8)).1.2.
Proof.
  split; [apply order_ok_elements|]. split; [reflexivity|].
  apply (zero_clue_clears_neighbours elements 8 (0, 0) (MinesweeperAI.__init__ 8 8)
           order_ok_elements eq_refl).
Defined.

(** X14.  A clue equal to the number of neighbours flags them all: after
    [add_knowledge cell n] for a cell of the board with exactly [n]
    neighbours, every neighbour of the cell is in [mines], whatever the
    engine held before and whatever becomes of the closure pass. *)
Theorem full_clue_flags_neighbours (order : Cells → list Cell) (fuel : nat)
    (cell : Cell) (a : AI) :
  order_ok order →
  MinesweeperAI.in_bounds (height a) (width a) cell = true →
  let nb := MinesweeperAI.neighbourhood (height a) (width a) cell ∖ {[cell]} in
  nb ⊆ mines (MinesweeperAI.add_knowledge order fuel cell (Z.of_nat (size nb)) a).1.2.
Proof.
  intros Ho Hb nb.
  destruct (decide (nb = ∅)) as [->|Hne]; [set_solver|].
  assert (Hsize : Z.of_nat (size nb) ≠ 0).
  { intros Hz. apply Hne, leibniz_equiv, size_empty_inv. lia. }
  set (I := fun a' : AI => nb ⊆ mines a').
  assert (wp any_event I
            (MinesweeperAI.add_knowledge order fuel cell (Z.of_nat (size nb)))
            (fun _ => I) a) as [_ Hend].
  { assert (Hs1 : ∀ a0 c, I a0 → I (marked_safe c a0)) by done.
    assert (Hs2 : ∀ a0 c, I a0 → I (marked_mine c a0)).
    { intros a0 c. unfold I, marked_mine.
      cbn [mines with_knowledge set_knowledge set_mines]. unfold add.
      clearbody nb. clear. set_solver. }
    assert (Hs3 : ∀ a0 c, I a0 → I (set_safes (add c) a0)) by done.
    assert (Hs4 : ∀ a0 c, I a0 → I (set_mines (add c) a0)).
    { intros a0 c. unfold I. cbn [mines set_mines]. unfold add.
      clearbody nb. clear. set_solver. }
    assert (Hs5 : ∀ a0 s, I a0 → I (set_knowledge (append s) a0)) by done.
    unfold MinesweeperAI.add_knowledge, MinesweeperAI.add_clue.
    apply wp_bind, wp_bind, wp_modify; [done|].
    apply wp_bind, wp_mark_safe; [done|apply update_events_any|].
    apply wp_bind, (wp_find_neighbours _ _ _ _ _ (height a) (width a));
      [done..|]. fold nb.
    apply wp_bind, wp_construct; [done|].
    apply wp_bind, (wp_add_safes_idle order Ho).
    { unfold Sentence.known_safes. cbn [Sentence.count].
      by destruct (Z.eqb_spec (Z.of_nat (size nb)) 0). }
    apply wp_bind. eapply wp_mono; [by apply (add_mines_run order Ho)|done|done|].
    intros u1 a1 (_ & _ & Hmines & _). rewrite known_mines_full in Hmines.
    assert (Ha1 : I a1).
    { unfold I. rewrite Hmines. clearbody nb. clear. set_solver. }
    eapply wp_conseq; [by apply settled_append|].
    intros u3 a3 Ha3. by apply settled_closure. }
  by destruct (MinesweeperAI.add_knowledge order fuel cell (Z.of_nat (size nb)) a).1.1.
Qed.

Lemma full_clue_flags_neighbours_witness :
  order_ok elements ∧
  MinesweeperAI.in_bounds (height (MinesweeperAI.__init__ 8 8))
                          (width (MinesweeperAI.__init__ 8 8)) (0, 0) = true ∧
  let nb := MinesweeperAI.neighbourhood (height (MinesweeperAI.__init__ 8 8))
              (width (MinesweeperAI.__init__ 8 8)) (0, 0) ∖ {[(0, 0)]} in
  nb ⊆ mines (MinesweeperAI.add_knowledge elements 8 (0, 0) (Z.of_nat (size nb))
                (MinesweeperAI.__init__ 8 8)).1.2.
Proof.
  split; [apply order_ok_elements|]. split; [reflexivity|].
  apply (full_clue_flags_neighbours elements 8 (0, 0) (MinesweeperAI.__init__ 8 8)
           order_ok_elements eq_refl).
Defined.

(** ** What a call of [add_knowledge] leaves behind, whatever its outcome *)

(** X15.  A report for a cell that is not on the board makes
    [add_knowledge] stop with the [KeyError] of [find_neighbours]; by then
    the cell has been recorded as a move and marked safe (it is in [safes]
    and removed from every stored sentence), and nothing else has changed:
    the call is not undone. *)
Theorem add_knowledge_off_board (order : Cells → list Cell) (fuel : nat)
    (cell : Cell) (n : Z) (a : AI) :
  MinesweeperAI.in_bounds (height a) (width a) cell = false →
  (MinesweeperAI.add_knowledge order fuel cell n a).1 =
  (Raise KeyError, marked_safe cell (set_moves_made (add cell) a)).
Proof.
  intros Hb.
  destruct (mark_safe_run cell (set_moves_made (add cell) a)) as [tr Hms].
  unfold MinesweeperAI.add_knowledge, MinesweeperAI.add_clue.
  unfold bind at 1. rewrite run_bind_modify.
  unfold bind at 1. rewrite Hms.
  unfold bind at 1. rewrite find_neighbours_run. simpl. rewrite Hb. done.
Qed.

Lemma add_knowledge_off_board_witness :
  MinesweeperAI.in_bounds (height (MinesweeperAI.__init__ 8 8))
                          (width (MinesweeperAI.__init__ 8 8)) (8, 0) = false ∧
  (MinesweeperAI.add_knowledge elements 0 (8, 0) 0 (MinesweeperAI.__init__ 8 8)).1 =
  (Raise KeyError,
   marked_safe (8, 0) (set_moves_made (add (8, 0)) (MinesweeperAI.__init__ 8 8))).
Proof.
  split; [reflexivity|].
  apply (add_knowledge_off_board elements 0 (8, 0) 0 (MinesweeperAI.__init__ 8 8)
           eq_refl).
Defined.

(** An invariant that holds once the reported cell has been marked safe. *)
Section FromMark.

Context (order : Cells → list Cell) (I : AI → Prop) (V : Sentence.t → Prop).

Hypothesis Hsafe : ∀ a c, I a → I (marked_safe c a).
Hypothesis Hmine : ∀ a c, I a → I (marked_mine c a).
Hypothesis Hsafe_again : ∀ a c, I a → I (set_safes (add c) a).
Hypothesis Hmine_again : ∀ a c, I a → I (set_mines (add c) a).
Hypothesis Happend : ∀ a s, I a → V s → I (set_knowledge (append s) a).
Hypothesis Hreduced : ∀ s c n,
  V s → V (Sentence.mk (Sentence.cells s ∖ {[c]}) n).
Hypothesis Hderived : ∀ a i j snt snt2,
  I a → knowledge a !! i = Some snt → knowledge a !! j = Some snt2 →
  V (Sentence.mk (Sentence.cells snt2 ∖ Sentence.cells snt)
                 (Sentence.count snt2 - Sentence.count snt)).

Lemma add_knowledge_from_mark (fuel : nat) (cell : Cell) (n : Z) (a : AI) :
  I (marked_safe cell (set_moves_made (add cell) a)) →
  V (Sentence.mk
       (MinesweeperAI.neighbourhood (height a) (width a) cell ∖ {[cell]}) n) →
  wp any_event I (MinesweeperAI.add_knowledge order fuel cell n) (fun _ => I) a.
Proof.
  intros Ha1 Hsent.
  unfold MinesweeperAI.add_knowledge, MinesweeperAI.add_clue.
  apply wp_bind, wp_bind, wp_modify; [done|].
  apply wp_bind, wp_mark_safe; [done|apply update_events_any|].
  unfold MinesweeperAI.find_neighbours.
  apply wp_bind, wp_bind, wp_get. simpl.
  apply wp_bind, wp_ret. apply wp_remove; [intros _|done].
  apply wp_bind, wp_construct; [done|].
  eapply wp_conseq.
  - apply (resolve_and_register_inv order any_event I V any_cell any_cell);
      try done; eauto using update_events_any.
    intros a' Ha'.
    apply (wp_append_new any_event I V); try done; eauto.
  - intros _u a' Ha'.
    apply (outer_loop_inv order any_event I V any_cell any_cell);
      try done; eauto using update_events_any.
Qed.

End FromMark.

(** What [add_knowledge a cell] guarantees of the engine it leaves. *)
Definition reported (a : AI) (cell : Cell) (a' : AI) : Prop :=
  height a' = height a ∧ width a' = width a ∧
  moves_made a' = {[cell]} ∪ moves_made a ∧
  cell ∈ safes a' ∧ safes a ⊆ safes a' ∧ mines a ⊆ mines a' ∧
  (length (knowledge a) ≤ length (knowledge a'))%nat ∧
  Forall (fun s => cell ∉ Sentence.cells s) (knowledge a').

Lemma Forall_absent_universe (c : Cell) (K : list Sentence.t) :
  Forall (fun s => c ∉ Sentence.cells s) K ↔ c ∉ universe K.
Proof.
  rewrite elem_of_universe, Forall_forall. naive_solver.
Qed.

Lemma add_knowledge_reported (order : Cells → list Cell) (fuel : nat)
    (cell : Cell) (n : Z) (a : AI) :
  reported a cell (MinesweeperAI.add_knowledge order fuel cell n a).1.2.
Proof.
  assert (wp any_event (reported a cell)
            (MinesweeperAI.add_knowledge order fuel cell n)
            (fun _ => reported a cell) a) as [_ Hend].
  { apply (add_knowledge_from_mark order (reported a cell)
             (fun s => cell ∉ Sentence.cells s)); unfold reported.
    - intros a0 c (? & ? & ? & ? & ? & ? & ? & Habs).
      unfold marked_safe, add; simpl. rewrite length_fmap.
      repeat split; try done; [set_solver..|].
      apply Forall_absent_universe. apply Forall_absent_universe in Habs.
      pose proof (universe_mark_safe c (knowledge a0)). set_solver.
    - intros a0 c (? & ? & ? & ? & ? & ? & ? & Habs).
      unfold marked_mine, add; simpl. rewrite length_fmap.
      repeat split; try done; [set_solver..|].
      apply Forall_absent_universe. apply Forall_absent_universe in Habs.
      pose proof (universe_mark_mine c (knowledge a0)). set_solver.
    - intros a0 c (? & ? & ? & ? & ? & ? & ? & ?). unfold add; simpl.
      repeat split; try done; set_solver.
    - intros a0 c (? & ? & ? & ? & ? & ? & ? & ?). unfold add; simpl.
      repeat split; try done; set_solver.
    - intros a0 s (? & ? & ? & ? & ? & ? & ? & ?) Hs. unfold append; simpl.
      rewrite length_app. simpl.
      repeat split; try done; try lia.
      apply Forall_app. split; [done|]. by constructor.
    - intros s c k Hs. simpl. set_solver.
    - intros a0 i j snt snt2 (_ & _ & _ & _ & _ & _ & _ & Habs) _ Hj. simpl.
      rewrite Forall_lookup in Habs. specialize (Habs _ _ Hj). set_solver.
    - unfold marked_safe, add; simpl. rewrite length_fmap.
      repeat split; try done; [set_solver..|].
      apply Forall_absent_universe.
      pose proof (universe_mark_safe cell (knowledge a)). set_solver.
    - simpl. set_solver. }
  by destruct (MinesweeperAI.add_knowledge order fuel cell n a).1.1.
Qed.

(** X16.  Whatever the engine, the clue and the outcome of the call (a
    return, a [KeyError], no return), [add_knowledge] leaves the dimensions
    as they were, adds exactly the reported cell to [moves_made], leaves the
    cell in [safes], removes nothing from [safes] or [mines], does not
    shorten the knowledge list, and leaves no stored sentence that
    mentions the reported cell. *)
Theorem add_knowledge_frame (order : Cells → list Cell) (fuel : nat)
    (cell : Cell) (n : Z) (a : AI) :
  let a' := (MinesweeperAI.add_knowledge order fuel cell n a).1.2 in
  height a' = height a ∧ width a' = width a ∧
  moves_made a' = {[cell]} ∪ moves_made a ∧
  cell ∈ safes a' ∧ safes a ⊆ safes a' ∧ mines a ⊆ mines a' ∧
  (length (knowledge a) ≤ length (knowledge a'))%nat ∧
  Forall (fun s => cell ∉ Sentence.cells s) (knowledge a').
Proof. apply add_knowledge_reported. Qed.

(** ** [add_knowledge] on truthful and on contradictory input *)

(** X17.  One call of [add_knowledge] with a truthful clue keeps truthful
    knowledge truthful at every point of its execution: in every state the
    engine goes through, before and after each single mutation, no cell of
    [safes] holds a mine, every cell of [mines] holds one, and every stored
    sentence counts the mines among its cells correctly. *)
Theorem add_knowledge_sound (order : Cells → list Cell) (L : Cells) (h w : Z)
    (fuel : nat) (cell : Cell) (n : Z) (a : AI) :
  order_ok order →
  sound_on L h w a →
  truthful_clue L h w (cell, n) →
  ∀ a', a' ∈ reached (MinesweeperAI.add_knowledge order fuel cell n) a →
    safes a' ## L ∧ mines a' ⊆ L ∧ Forall (truthful_sentence L) (knowledge a').
Proof.
  intros Ho Ha [Hcell Hn] a' Hreached. simpl in *.
  assert (Sound L a') as [? ? ?]; [|done].
  revert a' Hreached. apply (wp_reached (sound_event L) (Sound L)).
  - by destruct Ha.
  - by intros pre post [Hpre Hpost].
  - eapply wp_mono.
    + by apply (sound_add_knowledge order Ho L h w).
    + done.
    + by intros a' [? _].
    + by intros _ a' [? _].
Qed.

Lemma add_knowledge_sound_witness :
  order_ok elements ∧
  sound_on {[(0, 0)]} 1 5 linked_engine ∧
  truthful_clue {[(0, 0)]} 1 5 ((0, 4), 0) ∧
  ∀ a', a' ∈ reached (MinesweeperAI.add_knowledge elements 8 (0, 4) 0)
                linked_engine →
    safes a' ## ({[(0, 0)]} : Cells) ∧ mines a' ⊆ ({[(0, 0)]} : Cells) ∧
    Forall (truthful_sentence {[(0, 0)]}) (knowledge a').
Proof.
  split; [apply order_ok_elements|].
  split; [apply linked_engine_sound|].
  split; [apply linked_clue_truthful|].
  apply (add_knowledge_sound elements {[(0, 0)]} 1 5 8%nat (0, 4) 0 linked_engine
           order_ok_elements linked_engine_sound linked_clue_truthful).
Defined.

(** X18.  On truthful knowledge, [add_knowledge] with a truthful clue for
    a cell of the board returns: the two nested loops over the growing
    knowledge list come to an end, without an exception, and the result
    does not depend on the fuel once there is enough of it. *)
Theorem add_knowledge_terminates (order : Cells → list Cell) (L : Cells)
    (h w : Z) (cell : Cell) (n : Z) (a : AI) :
  order_ok order →
  sound_on L h w a →
  truthful_clue L h w (cell, n) →
  MinesweeperAI.in_bounds h w cell = true →
  ∃ fuel0 a' tr, ∀ fuel, (fuel0 ≤ fuel)%nat →
    MinesweeperAI.add_knowledge order fuel cell n a = (Ok tt, a', tr).
Proof.
  intros Ho Ha Hclue Hb.
  set (f0 := enough_fuel order cell n a).
  destruct (wp_returns _ _ _ _
              (add_knowledge_returns order Ho L h w cell n a f0 Ha Hclue Hb
                 (Nat.le_refl _))) as ([] & Hok & _).
  exists f0, (MinesweeperAI.add_knowledge order f0 cell n a).1.2,
         (MinesweeperAI.add_knowledge order f0 cell n a).2.
  intros fuel Hfuel.
  rewrite (add_knowledge_more_fuel order f0 fuel) by (rewrite ?Hok; (lia || done)).
  destruct (MinesweeperAI.add_knowledge order f0 cell n a) as [[r a1] tr1].
  simpl in *. by subst r.
Qed.

Lemma add_knowledge_terminates_witness :
  order_ok elements ∧
  sound_on {[(0, 0)]} 1 5 linked_engine ∧
  truthful_clue {[(0, 0)]} 1 5 ((0, 4), 0) ∧
  MinesweeperAI.in_bounds 1 5 (0, 4) = true ∧
  ∃ fuel0 a' tr, ∀ fuel, (fuel0 ≤ fuel)%nat →
    MinesweeperAI.add_knowledge elements fuel (0, 4) 0 linked_engine
    = (Ok tt, a', tr).
Proof.
  split; [apply order_ok_elements|].
  split; [apply linked_engine_sound|].
  split; [apply linked_clue_truthful|].
  split; [reflexivity|].
  apply (add_knowledge_terminates elements {[(0, 0)]} 1 5 (0, 4) 0 linked_engine
           order_ok_elements linked_engine_sound linked_clue_truthful eq_refl).
Defined.

(** On a 1 by 2 board, the engine after the clue [(0,0), 0]. *)
Definition cleared_engine : AI :=
  mkAI 1 2 {[(0, 0)]} ∅ {[(0, 0); (0, 1)]} [Sentence.mk {[(0, 1)]} 0].

(** The knowledge while the closure pass of the contradicting clue
    [(0,0), 1] runs: the emptied sentence [{} = -1], then [{(0,1)} = k] for
    [k] from 1 to [m]. *)
Definition stuck_knowledge (m : nat) : list Sentence.t :=
  Sentence.mk ∅ (-1) ::
  ((fun k => Sentence.mk {[(0, 1)]} (Z.of_nat k)) <$> seq 1 m).

Definition stuck (m : nat) : AI :=
  mkAI 1 2 {[(0, 0)]} {[(0, 1)]} {[(0, 0); (0, 1)]} (stuck_knowledge m).

Lemma cleared_engine_reached (order : Cells → list Cell) (fuel : nat) :
  order_ok order → (3 ≤ fuel)%nat →
  (MinesweeperAI.add_knowledge order fuel (0, 0) 0 (MinesweeperAI.__init__ 1 2)).1
  = (Ok tt, cleared_engine).
Proof.
  intros Ho Hfuel.
  rewrite (add_knowledge_more_fuel order 3 fuel) by
    (try done; rewrite (order_ok_small order Ho); by vm_compute).
  rewrite (order_ok_small order Ho). by vm_compute.
Qed.

Lemma stuck_reached (order : Cells → list Cell) :
  order_ok order →
  (MinesweeperAI.add_clue order (0, 0) 1 cleared_engine).1 = (Ok tt, stuck 1).
Proof. intros Ho. rewrite (order_ok_small order Ho). by vm_compute. Qed.

Lemma stuck_knowledge_S (m : nat) :
  stuck_knowledge (S m) =
  stuck_knowledge m ++ [Sentence.mk {[(0, 1)]} (Z.of_nat (S m))].
Proof. unfold stuck_knowledge. by rewrite seq_S, fmap_app. Qed.

Lemma contains_stuck (m k : nat) :
  contains (stuck_knowledge m) (Sentence.mk {[(0, 1)]} (Z.of_nat (S k)))
  = bool_decide (S k ≤ m)%nat.
Proof.
  induction m as [|m IH].
  - rewrite (bool_decide_eq_false_2 (S k ≤ 0)%nat) by lia. by vm_compute.
  - rewrite stuck_knowledge_S. unfold contains in *. rewrite existsb_app, IH.
    unfold Sentence.__eq__. cbn [existsb Sentence.cells Sentence.count].
    rewrite (bool_decide_eq_true_2 (_ = _)) by done.
    rewrite orb_false_r, andb_true_l.
    destruct (Z.eqb_spec (Z.of_nat (S m)) (Z.of_nat (S k)));
      repeat case_bool_decide; simpl; try done; lia.
Qed.

Lemma stuck_lookup (m j : nat) :
  (j < m)%nat →
  stuck_knowledge m !! S j = Some (Sentence.mk {[(0, 1)]} (Z.of_nat (S j))).
Proof.
  intros Hj. unfold stuck_knowledge. simpl.
  by rewrite list_lookup_fmap, lookup_seq_lt.
Qed.

Section Stuck.

Context (order : Cells → list Cell) (Horder : order_ok order).

Lemma derive_stuck (m j : nat) :
  (j < m)%nat →
  ∃ tr, MinesweeperAI.derive order (Sentence.mk ∅ (-1))
          (Sentence.mk {[(0, 1)]} (Z.of_nat (S j))) (stuck m)
        = (Ok tt, stuck (m `max` S (S j)), tr).
Proof.
  intros Hj.
  assert (wp any_event never
            (MinesweeperAI.derive order (Sentence.mk ∅ (-1))
               (Sentence.mk {[(0, 1)]} (Z.of_nat (S j))))
            (fun _ a' => a' = stuck (m `max` S (S j))) (stuck m)) as Hwp.
  { unfold MinesweeperAI.derive. apply wp_when.
    2:{ intros Hf. exfalso. apply andb_false_iff in Hf as [Hf|Hf].
        - by vm_compute in Hf.
        - apply bool_decide_eq_false in Hf. apply Hf. simpl. set_solver. }
    intros _. cbn [Sentence.cells Sentence.count].
    assert ((({[(0, 1)]} : Cells) ∖ ∅) = {[(0, 1)]}) as -> by set_solver.
    replace (Z.of_nat (S j) - -1) with (Z.of_nat (S (S j))) by lia.
    apply wp_bind, wp_construct; [done|].
    apply wp_bind, (wp_add_safes_idle order Horder).
    { unfold Sentence.known_safes. cbn [Sentence.count].
      by destruct (Z.eqb_spec (Z.of_nat (S (S j))) 0); [lia|]. }
    apply wp_bind, (wp_add_mines_idle order Horder).
    { unfold Sentence.known_mines, Sentence.len.
      cbn [Sentence.count Sentence.cells]. rewrite size_singleton.
      by destruct (Z.eqb_spec (Z.of_nat (S (S j))) (Z.of_nat 1)); [lia|]. }
    apply wp_bind, wp_get.
    cbn [Sentence.cells Sentence.count knowledge stuck].
    unfold Sentence.len. cbn [Sentence.cells].
    rewrite size_singleton, contains_stuck.
    destruct (Z.eqb_spec (Z.of_nat (S (S j))) 0); [lia|].
    destruct (Z.eqb_spec (Z.of_nat (S (S j))) (Z.of_nat 1)); [lia|].
    cbn [negb andb].
    apply wp_when.
    - intros Hc%negb_true_iff%bool_decide_eq_false.
      apply wp_modify; [done|].
      assert (m = S j) as -> by lia.
      replace (S j `max` S (S j))%nat with (S (S j)) by lia.
      unfold stuck, set_knowledge, append; simpl knowledge.
      by rewrite (stuck_knowledge_S (S j)).
    - intros Hc%negb_false_iff%bool_decide_eq_true.
      by replace (m `max` S (S j))%nat with m by lia. }
  destruct (wp_returns _ _ _ _ Hwp) as ([] & Hok & Hst).
  destruct (MinesweeperAI.derive order _ _ (stuck m)) as [[r a'] tr].
  simpl in *. subst. by eexists.
Qed.

Lemma derive_same (s : Sentence.t) (a : AI) :
  MinesweeperAI.derive order s s a = (Ok tt, a, []).
Proof.
  unfold MinesweeperAI.derive, Sentence.__ne__, Sentence.__eq__.
  rewrite bool_decide_eq_true_2 by done. by rewrite Z.eqb_refl.
Qed.

Lemma inner_loop_stuck (fuel j m : nat) :
  (1 ≤ m)%nat → (j ≤ m)%nat →
  (MinesweeperAI.inner_loop order fuel 0 j (stuck m)).1.1 = OutOfFuel.
Proof.
  revert j m. induction fuel as [|fuel IH]; intros j m Hm Hj; [done|].
  rewrite inner_loop_unfold.
  destruct j as [|j].
  - cbn [knowledge stuck stuck_knowledge lookup list_lookup].
    unfold bind. rewrite derive_same.
    specialize (IH 1%nat m Hm Hm).
    by destruct (MinesweeperAI.inner_loop order fuel 0 1 (stuck m)) as [[r a'] tr].
  - cbn [knowledge stuck]. rewrite stuck_lookup by lia.
    cbn [stuck_knowledge lookup list_lookup].
    destruct (derive_stuck m j ltac:(lia)) as [tr Hd].
    unfold bind. rewrite Hd.
    specialize (IH (S (S j)) (m `max` S (S j))%nat ltac:(lia) ltac:(lia)).
    by destruct (MinesweeperAI.inner_loop order fuel 0 (S (S j))
                   (stuck (m `max` S (S j)))) as [[r a'] tr'].
Qed.

Lemma closure_pass_stuck (fuel : nat) :
  (MinesweeperAI.closure_pass order fuel (stuck 1)).1.1 = OutOfFuel.
Proof.
  unfold MinesweeperAI.closure_pass. destruct fuel as [|fuel]; [done|].
  rewrite outer_loop_unfold. cbn [knowledge stuck stuck_knowledge lookup list_lookup].
  unfold bind.
  pose proof (inner_loop_stuck fuel 0 1 ltac:(lia) ltac:(lia)) as Hin.
  by destruct (MinesweeperAI.inner_loop order fuel 0 0 (stuck 1)) as [[[]] ?].
Qed.

End Stuck.

(** X19.  Without truthful input the call need not return.  On a 1 by 2
    board, [add_knowledge (0,0) 0] returns; a second report for the same
    cell with the count 1 then marks [(0,1)], known safe, as a mine, which
    turns the stored sentence [{(0,1)} = 0] into [{} = -1], and the closure
    pass derives [{(0,1)} = 2], [{(0,1)} = 3], ... from it without end:
    the call runs out of fuel whatever the fuel, for every enumeration
    order. *)
Theorem contradictory_clue_never_returns (order : Cells → list Cell) :
  order_ok order →
  (∀ fuel, (3 ≤ fuel)%nat →
     (MinesweeperAI.add_knowledge order fuel (0, 0) 0 (MinesweeperAI.__init__ 1 2)).1
     = (Ok tt, cleared_engine)) ∧
  (∀ fuel,
     (MinesweeperAI.add_knowledge order fuel (0, 0) 1 cleared_engine).1.1
     = OutOfFuel).
Proof.
  intros Ho. split; [intros fuel; by apply cleared_engine_reached|].
  intros fuel. unfold MinesweeperAI.add_knowledge, bind.
  pose proof (stuck_reached order Ho) as Hclue.
  destruct (MinesweeperAI.add_clue order (0, 0) 1 cleared_engine) as [[r a1] tr1].
  simpl in Hclue. injection Hclue as -> ->.
  pose proof (closure_pass_stuck order Ho fuel) as Hc.
  by destruct (MinesweeperAI.closure_pass order fuel (stuck 1)) as [[[]] ?].
Qed.

Lemma contradictory_clue_never_returns_witness :
  order_ok elements ∧
  (∀ fuel, (3 ≤ fuel)%nat →
     (MinesweeperAI.add_knowledge elements fuel (0, 0) 0
        (MinesweeperAI.__init__ 1 2)).1
     = (Ok tt, cleared_engine)) ∧
  (∀ fuel,
     (MinesweeperAI.add_knowledge elements fuel (0, 0) 1 cleared_engine).1.1
     = OutOfFuel).
Proof.
  split; [apply order_ok_elements|].
  apply (contradictory_clue_never_returns elements order_ok_elements).
Defined.

(** ** The engine stays on the board *)

(** Every cell the engine holds, in its three sets or in a stored
    sentence, is a cell of the [h] by [w] board. *)
Definition on_board (h w : Z) (a : AI) : Prop :=
  height a = h ∧ width a = w ∧
  ∀ c : Cell,
    c ∈ moves_made a ∪ safes a ∪ mines a ∪ universe (knowledge a) →
    MinesweeperAI.in_bounds h w c = true.

(** The cells of the sentence are cells of the board. *)
Definition within (h w : Z) (s : Sentence.t) : Prop :=
  ∀ c : Cell, c ∈ Sentence.cells s → MinesweeperAI.in_bounds h w c = true.

Lemma on_board_add_knowledge (order : Cells → list Cell) (h w : Z) (fuel : nat)
    (cell : Cell) (n : Z) (a : AI) :
  order_ok order →
  on_board h w a →
  MinesweeperAI.in_bounds h w cell = true →
  wp any_event (on_board h w) (MinesweeperAI.add_knowledge order fuel cell n)
     (fun _ => on_board h w) a.
Proof.
  intros Ho Ha Hb.
  apply (add_knowledge_inv order any_event (on_board h w) (within h w)
           (fun c => MinesweeperAI.in_bounds h w c = true)
           (fun c => MinesweeperAI.in_bounds h w c = true));
    unfold on_board, within; try done.
  - intros a0 c (? & ? & Hin) Hc. unfold marked_safe, add; simpl.
    repeat split; try done. intros c'.
    pose proof (universe_mark_safe c (knowledge a0)).
    destruct (decide (c' = c)) as [->|]; [done|]. intros ?. apply Hin. set_solver.
  - intros a0 c (? & ? & Hin) Hc. unfold marked_mine, add; simpl.
    repeat split; try done. intros c'.
    pose proof (universe_mark_mine c (knowledge a0)).
    destruct (decide (c' = c)) as [->|]; [done|]. intros ?. apply Hin. set_solver.
  - intros a0 c (? & ? & Hin) Hc. unfold add; simpl.
    repeat split; try done. intros c'.
    destruct (decide (c' = c)) as [->|]; [done|]. intros ?. apply Hin. set_solver.
  - intros a0 c (? & ? & Hin) Hc. unfold add; simpl.
    repeat split; try done. intros c'.
    destruct (decide (c' = c)) as [->|]; [done|]. intros ?. apply Hin. set_solver.
  - intros a0 s (? & ? & Hin) Hs _. unfold append; simpl.
    repeat split; try done. intros c'. rewrite universe_app.
    intros Hc'. destruct (decide (c' ∈ Sentence.cells s)); [by apply Hs|].
    apply Hin. set_solver.
  - intros s c Hs Hc%(order_ok_elem _ _ _ Ho).
    apply known_safes_elem in Hc as [_ Hc]. by apply Hs.
  - intros s c Hs Hc%(order_ok_elem _ _ _ Ho).
    apply known_mines_elem in Hc as [_ Hc]. by apply Hs.
  - intros s c Hs _ _ c'. simpl. intros Hc'. apply Hs. set_solver.
  - intros s c Hs _ _ c'. simpl. intros Hc'. apply Hs. set_solver.
  - intros a0 i j snt snt2 (_ & _ & Hin) _ Hj _ c'. simpl. intros Hc'.
    apply Hin. apply elem_of_union_r, elem_of_universe. exists snt2.
    split; [by eapply list_elem_of_lookup_2|set_solver].
  - destruct Ha as (? & ? & Hin). unfold add; simpl.
    repeat split; try done. intros c'.
    destruct (decide (c' = cell)) as [->|]; [done|]. intros ?. apply Hin. set_solver.
  - intros _ c'. simpl. destruct Ha as (-> & -> & _).
    rewrite elem_of_difference, elem_of_neighbourhood. tauto.
Qed.

Lemma on_board_init (h w : Z) : on_board h w (MinesweeperAI.__init__ h w).
Proof.
  repeat split. intros c. unfold universe. simpl. set_solver.
Qed.

(** X20.  The engine stays on the board: when every cell it holds (in
    [moves_made], [safes], [mines] or a stored sentence) is a cell of the
    board and a clue is reported for a cell of the board, every cell it
    holds after the call is a cell of the board, whatever the outcome. *)
Theorem add_knowledge_stays_on_board (order : Cells → list Cell) (h w : Z)
    (fuel : nat) (cell : Cell) (n : Z) (a : AI) :
  order_ok order →
  on_board h w a →
  MinesweeperAI.in_bounds h w cell = true →
  on_board h w (MinesweeperAI.add_knowledge order fuel cell n a).1.2.
Proof.
  intros Ho Ha Hb.
  destruct (on_board_add_knowledge order h w fuel cell n a Ho Ha Hb) as [_ Hend].
  by destruct (MinesweeperAI.add_knowledge order fuel cell n a).1.1.
Qed.

Lemma add_knowledge_stays_on_board_witness :
  order_ok elements ∧
  on_board 8 8 (MinesweeperAI.__init__ 8 8) ∧
  MinesweeperAI.in_bounds 8 8 (0, 0) = true ∧
  on_board 8 8
    (MinesweeperAI.add_knowledge elements 8 (0, 0) 1 (MinesweeperAI.__init__ 8 8)).1.2.
Proof.
  split; [apply order_ok_elements|].
  split; [apply on_board_init|].
  split; [reflexivity|].
  apply (add_knowledge_stays_on_board elements 8 8 8%nat (0, 0) 1
           (MinesweeperAI.__init__ 8 8) order_ok_elements (on_board_init 8 8)
           eq_refl).
Defined.

Lemma on_board_report_all (order : Cells → list Cell) (h w : Z) (fuel : nat)
    (clues : list (Cell * Z)) (a : AI) :
  order_ok order →
  on_board h w a →
  Forall (fun clue => MinesweeperAI.in_bounds h w clue.1 = true) clues →
  wp any_event (on_board h w) (report_all order fuel clues)
     (fun _ => on_board h w) a.
Proof.
  intros Ho Ha Hclues. unfold report_all.
  apply wp_foreach; [done|].
  intros [cell n] a' Hin Ha'. rewrite Forall_forall in Hclues.
  specialize (Hclues _ Hin). simpl in *.
  by apply wp_attempt, on_board_add_knowledge.
Qed.

(** ** Sessions of calls *)

(** From [a] to [a'] the dimensions are kept, the three sets have lost no
    cell and the knowledge list has not become shorter. *)
Definition grows (a a' : AI) : Prop :=
  height a' = height a ∧ width a' = width a ∧
  moves_made a ⊆ moves_made a' ∧ safes a ⊆ safes a' ∧ mines a ⊆ mines a' ∧
  (length (knowledge a) ≤ length (knowledge a'))%nat.

Lemma grows_refl (a : AI) : grows a a.
Proof. by repeat split. Qed.

Lemma grows_trans (a a1 a2 : AI) : grows a a1 → grows a1 a2 → grows a a2.
Proof.
  intros (? & ? & ? & ? & ? & ?) (? & ? & ? & ? & ? & ?).
  repeat split; [congruence|congruence|set_solver..|lia].
Qed.

Lemma grows_marked_safe (c : Cell) (a : AI) : grows a (marked_safe c a).
Proof.
  unfold grows, marked_safe, add; simpl. rewrite length_fmap.
  repeat split; try done. set_solver.
Qed.

Lemma grows_marked_mine (c : Cell) (a : AI) : grows a (marked_mine c a).
Proof.
  unfold grows, marked_mine, add; simpl. rewrite length_fmap.
  repeat split; try done. set_solver.
Qed.

Lemma grows_steps (a0 : AI) :
  (∀ a c, grows a0 a → grows a0 (marked_safe c a)) ∧
  (∀ a c, grows a0 a → grows a0 (marked_mine c a)) ∧
  (∀ a c, grows a0 a → grows a0 (set_safes (add c) a)) ∧
  (∀ a c, grows a0 a → grows a0 (set_mines (add c) a)) ∧
  (∀ a s, grows a0 a → grows a0 (set_knowledge (append s) a)).
Proof.
  split; [|split; [|split; [|split]]]; intros a x Ha;
    (eapply grows_trans; [exact Ha|]).
  - apply grows_marked_safe.
  - apply grows_marked_mine.
  - unfold grows, add; simpl. repeat split; try done. set_solver.
  - unfold grows, add; simpl. repeat split; try done. set_solver.
  - unfold grows, append; simpl. rewrite length_app. simpl.
    repeat split; try done. lia.
Qed.

(** The cell a pair of raw draws stands for on the board of [a], and
    whether [make_random_move] accepts it. *)
Definition drawn (a : AI) (r : Z * Z) : Cell :=
  (r.1 mod height a, r.2 mod width a).

Definition eligible (a : AI) (c : Cell) : bool :=
  negb (bool_decide (c ∈ moves_made a)) && negb (bool_decide (c ∈ mines a)).

Lemma make_random_move_step (r : Z * Z) (rng : list (Z * Z)) (a : AI) :
  MinesweeperAI.make_random_move (r :: rng) a =
  if (0 <? height a) && (0 <? width a)
  then if eligible a (drawn a r) then (Ok (drawn a r), a, [])
       else MinesweeperAI.make_random_move rng a
  else (Raise ValueError, a, []).
Proof.
  destruct r as [r1 r2]. simpl.
  unfold bind at 1, get; simpl.
  unfold bind at 1. rewrite randint_run.
  destruct (Z.leb_spec 0 (height a - 1)); destruct (Z.ltb_spec 0 (height a));
    try lia; [|done].
  unfold bind at 1. rewrite randint_run.
  destruct (Z.leb_spec 0 (width a - 1)); destruct (Z.ltb_spec 0 (width a));
    try lia; [|done].
  simpl. rewrite !Z.sub_0_r, !Z.add_0_l.
  replace (height a - 1 + 1) with (height a) by lia.
  replace (width a - 1 + 1) with (width a) by lia.
  rewrite !triple_eta. unfold eligible, drawn. simpl.
  by repeat case_bool_decide.
Qed.

Lemma make_random_move_state (rng : list (Z * Z)) (a : AI) :
  (MinesweeperAI.make_random_move rng a).1.2 = a.
Proof.
  induction rng as [|r rng IH]; [done|]. rewrite make_random_move_step.
  destruct ((0 <? height a) && (0 <? width a)); [|done].
  by destruct (eligible a (drawn a r)).
Qed.

Lemma grows_perform (order : Cells → list Cell) (call : Call) (a : AI) :
  grows a (perform order call a).1.2.
Proof.
  destruct (grows_steps a) as (H1 & H2 & H3 & H4 & H5).
  destruct call as [cell|cell|fuel cell n| |rng|s|s]; simpl.
  - destruct (mark_mine_run cell a) as [tr ->]. apply grows_marked_mine.
  - destruct (mark_safe_run cell a) as [tr ->]. apply grows_marked_safe.
  - destruct (add_knowledge_reported order fuel cell n a)
      as (? & ? & Hm & ? & ? & ? & ? & _).
    repeat split; try done. rewrite Hm. set_solver.
  - unfold MinesweeperAI.make_safe_move, bind, get; simpl.
    pose proof (safe_move_loop_spec (order (safes a)) a) as Hloop.
    destruct (MinesweeperAI.safe_move_loop (order (safes a)) a)
      as [[[[c|]| |] a'] tr]; try done; simpl.
    + destruct Hloop as (_ & _ & -> & _). unfold grows, add; simpl.
      repeat split; try done. set_solver.
    + destruct Hloop as (_ & -> & _). apply grows_refl.
  - unfold bind. pose proof (make_random_move_state rng a) as Hst.
    destruct (MinesweeperAI.make_random_move rng a) as [[[x| |] a'] tr];
      simpl in *; subst; apply grows_refl.
  - destruct (settled_add_safes order (grows a) H1 H3 H5 s a (grows_refl a))
      as [_ Hend].
    by destruct (MinesweeperAI.add_safes order s a).1.1.
  - destruct (settled_add_mines order (grows a) H2 H4 H5 s a (grows_refl a))
      as [_ Hend].
    by destruct (MinesweeperAI.add_mines order s a).1.1.
Qed.

(** A session: calls made one after the other, an exception of a call
    being caught by the caller.  [add_safes] and [add_mines] are given
    sentence objects that are not stored in the knowledge list. *)
Definition session (order : Cells → list Cell) (calls : list Call) : M unit :=
  foreach calls (fun call => attempt (perform order call)).

Lemma grows_session (order : Cells → list Cell) (calls : list Call) (a : AI) :
  grows a (session order calls a).1.2.
Proof.
  assert (wp any_event (grows a) (session order calls) (fun _ => grows a) a)
    as [_ Hend].
  { apply wp_foreach; [apply grows_refl|].
    intros call a' _ Ha'. apply wp_attempt. split; [by apply Forall_true|].
    pose proof (grows_trans _ _ _ Ha' (grows_perform order call a')).
    by destruct (perform order call a').1.1. }
  by destruct (session order calls a).1.1.
Qed.

(** X21.  Whatever calls are made on the engine, in whatever order and
    with whatever outcome ([mark_mine], [mark_safe], [add_knowledge],
    [make_safe_move], [make_random_move], [add_safes], [add_mines]), the
    dimensions stay as they are, no cell ever leaves [moves_made], [safes]
    or [mines], and the knowledge list never gets shorter. *)
Theorem engine_only_grows (order : Cells → list Cell) (calls : list Call)
    (a : AI) :
  let a' := (session order calls a).1.2 in
  height a' = height a ∧ width a' = width a ∧
  moves_made a ⊆ moves_made a' ∧ safes a ⊆ safes a' ∧ mines a ⊆ mines a' ∧
  (length (knowledge a) ≤ length (knowledge a'))%nat.
Proof. apply grows_session. Qed.

(** X22.  [make_random_move] in closed form: on a board with no row or no
    column it raises the [ValueError] of [randint] at the first draw;
    otherwise it returns the cell of the first pair of draws that is
    neither in [moves_made] nor in [mines], and goes on drawing as long as
    there is none; the engine is never changed. *)
Theorem make_random_move_outcome (rng : list (Z * Z)) (a : AI) :
  MinesweeperAI.make_random_move rng a =
  match rng with
  | [] => (OutOfFuel, a, [])
  | _ :: _ =>
      if (0 <? height a) && (0 <? width a)
      then match find (fun r => eligible a (drawn a r)) rng with
           | Some r => (Ok (drawn a r), a, [])
           | None => (OutOfFuel, a, [])
           end
      else (Raise ValueError, a, [])
  end.
Proof.
  destruct rng as [|r rng]; [done|].
  destruct ((0 <? height a) && (0 <? width a)) eqn:Hpos;
    [|by rewrite make_random_move_step, Hpos].
  revert r. induction rng as [|q rng IH]; intros r;
    rewrite make_random_move_step, Hpos; simpl.
  - by destruct (eligible a (drawn a r)).
  - destruct (eligible a (drawn a r)); [done|]. apply IH.
Qed.

(** A 1 by 1 board whose only cell has been played. *)
Definition played_out : AI := mkAI 1 1 {[(0, 0)]} ∅ {[(0, 0)]} [].

Lemma played_out_full (c : Cell) :
  MinesweeperAI.in_bounds (height played_out) (width played_out) c = true →
  c ∈ moves_made played_out ∨ c ∈ mines played_out.
Proof.
  destruct c as [i j]. unfold MinesweeperAI.in_bounds. simpl. intros Hb. left.
  assert (i = 0) as -> by lia. assert (j = 0) as -> by lia. set_solver.
Qed.

(** X23.  When every cell of the board is in [moves_made] or in [mines],
    [make_random_move] never returns: whatever the draws, and however
    many, it is still drawing when they are used up. *)
Theorem make_random_move_no_cell_left (rng : list (Z * Z)) (a : AI) :
  0 < height a → 0 < width a →
  (∀ c : Cell, MinesweeperAI.in_bounds (height a) (width a) c = true →
               c ∈ moves_made a ∨ c ∈ mines a) →
  MinesweeperAI.make_random_move rng a = (OutOfFuel, a, []).
Proof.
  intros Hh Hw Hall.
  assert (Hpos : (0 <? height a) && (0 <? width a) = true) by lia.
  induction rng as [|q rng IH]; [done|].
  rewrite make_random_move_step, Hpos.
  assert (eligible a (drawn a q) = false) as ->; [|done].
  unfold eligible.
  destruct (Hall (drawn a q)) as [Hm|Hm].
  - unfold MinesweeperAI.in_bounds, drawn. simpl.
    pose proof (Z.mod_pos_bound q.1 (height a)).
    pose proof (Z.mod_pos_bound q.2 (width a)). lia.
  - by rewrite (bool_decide_eq_true_2 _ Hm).
  - rewrite (bool_decide_eq_true_2 _ Hm). by rewrite andb_false_r.
Qed.

Lemma make_random_move_no_cell_left_witness :
  0 < height played_out ∧ 0 < width played_out ∧
  (∀ c : Cell,
     MinesweeperAI.in_bounds (height played_out) (width played_out) c = true →
     c ∈ moves_made played_out ∨ c ∈ mines played_out) ∧
  MinesweeperAI.make_random_move [(3, 4); (1, 2)] played_out
  = (OutOfFuel, played_out, []).
Proof.
  split; [reflexivity|]. split; [reflexivity|]. split; [apply played_out_full|].
  apply (make_random_move_no_cell_left [(3, 4); (1, 2)] played_out
           eq_refl eq_refl played_out_full).
Defined.




(** [n] calls of [make_safe_move] in a row: the cells returned, in order,
    and the engine after the last call. *)
Fixpoint safe_moves (order : Cells → list Cell) (n : nat) (a : AI)
    : list Cell * AI :=
  match n with
  | O => ([], a)
  | S n =>
      match MinesweeperAI.make_safe_move order a with
      | (Ok (Some c), a', _) =>
          let '(cs, a'') := safe_moves order n a' in (c :: cs, a'')
      | (_, a', _) => safe_moves order n a'
      end
  end.

Lemma make_safe_move_run (order : Cells → list Cell) (a : AI) :
  order_ok order →
  (∃ c tr, MinesweeperAI.make_safe_move order a
           = (Ok (Some c), set_moves_made (add c) a, tr) ∧
           c ∈ safes a ∧ c ∉ moves_made a) ∨
  (MinesweeperAI.make_safe_move order a = (Ok None, a, []) ∧
   safes a ⊆ moves_made a).
Proof.
  intros Ho. unfold MinesweeperAI.make_safe_move, bind, get; simpl.
  pose proof (safe_move_loop_spec (order (safes a)) a) as Hloop.
  destruct (MinesweeperAI.safe_move_loop (order (safes a)) a)
    as [[[[c|]| |] a'] tr]; try done.
  - destruct Hloop as (Hc%(order_ok_elem _ _ _ Ho) & Hnot & -> & ->).
    left. by exists c, [Mut a (set_moves_made (add c) a)].
  - destruct Hloop as (Hall & -> & ->). right. split; [done|].
    intros c Hc. apply Hall. rewrite (Ho (safes a)). by apply elem_of_elements.
Qed.

Lemma safe_moves_spec (order : Cells → list Cell) (n : nat) (a : AI) :
  order_ok order →
  (size (safes a ∖ moves_made a) ≤ n)%nat →
  NoDup (safe_moves order n a).1 ∧
  list_to_set (safe_moves order n a).1 = safes a ∖ moves_made a ∧
  moves_made (safe_moves order n a).2 = safes a ∪ moves_made a ∧
  safes (safe_moves order n a).2 = safes a ∧
  mines (safe_moves order n a).2 = mines a ∧
  knowledge (safe_moves order n a).2 = knowledge a.
Proof.
  intros Ho. revert a. induction n as [|n IH]; intros a Hn.
  - assert (safes a ∖ moves_made a = ∅) as Hempty.
    { apply leibniz_equiv, size_empty_inv. lia. }
    simpl. split; [apply NoDup_nil_2|]. split; [by rewrite Hempty|].
    repeat split. apply set_eq. intros c.
    destruct (decide (c ∈ moves_made a)); set_solver.
  - simpl. destruct (make_safe_move_run order a Ho)
      as [(c & tr & -> & Hc & Hnot)|[-> Hsub]].
    + set (a1 := set_moves_made (add c) a).
      assert (Hdiff : safes a ∖ moves_made a
                      = {[c]} ∪ safes a1 ∖ moves_made a1).
      { subst a1. unfold add. simpl. apply set_eq. intros x.
        destruct (decide (x = c)); set_solver. }
      assert (Hsz : (size (safes a1 ∖ moves_made a1) ≤ n)%nat).
      { rewrite Hdiff in Hn.
        rewrite (size_union {[c]} (safes a1 ∖ moves_made a1)) in Hn.
        - rewrite size_singleton in Hn. lia.
        - subst a1. unfold add. simpl. set_solver. }
      destruct (IH a1 Hsz) as (Hnd & Hset & Hmv & Hs & Hm & HK).
      destruct (safe_moves order n a1) as [cs a2]. simpl in *.
      repeat split; try done.
      * constructor; [|done]. intros Hin.
        assert (c ∈ (list_to_set cs : Cells)) as Hin'
          by (by apply elem_of_list_to_set).
        rewrite Hset in Hin'. unfold add in Hin'. set_solver.
      * rewrite Hset, Hdiff. done.
      * rewrite Hmv. unfold add. set_solver.
    + assert (Hsz : (size (safes a ∖ moves_made a) ≤ n)%nat).
      { assert (safes a ∖ moves_made a = ∅) as -> by set_solver.
        rewrite size_empty. lia. }
      by apply IH.
Qed.

(** X25.  Calling [make_safe_move] again and again plays every known safe
    cell once: [n] calls in a row, with [n] at least the number of cells
    of [safes] not yet in [moves_made], return exactly these cells, each
    once, leave [safes], [mines] and the knowledge list as they were and
    all of [safes] in [moves_made]; the next call returns [None]. *)
Theorem safe_moves_exhaust (order : Cells → list Cell) (n : nat) (a : AI) :
  order_ok order →
  (size (safes a ∖ moves_made a) ≤ n)%nat →
  let r := safe_moves order n a in
  NoDup r.1 ∧
  list_to_set r.1 = safes a ∖ moves_made a ∧
  moves_made r.2 = safes a ∪ moves_made a ∧
  safes r.2 = safes a ∧ mines r.2 = mines a ∧ knowledge r.2 = knowledge a ∧
  (MinesweeperAI.make_safe_move order r.2).1.1 = Ok None.
Proof.
  intros Ho Hn r.
  destruct (safe_moves_spec order n a Ho Hn) as (Hnd & Hset & Hmv & Hs & Hm & HK).
  fold r in Hnd, Hset, Hmv, Hs, Hm, HK.
  repeat split; try done.
  destruct (make_safe_move_run order r.2 Ho)
    as [(c & tr & _ & Hc & Hnot)|[-> _]]; [|done].
  exfalso. apply Hnot. rewrite Hmv. rewrite Hs in Hc. set_solver.
Qed.

Lemma cleared_engine_unplayed :
  (size (safes cleared_engine ∖ moves_made cleared_engine) ≤ 2)%nat.
Proof.
  assert (size (safes cleared_engine ∖ moves_made cleared_engine) = 1%nat) as ->
    by (by vm_compute).
  lia.
Qed.

Lemma safe_moves_exhaust_witness :
  order_ok elements ∧
  (size (safes cleared_engine ∖ moves_made cleared_engine) ≤ 2)%nat ∧
  let r := safe_moves elements 2 cleared_engine in
  NoDup r.1 ∧
  list_to_set r.1 = safes cleared_engine ∖ moves_made cleared_engine ∧
  moves_made r.2 = safes cleared_engine ∪ moves_made cleared_engine ∧
  safes r.2 = safes cleared_engine ∧ mines r.2 = mines cleared_engine ∧
  knowledge r.2 = knowledge cleared_engine ∧
  (MinesweeperAI.make_safe_move elements r.2).1.1 = Ok None.
Proof.
  split; [apply order_ok_elements|]. split; [apply cleared_engine_unplayed|].
  apply (safe_moves_exhaust elements 2 cleared_engine order_ok_elements
           cleared_engine_unplayed).
Defined.

(** ** Safe moves on a board *)

(** X26.  The engine plays safely on the board it is told about.  Take a
    game built by the constructor and a fresh engine of its dimensions;
    report to the engine, in any order and number, clues read off the
    board ([nearby_mines] of cells of the board that [is_mine] says are
    free).  A cell [make_safe_move] then returns is a cell of the board,
    and [is_mine] says it is free. *)
Theorem safe_move_avoids_mines (order : Cells → list Cell)
    (rng : list (Z * Z)) (h w n_mines : Z) (g : Minesweeper.t) (fuel : nat)
    (clues : list (Cell * Z)) (c : Cell) (a' : AI) (tr : list Event) :
  order_ok order →
  0 ≤ h → 0 ≤ w →
  Minesweeper.__init__ rng h w n_mines = Some g →
  Forall (board_clue g) clues →
  MinesweeperAI.make_safe_move order
    (report_all order fuel clues (MinesweeperAI.__init__ h w)).1.2
  = (Ok (Some c), a', tr) →
  MinesweeperAI.in_bounds h w c = true ∧ Minesweeper.is_mine g c = Some false.
Proof.
  intros Ho Hh Hw Hinit Hclues Hmove.
  destruct (init_board_ok rng h w n_mines g Hh Hw Hinit) as (Hg & Hgh & Hgw & _).
  set (a := (report_all order fuel clues (MinesweeperAI.__init__ h w)).1.2) in *.
  assert (Hsound : Sound (Minesweeper.mines g) a).
  { apply (report_all_reached_sound order _ h w fuel clues); [done| |].
    - eapply Forall_impl; [exact Hclues|].
      intros [cell n] (Hb & Hm & Hn). rewrite <- Hgh, <- Hgw.
      by apply board_clue_truthful.
    - unfold reached. apply elem_of_cons. right. apply elem_of_app. right.
      by apply list_elem_of_singleton. }
  assert (Hboard : on_board h w a).
  { destruct (on_board_report_all order h w fuel clues
                (MinesweeperAI.__init__ h w) Ho (on_board_init h w)) as [_ Hend].
    - eapply Forall_impl; [exact Hclues|].
      intros [cell n] (Hb & _). by rewrite <- Hgh, <- Hgw.
    - fold a in Hend.
      by destruct (report_all order fuel clues (MinesweeperAI.__init__ h w)).1.1. }
  unfold MinesweeperAI.make_safe_move, bind, get in Hmove. simpl in Hmove.
  pose proof (safe_move_loop_spec (order (safes a)) a) as Hloop.
  destruct (MinesweeperAI.safe_move_loop (order (safes a)) a)
    as [[[[c0|]| |] a0] tr0]; try done.
  injection Hmove as -> _ _.
  destruct Hloop as (Hc%(order_ok_elem _ _ _ Ho) & _).
  destruct Hboard as (_ & _ & Hin).
  assert (Hb : MinesweeperAI.in_bounds h w c = true) by (apply Hin; set_solver).
  split; [done|].
  rewrite (board_ok_is_mine g c Hg) by (by rewrite Hgh, Hgw).
  f_equal. apply bool_decide_eq_false_2.
  destruct Hsound as [Hs _ _]. set_solver.
Qed.

Lemma row_game_move :
  MinesweeperAI.make_safe_move elements
    (report_all elements 8 row_clues (MinesweeperAI.__init__ 1 5)).1.2
  = (Ok (Some (0, 4)),
     (MinesweeperAI.make_safe_move elements
        (report_all elements 8 row_clues (MinesweeperAI.__init__ 1 5)).1.2).1.2,
     (MinesweeperAI.make_safe_move elements
        (report_all elements 8 row_clues (MinesweeperAI.__init__ 1 5)).1.2).2).
Proof.
  pose proof make_safe_move_example as Hr.
  destruct (MinesweeperAI.make_safe_move elements _) as [[r a'] tr].
  simpl in *. by subst.
Qed.

Lemma safe_move_avoids_mines_witness :
  order_ok elements ∧ 0 ≤ 1 ∧ 0 ≤ 5 ∧
  Minesweeper.__init__ [(0, 2)] 1 5 1 = Some row_game ∧
  Forall (board_clue row_game) row_clues ∧
  MinesweeperAI.make_safe_move elements
    (report_all elements 8 row_clues (MinesweeperAI.__init__ 1 5)).1.2
  = (Ok (Some (0, 4)),
     (MinesweeperAI.make_safe_move elements
        (report_all elements 8 row_clues (MinesweeperAI.__init__ 1 5)).1.2).1.2,
     (MinesweeperAI.make_safe_move elements
        (report_all elements 8 row_clues (MinesweeperAI.__init__ 1 5)).1.2).2) ∧
  MinesweeperAI.in_bounds 1 5 (0, 4) = true ∧
  Minesweeper.is_mine row_game (0, 4) = Some false.
Proof.
  split; [apply order_ok_elements|].
  split; [lia|]. split; [lia|].
  split; [apply row_game_init|].
  split; [apply row_game_clues|].
  split; [apply row_game_move|].
  apply (safe_move_avoids_mines elements [(0, 2)] 1 5 1 row_game 8%nat row_clues
           (0, 4) _ _ order_ok_elements ltac:(lia) ltac:(lia)
           row_game_init row_game_clues row_game_move).
Defined.
